(** * LiteLLM Formatter node: a shallow embedding and its properties

    Source: [src/nodes/LiteLLMFormatter/LiteLlmFormatter.node.ts].

    The development has two layers.
    - A value layer, where a document is a JSON tree.  It embeds
      [formatLiteLLMResponse] and [execute] and carries the functional
      properties.
    - A store layer ([Module Store]), where objects and arrays live in a
      heap and are mutated in place, as the source does.  It carries
      the property that the input is not mutated, and is shown to
      compute what the value layer computes
      ([Agreement.store_agrees_with_value]).

    The copy made at line 161, [JSON.parse(JSON.stringify(data))], is
    not exact: a number that JSON cannot write ([Infinity],
    [-Infinity], [NaN]) comes back as [null], and [-0] as [0].  The
    properties below say what the function does to the input through
    that copy ([JSON_roundtrip]).

    The limits of the engine (the depth of its stack, its memory) are
    not part of the embedding. *)

From Stdlib Require Import ZArith Ascii String List Lia.
From Stdlib Require Import Floats.SpecFloat.
From stdpp Require Import base option list strings.

Local Open Scope string_scope.
Local Open Scope list_scope.

(** ** JSON values *)

(** A JavaScript number is an IEEE 754 double: a finite number
    [(-1)^s * m * 2^e], a zero of either sign, an infinity of either
    sign, or [NaN].  [JSON.parse] returns [Infinity] for a numeral
    beyond the range of doubles, such as [1e400], and [-0] for [-0]. *)
Abbreviation Number := spec_float.

(** The data the node handles: the values of JSON as JavaScript has
    them, which is what [JSON.parse] returns (line 101) and what the
    records of n8n carry in [json].  An object is the list of its own
    properties, in the order JavaScript lists them: those named by an
    array index first, in ascending order, then the others in the
    order of their creation. *)
Unset Elimination Schemes.
Inductive JsonValue : Type :=
| JNull
| JBool (b : bool)
| JNum (x : Number)
| JStr (s : string)
| JArr (elems : list JsonValue)
| JObj (props : list (string * JsonValue)).
Set Elimination Schemes.

(** The result of reading a property: [None] is JavaScript's
    [undefined]. *)
Abbreviation JsValue := (option JsonValue).

(** ** Exceptions *)

(** Run-time errors raised by the language itself. *)
Inductive TypeError : Type :=
| CannotReadNull (prop : string)
    (* Cannot read properties of null (reading 'prop') *)
| CannotReadUndefined (prop : string)
    (* Cannot read properties of undefined (reading 'prop') *)
| CannotSetProperty (prop : string)
    (* Cannot set properties of null or undefined (setting 'prop') *)
| CannotCreateProperty (prop : string)
    (* Cannot create property 'prop' on <primitive> *)
| CircularStructure.
    (* Converting circular structure to JSON *)

(** The error of [JSON.parse] on a text that is not JSON. *)
Inductive SyntaxError : Type :=
| NotValidJSON (text : string).
    (* "text" is not valid JSON *)

(** The [NodeOperationError]s the node raises, one constructor per
    [throw] site, named after the error taxonomy of the specification.
    Each carries the [itemIndex] passed in the error options. *)
Inductive NodeOperationError : Type :=
| MissingFieldError (fieldName : string) (itemIndex : nat)
    (* line 88: Input field "..." not found in item i *)
| ParseError (fieldName : string) (itemIndex : nat)
    (* line 104: Failed to parse JSON from input field "..." in item i *)
| InvalidStructureError (itemIndex : nat)
    (* line 192: Input data does not have a valid choices array *)
| MissingMessageError (choiceIndex : nat) (itemIndex : nat)
    (* line 184: Choice at index i does not have a message property *)
| UnexpectedError (itemIndex : nat) (cause : TypeError + SyntaxError).
    (* line 139: Error processing item i: <message of the cause> *)

Inductive exn : Type :=
| ThrowTypeError (e : TypeError)
| ThrowSyntaxError (e : SyntaxError)
| ThrowNodeOperationError (e : NodeOperationError).

(** Outcome of a computation that may throw. *)
Inductive result (A : Type) : Type :=
| Ok (a : A)
| Throw (e : exn).
Arguments Ok {A} a.
Arguments Throw {A} e.

Definition bind {A B : Type} (r : result A) (k : A -> result B) : result B :=
  match r with
  | Ok a => k a
  | Throw e => Throw e
  end.

Notation "x <- r ;; k" := (bind r (fun x => k))
  (at level 100, r at next level, right associativity).

(** ** Language primitives on JSON values *)

(** First own property named [k], in a property list with values of
    any kind. *)
Fixpoint lookupProp {V : Type} (k : string) (props : list (string * V)) : option V :=
  match props with
  | [] => None
  | (k', v) :: rest => if String.eqb k k' then Some v else lookupProp k rest
  end.

(** Assignment [o.k = v] on the property list of an object, for a
    name [k] that is not an array index (such are the names the
    normaliser assigns to): an existing property keeps its place and
    takes the new value, a new property goes last. *)
Fixpoint putProp {V : Type} (k : string) (v : V) (props : list (string * V))
  : list (string * V) :=
  match props with
  | [] => [(k, v)]
  | (k', v') :: rest =>
      if String.eqb k k' then (k', v) :: rest else (k', v') :: putProp k v rest
  end.

(** The value of a decimal digit. *)
Definition digitValue (c : ascii) : option N :=
  let n := N_of_ascii c in
  if (48 <=? n)%N && (n <=? 57)%N then Some (n - 48)%N else None.

Fixpoint digitsValue (acc : N) (s : string) : option N :=
  match s with
  | EmptyString => Some acc
  | String c rest =>
      match digitValue c with
      | Some d => digitsValue (acc * 10 + d) rest
      | None => None
      end
  end.

(** The array index a property name stands for, if any: the name is
    the decimal writing, without leading zero, of an integer up to
    [2^32 - 2]. *)
Definition arrayIndex (k : string) : option N :=
  match k with
  | EmptyString => None
  | String c rest =>
      if Ascii.eqb c "0"%char && negb (String.eqb rest EmptyString) then None
      else if (10 <? String.length k)%nat then None
      else
        match digitsValue 0 k with
        | Some n => if (n <=? 4294967294)%N then Some n else None
        | None => None
        end
  end.

(** A new property under the array index [n] takes its place among the
    properties named by an array index, which come first and in
    ascending order. *)
Fixpoint insertIndexed {V : Type} (n : N) (kv : string * V) (props : list (string * V))
  : list (string * V) :=
  match props with
  | [] => [kv]
  | (k', v') :: rest =>
      match arrayIndex k' with
      | Some n' =>
          if (n' <? n)%N then (k', v') :: insertIndexed n kv rest else kv :: props
      | None => kv :: props
      end
  end.

(** Definition of the own property [k] with value [v], for any name
    (an object literal with a computed key, a member read by
    [JSON.parse]): an existing property keeps its place and takes the
    new value; a new one goes among the array indices when its name is
    one, and last otherwise. *)
Definition defineProp {V : Type} (k : string) (v : V) (props : list (string * V))
  : list (string * V) :=
  match arrayIndex k, lookupProp k props with
  | Some n, None => insertIndexed n (k, v) props
  | _, _ => putProp k v props
  end.

(** The read [x.k], for the names the normaliser reads ([choices],
    [message], [tool_calls], [function_call], [annotations]).  Reading
    from [null] throws; an object yields its own property, and
    inherits none by these names; arrays and primitives have no
    property by these names either, so the read is [undefined]. *)
Definition getProp (x : JsonValue) (k : string) : result JsValue :=
  match x with
  | JNull => Throw (ThrowTypeError (CannotReadNull k))
  | JObj props => Ok (lookupProp k props)
  | _ => Ok None
  end.

(** The assignment [x.k = v], returning the updated [x].  The module is
    compiled as strict-mode code, where creating a property on a
    primitive throws.  A property set on an array under a non-index
    name is not part of its JSON content, so the array is returned as
    it is. *)
Definition setProp (x : JsonValue) (k : string) (v : JsonValue) : result JsonValue :=
  match x with
  | JObj props => Ok (JObj (putProp k v props))
  | JArr elems => Ok (JArr elems)
  | JNull => Throw (ThrowTypeError (CannotSetProperty k))
  | _ => Throw (ThrowTypeError (CannotCreateProperty k))
  end.

(** What the holder [x] of an object reached as [x.k] looks like after
    that object was mutated in place into [v]. *)
Definition withProp (k : string) (v : JsonValue) (x : JsonValue) : JsonValue :=
  match x with
  | JObj props => JObj (putProp k v props)
  | _ => x
  end.

(** The numbers that are falsy: [0], [-0] and [NaN]. *)
Definition zeroOrNaN (x : Number) : bool :=
  match x with
  | S754_zero _ => true
  | S754_nan => true
  | _ => false
  end.

(** JavaScript truthiness: [undefined], [null], [false], [0], [-0],
    [NaN] and the empty string are falsy; everything else, every array
    and object included, is truthy. *)
Definition truthy (x : JsValue) : bool :=
  match x with
  | None => false
  | Some JNull => false
  | Some (JBool b) => b
  | Some (JNum x) => negb (zeroOrNaN x)
  | Some (JStr s) => negb (String.eqb s EmptyString)
  | Some (JArr _) => true
  | Some (JObj _) => true
  end.

(** [x === null] *)
Definition isNull (x : JsValue) : bool :=
  match x with Some JNull => true | _ => false end.

(** [x === undefined] *)
Definition isUndefined (x : JsValue) : bool :=
  match x with None => true | _ => false end.

(** [Array.isArray(x)] *)
Definition Array_isArray (x : JsValue) : bool :=
  match x with Some (JArr _) => true | _ => false end.

(** The elements of an array value (used under [Array_isArray]). *)
Definition elements (x : JsValue) : list JsonValue :=
  match x with Some (JArr elems) => elems | _ => [] end.

(** What [JSON.parse] reads back from what [JSON.stringify] wrote for
    a number.  [Infinity], [-Infinity] and [NaN] are written as
    [null]; a zero of either sign is written as [0]; any other number
    is written with the digits that read back as that same number. *)
Definition roundtripNumber (x : Number) : JsonValue :=
  match x with
  | S754_nan => JNull
  | S754_infinity _ => JNull
  | S754_zero _ => JNum (S754_zero false)
  | S754_finite s m e => JNum (S754_finite s m e)
  end.

(** [JSON.parse(JSON.stringify(data))]: the tree that the serialised
    text describes, built anew.  Arrays and objects are copied member
    by member, in order; numbers as [roundtripNumber] says. *)
Fixpoint JSON_roundtrip (data : JsonValue) : JsonValue :=
  match data with
  | JNull => JNull
  | JBool b => JBool b
  | JNum x => roundtripNumber x
  | JStr s => JStr s
  | JArr elems => JArr (List.map JSON_roundtrip elems)
  | JObj props => JObj (List.map (fun kv => (fst kv, JSON_roundtrip (snd kv))) props)
  end.

(** ** formatLiteLLMResponse (lines 159-200) *)

(** Lines 169-182: the three coercions on [choice.message]. *)
Definition coerceMessage (message : JsonValue) : result JsonValue :=
  tool_calls <- getProp message "tool_calls" ;;
  m1 <- (if isNull tool_calls
         then setProp message "tool_calls" (JArr [])
         else Ok message) ;;
  function_call <- getProp m1 "function_call" ;;
  m2 <- (if isNull function_call
         then setProp m1 "function_call" (JObj [])
         else Ok m1) ;;
  annotations <- getProp m2 "annotations" ;;
  if isNull annotations || isUndefined annotations
  then setProp m2 "annotations" (JArr [])
  else Ok m2.

(** Lines 166-189: the body of the loop, for the choice at index [i]. *)
Definition formatChoice (strictMode : bool) (itemIndex : nat) (i : nat)
    (choice : JsonValue) : result JsonValue :=
  message <- getProp choice "message" ;;
  if truthy message then
    match message with
    | Some m => m' <- coerceMessage m ;; Ok (withProp "message" m' choice)
    | None => Ok choice
    end
  else if strictMode then
    Throw (ThrowNodeOperationError (MissingMessageError i itemIndex))
  else Ok choice.

(** Lines 165-190: the loop over [clonedData.choices], from index [i]. *)
Fixpoint formatChoices (strictMode : bool) (itemIndex : nat) (i : nat)
    (choices : list JsonValue) : result (list JsonValue) :=
  match choices with
  | [] => Ok []
  | choice :: rest =>
      choice' <- formatChoice strictMode itemIndex i choice ;;
      rest' <- formatChoices strictMode itemIndex (S i) rest ;;
      Ok (choice' :: rest')
  end.

(** Lines 163-199: what is done to the clone. *)
Definition formatCloned (clonedData : JsonValue) (strictMode : bool)
    (itemIndex : nat) : result JsonValue :=
  choices <- getProp clonedData "choices" ;;
  if truthy choices && Array_isArray choices then
    choices' <- formatChoices strictMode itemIndex 0 (elements choices) ;;
    Ok (withProp "choices" (JArr choices') clonedData)
  else if strictMode then
    Throw (ThrowNodeOperationError (InvalidStructureError itemIndex))
  else Ok clonedData.

Definition formatLiteLLMResponse (data : JsonValue) (strictMode : bool)
    (itemIndex : nat) : result JsonValue :=
  let clonedData := JSON_roundtrip data in
  formatCloned clonedData strictMode itemIndex.

(** ** The host's records *)

(** [IPairedItemData] of n8n-workflow: where an item comes from. *)
Record IPairedItemData : Type := {
  item : nat;
  input : option nat
}.

(** The [pairedItem] member of a record.  n8n-workflow declares it as
    [IPairedItemData | IPairedItemData[] | number]. *)
Inductive PairedItem : Type :=
| PairedIndex (n : nat)
| PairedData (d : IPairedItemData)
| PairedList (l : list IPairedItemData).

(** [INodeExecutionData], with the three members the node reads and
    writes.  [json] is the property list of the record's data object;
    [binary], when present, is an object keyed by attachment name. *)
Record INodeExecutionData : Type := {
  json : list (string * JsonValue);
  binary : option (list (string * JsonValue));
  pairedItem : option PairedItem
}.

(** Truthiness of [item.binary]: an object when present. *)
Definition truthyBinary (b : option (list (string * JsonValue))) : bool :=
  match b with Some _ => true | None => false end.

(** Truthiness of [item.pairedItem]: the number [0] is falsy, objects
    and arrays are truthy. *)
Definition truthyPairedItem (p : option PairedItem) : bool :=
  match p with
  | None => false
  | Some (PairedIndex n) => negb (Nat.eqb n 0)
  | Some (PairedData _) => true
  | Some (PairedList _) => true
  end.

(** [typeof x === 'string'] *)
Definition isString (x : JsValue) : bool :=
  match x with Some (JStr _) => true | _ => false end.

(** The text of a string value (used under [isString]). *)
Definition stringOf (x : JsValue) : string :=
  match x with Some (JStr s) => s | _ => EmptyString end.

(** What every data object inherits from [Object.prototype]: its
    methods, which are functions, and under [__proto__] the prototype
    object itself. *)
Inductive Inherited : Type :=
| PrototypeMethod
| PrototypeObject.

Definition Object_prototype (k : string) : option Inherited :=
  if String.eqb k "__proto__" then Some PrototypeObject
  else if existsb (String.eqb k)
            ["constructor"; "hasOwnProperty"; "isPrototypeOf";
             "propertyIsEnumerable"; "toLocaleString"; "toString"; "valueOf";
             "__defineGetter__"; "__defineSetter__";
             "__lookupGetter__"; "__lookupSetter__"]
  then Some PrototypeMethod
  else None.

(** [formatLiteLLMResponse] called on an inherited member.  For a
    function [JSON.stringify] returns [undefined], which [JSON.parse]
    rejects (line 161).  [Object.prototype] has no enumerable own
    property: as data it is the empty object. *)
Definition formatInherited (member : Inherited) (strictMode : bool)
    (itemIndex : nat) : result JsonValue :=
  match member with
  | PrototypeMethod => Throw (ThrowSyntaxError (NotValidJSON "undefined"))
  | PrototypeObject => formatLiteLLMResponse (JObj []) strictMode itemIndex
  end.

(** ** execute (lines 68-155) *)

Section Execute.

(** The host's [JSON.parse]: [None] stands for a [SyntaxError]. *)
Variable JSON_parse : string -> option JsonValue.

(** The node parameters read at lines 72-75. *)
Variables (inputField outputField : string).
Variables (processAllItems strictMode : bool).

(** Lines 118-134: the output record. *)
Definition newItem (item : INodeExecutionData) (formattedData : JsonValue)
  : INodeExecutionData :=
  {| json := defineProp outputField formattedData (json item);
     binary := if truthyBinary (binary item) then binary item else None;
     pairedItem := if truthyPairedItem (pairedItem item)
                   then pairedItem item else None |}.

(** Lines 81-134: the [try] block.  It yields the record pushed to
    [returnData].  [item] is [None] when [itemsToProcess[itemIndex]]
    is [undefined].

    The read [item.json[inputField]] (line 84) finds an own property
    of the data object, or else a member inherited from
    [Object.prototype]; an inherited member is truthy and is not a
    string, so it goes to [formatLiteLLMResponse] as it is. *)
Definition tryBlock (itemIndex : nat) (item : option INodeExecutionData)
  : result INodeExecutionData :=
  match item with
  | None => Throw (ThrowTypeError (CannotReadUndefined "json"))
  | Some item =>
      match lookupProp inputField (json item), Object_prototype inputField with
      | None, Some member =>
          formattedData <- formatInherited member strictMode itemIndex ;;
          Ok (newItem item formattedData)
      | inputData, _ =>
          if negb (truthy inputData) then
            if strictMode then
              Throw (ThrowNodeOperationError (MissingFieldError inputField itemIndex))
            else Ok item
          else
            let format (data : JsonValue) :=
              formattedData <- formatLiteLLMResponse data strictMode itemIndex ;;
              Ok (newItem item formattedData) in
            if isString inputData then
              match JSON_parse (stringOf inputData) with
              | Some data => format data
              | None =>
                  if strictMode then
                    Throw (ThrowNodeOperationError (ParseError inputField itemIndex))
                  else Ok item
              end
            else
              match inputData with
              | Some data => format data
              | None => Ok item
              end
      end
  end.

(** Lines 135-144: the [catch] block. *)
Definition catchBlock {A : Type} (itemIndex : nat) (r : result A) : result A :=
  match r with
  | Ok a => Ok a
  | Throw (ThrowNodeOperationError e) => Throw (ThrowNodeOperationError e)
  | Throw (ThrowTypeError e) =>
      Throw (ThrowNodeOperationError (UnexpectedError itemIndex (inl e)))
  | Throw (ThrowSyntaxError e) =>
      Throw (ThrowNodeOperationError (UnexpectedError itemIndex (inr e)))
  end.

(** Lines 79-145: the loop over [itemsToProcess], from [itemIndex],
    pushing to [returnData]. *)
Fixpoint processLoop (itemIndex : nat)
    (itemsToProcess : list (option INodeExecutionData))
    (returnData : list INodeExecutionData) : result (list INodeExecutionData) :=
  match itemsToProcess with
  | [] => Ok returnData
  | item :: rest =>
      out <- catchBlock itemIndex (tryBlock itemIndex item) ;;
      processLoop (S itemIndex) rest (returnData ++ [out])
  end.

(** Lines 149-151: push [items[i]] for [i] from 1 on. *)
Definition pushRemaining (items returnData : list INodeExecutionData)
  : list INodeExecutionData :=
  returnData ++ drop 1 items.

Definition execute (items : list INodeExecutionData)
  : result (list (list INodeExecutionData)) :=
  let itemsToProcess :=
    if processAllItems then List.map Some items else [items !! 0%nat] in
  returnData <- processLoop 0 itemsToProcess [] ;;
  let returnData :=
    if negb processAllItems && (1 <? length items)%nat
    then pushRemaining items returnData
    else returnData in
  Ok [returnData].

End Execute.

(** ** JSON.parse

    An executable reading of the JSON grammar that [JSON.parse]
    accepts.  A numeral is read as the double nearest to it; the
    members of an object are defined one after the other, a later
    member of the same name replacing the value of the earlier one.
    The strings of this development are byte strings: a text is given
    in UTF-8, and so is a code point written with [\u] escapes.
    [None] stands for a [SyntaxError]. *)

Module Parse.

(** The double quote character. *)
Definition quote : ascii := ascii_of_nat 34.

Definition isWs (c : ascii) : bool :=
  let n := nat_of_ascii c in
  Nat.eqb n 32 || Nat.eqb n 9 || Nat.eqb n 10 || Nat.eqb n 13.

Fixpoint skipWs (s : string) : string :=
  match s with
  | String c rest => if isWs c then skipWs rest else s
  | EmptyString => s
  end.

(** [s] without its prefix [p], when it starts with [p]. *)
Fixpoint stripPrefix (p s : string) : option string :=
  match p, s with
  | EmptyString, _ => Some s
  | String a p', String b s' => if Ascii.eqb a b then stripPrefix p' s' else None
  | String _ _, EmptyString => None
  end.

Definition digitOf (c : ascii) : option Z :=
  let n := nat_of_ascii c in
  if (48 <=? n)%nat && (n <=? 57)%nat then Some (Z.of_nat (n - 48)) else None.

Definition hexOf (c : ascii) : option N :=
  let n := N_of_ascii c in
  if (48 <=? n)%N && (n <=? 57)%N then Some (n - 48)%N
  else if (65 <=? n)%N && (n <=? 70)%N then Some (n - 55)%N
  else if (97 <=? n)%N && (n <=? 102)%N then Some (n - 87)%N
  else None.

(** UTF-8 bytes of a code point; a surrogate that stands alone is
    written in the same way. *)
Definition utf8 (cp : N) : string :=
  if (cp <? 128)%N then String (ascii_of_N cp) EmptyString
  else if (cp <? 2048)%N then
    String (ascii_of_N (192 + cp / 64))
      (String (ascii_of_N (128 + cp mod 64)) EmptyString)
  else if (cp <? 65536)%N then
    String (ascii_of_N (224 + cp / 4096))
      (String (ascii_of_N (128 + (cp / 64) mod 64))
         (String (ascii_of_N (128 + cp mod 64)) EmptyString))
  else
    String (ascii_of_N (240 + cp / 262144))
      (String (ascii_of_N (128 + (cp / 4096) mod 64))
         (String (ascii_of_N (128 + (cp / 64) mod 64))
            (String (ascii_of_N (128 + cp mod 64)) EmptyString))).

Definition hex4 (a b c d : ascii) : option N :=
  match hexOf a, hexOf b, hexOf c, hexOf d with
  | Some x, Some y, Some z, Some w => Some (((x * 16 + y) * 16 + z) * 16 + w)%N
  | _, _, _, _ => None
  end.

(** The two halves of a code point above [0xFFFF], written as two
    [\u] escapes one after the other. *)
Definition highSurrogate (cp : N) : bool := (55296 <=? cp)%N && (cp <=? 56319)%N.
Definition lowSurrogate (cp : N) : bool := (56320 <=? cp)%N && (cp <=? 57343)%N.
Definition surrogatePair (hi lo : N) : N :=
  (65536 + (hi - 55296) * 1024 + (lo - 56320))%N.

(** The low surrogate written at the start of [s], and what follows
    it. *)
Definition lowSurrogateEscape (s : string) : option (N * string) :=
  match s with
  | String b (String u (String l1 (String l2 (String l3 (String l4 rest))))) =>
      if Ascii.eqb b "\"%char && Ascii.eqb u "u"%char then
        match hex4 l1 l2 l3 l4 with
        | Some lo => if lowSurrogate lo then Some (lo, rest) else None
        | None => None
        end
      else None
  | _ => None
  end.

(** The characters of a string literal, after its opening quote, up
    to and including the closing quote. *)
Fixpoint parseChars (s : string) : option (string * string) :=
  match s with
  | EmptyString => None
  | String c rest =>
      if Ascii.eqb c quote then Some (EmptyString, rest)
      else if Ascii.eqb c "\"%char then
        match rest with
        | String e rest' =>
            let simple (x : ascii) :=
              match parseChars rest' with
              | Some (str, r) => Some (String x str, r)
              | None => None
              end in
            if Ascii.eqb e quote then simple quote
            else if Ascii.eqb e "\"%char then simple "\"%char
            else if Ascii.eqb e "/"%char then simple "/"%char
            else if Ascii.eqb e "b"%char then simple (ascii_of_nat 8)
            else if Ascii.eqb e "f"%char then simple (ascii_of_nat 12)
            else if Ascii.eqb e "n"%char then simple (ascii_of_nat 10)
            else if Ascii.eqb e "r"%char then simple (ascii_of_nat 13)
            else if Ascii.eqb e "t"%char then simple (ascii_of_nat 9)
            else if Ascii.eqb e "u"%char then
              match rest' with
              | String h1 (String h2 (String h3 (String h4 rest''))) =>
                  match hex4 h1 h2 h3 h4 with
                  | Some cp =>
                      let single :=
                        match parseChars rest'' with
                        | Some (str, r) => Some (String.append (utf8 cp) str, r)
                        | None => None
                        end in
                      if highSurrogate cp then
                        match rest'' with
                        | String b (String u (String l1 (String l2 (String l3
                            (String l4 rest3))))) =>
                            match lowSurrogateEscape rest'' with
                            | Some (lo, _) =>
                                match parseChars rest3 with
                                | Some (str, r) =>
                                    Some (String.append (utf8 (surrogatePair cp lo)) str, r)
                                | None => None
                                end
                            | None => single
                            end
                        | _ => single
                        end
                      else single
                  | None => None
                  end
              | _ => None
              end
            else None
        | EmptyString => None
        end
      else if (nat_of_ascii c <? 32)%nat then None
      else
        match parseChars rest with
        | Some (str, r) => Some (String c str, r)
        | None => None
        end
  end.

(** A run of decimal digits: its value continuing from [acc], how
    many there were, and the rest of the text. *)
Fixpoint digits (acc : Z) (n : nat) (s : string) : Z * nat * string :=
  match s with
  | String c rest =>
      match digitOf c with
      | Some d => digits (acc * 10 + d) (S n) rest
      | None => (acc, n, s)
      end
  | EmptyString => (acc, n, s)
  end.

(** The double nearest to [(-1)^neg * m * 10^e], ties to even, for
    [m] not negative: from [2^1024] on it is an infinity, and below
    [2^-1075] a zero.  With [2^b <= m < 2^(b+1)], the number is at
    least [2^(b+3e)] when [e] is not negative, and below [2^(b+1+3e)]
    when it is, which settles the numerals far out of range.
    Otherwise an integer is rounded as it is, and a fraction is the
    correctly rounded quotient of two integers. *)
Definition decimal (neg : bool) (m e : Z) : Number :=
  match m with
  | Zpos p =>
      let b := Z.log2 m in
      if (0 <=? e)%Z then
        if (1024 <=? b + 3 * e)%Z then S754_infinity neg
        else binary_normalize 53 1024 (cond_Zopp neg (m * 10 ^ e)) 0 neg
      else
        if (b + 3 * e <=? -1076)%Z then S754_zero neg
        else
          SFdiv 53 1024 (S754_finite neg p 0)
                        (S754_finite false (Z.to_pos (10 ^ (- e))) 0)
  | _ => S754_zero neg
  end.

(** [-? int frac? exp?] *)
Definition parseNumber (s : string) : option (JsonValue * string) :=
  let '(neg, s) :=
    match s with
    | String "-"%char rest => (true, rest)
    | _ => (false, s)
    end in
  let '(ip, n, s1) := digits 0 0 s in
  let leadingZero :=
    match s with String "0"%char _ => (1 <? n)%nat | _ => false end in
  if Nat.eqb n 0 || leadingZero then None else
  let frac :=
    match s1 with
    | String "."%char rest =>
        let '(m, k, s2) := digits ip 0 rest in
        if Nat.eqb k 0 then None else Some (m, k, s2)
    | _ => Some (ip, 0%nat, s1)
    end in
  match frac with
  | None => None
  | Some (m, k, s2) =>
      let expo :=
        match s2 with
        | String c rest =>
            if Ascii.eqb c "e"%char || Ascii.eqb c "E"%char then
              let '(eneg, rest') :=
                match rest with
                | String "-"%char r => (true, r)
                | String "+"%char r => (false, r)
                | _ => (false, rest)
                end in
              let '(ev, en, s3) := digits 0 0 rest' in
              if Nat.eqb en 0 then None
              else Some ((if eneg then - ev else ev)%Z, s3)
            else Some (0%Z, s2)
        | EmptyString => Some (0%Z, s2)
        end in
      match expo with
      | None => None
      | Some (ev, s3) =>
          Some (JNum (decimal neg m (ev - Z.of_nat k)), s3)
      end
  end.

(** Recursive descent.  Every recursive call is made after at least
    one more character was consumed or one unit of fuel earlier, so
    twice the length of the text is fuel enough. *)
Fixpoint parseValue (fuel : nat) (s : string) : option (JsonValue * string) :=
  match fuel with
  | O => None
  | S fuel =>
      match skipWs s with
      | String c rest =>
          if Ascii.eqb c "n"%char then
            option_map (pair JNull) (stripPrefix "ull" rest)
          else if Ascii.eqb c "t"%char then
            option_map (pair (JBool true)) (stripPrefix "rue" rest)
          else if Ascii.eqb c "f"%char then
            option_map (pair (JBool false)) (stripPrefix "alse" rest)
          else if Ascii.eqb c quote then
            match parseChars rest with
            | Some (str, r) => Some (JStr str, r)
            | None => None
            end
          else if Ascii.eqb c "["%char then
            match skipWs rest with
            | String "]"%char r => Some (JArr [], r)
            | r => parseElements fuel r []
            end
          else if Ascii.eqb c "{"%char then
            match skipWs rest with
            | String "}"%char r => Some (JObj [], r)
            | r => parseMembers fuel r []
            end
          else parseNumber (String c rest)
      | EmptyString => None
      end
  end
with parseElements (fuel : nat) (s : string) (acc : list JsonValue)
  : option (JsonValue * string) :=
  match fuel with
  | O => None
  | S fuel =>
      match parseValue fuel s with
      | Some (v, r) =>
          match skipWs r with
          | String c r' =>
              if Ascii.eqb c ","%char then parseElements fuel r' (acc ++ [v])
              else if Ascii.eqb c "]"%char then Some (JArr (acc ++ [v]), r')
              else None
          | EmptyString => None
          end
      | None => None
      end
  end
with parseMembers (fuel : nat) (s : string) (acc : list (string * JsonValue))
  : option (JsonValue * string) :=
  match fuel with
  | O => None
  | S fuel =>
      match skipWs s with
      | String c0 r0 =>
          if negb (Ascii.eqb c0 quote) then None else
          match parseChars r0 with
          | Some (key, r1) =>
              match skipWs r1 with
              | String ":"%char r2 =>
                  match parseValue fuel r2 with
                  | Some (v, r3) =>
                      match skipWs r3 with
                      | String c r' =>
                          if Ascii.eqb c ","%char
                          then parseMembers fuel r' (defineProp key v acc)
                          else if Ascii.eqb c "}"%char
                          then Some (JObj (defineProp key v acc), r')
                          else None
                      | EmptyString => None
                      end
                  | None => None
                  end
              | _ => None
              end
          | None => None
          end
      | EmptyString => None
      end
  end.

(** A JSON text written with apostrophes in place of double quotes. *)
Fixpoint jsonText (s : string) : string :=
  match s with
  | EmptyString => EmptyString
  | String c rest => String (if Ascii.eqb c "'"%char then quote else c) (jsonText rest)
  end.

Definition JSON_parse (text : string) : option JsonValue :=
  match parseValue (2 * String.length text + 2) text with
  | Some (v, rest) =>
      match skipWs rest with
      | EmptyString => Some v
      | String _ _ => None
      end
  | None => None
  end.

End Parse.

(** ** The store layer

    Objects and arrays live in a heap and are reached through
    references, so that two values may share structure and an
    assignment is seen through every alias, as in the source. *)

Module Store.

Definition loc := nat.

(** A value: a primitive, or a reference to an object or array. *)
Inductive Value : Type :=
| VNull
| VBool (b : bool)
| VNum (x : Number)
| VStr (s : string)
| VRef (l : loc).

Inductive Object : Type :=
| OArr (elems : list Value)
| OObj (props : list (string * Value)).

(** The heap: the object at location [l] is the [l]-th one allocated. *)
Abbreviation Heap := (list Object).

Abbreviation JsValue := (option Value).

(** Computations that read and write the heap and may throw.  The
    heap reached when an exception is thrown is kept. *)
Definition M (A : Type) : Type := Heap -> Heap * result A.

Definition ret {A : Type} (a : A) : M A := fun h => (h, Ok a).

Definition throw {A : Type} (e : exn) : M A := fun h => (h, Throw e).

Definition bindM {A B : Type} (m : M A) (k : A -> M B) : M B :=
  fun h =>
    match m h with
    | (h', Ok a) => k a h'
    | (h', Throw e) => (h', Throw e)
    end.

Notation "x <-- m ;; k" := (bindM m (fun x => k))
  (at level 100, m at next level, right associativity).

(** Allocation of the literals [[]] and [{}]. *)
Definition alloc (o : Object) : M Value :=
  fun h => (h ++ [o], Ok (VRef (length h))).

(** The read [x.k]. *)
Definition getProp (x : JsValue) (k : string) : M JsValue :=
  fun h =>
    match x with
    | None => (h, Throw (ThrowTypeError (CannotReadUndefined k)))
    | Some VNull => (h, Throw (ThrowTypeError (CannotReadNull k)))
    | Some (VRef l) =>
        match h !! l with
        | Some (OObj props) => (h, Ok (lookupProp k props))
        | _ => (h, Ok None)
        end
    | Some _ => (h, Ok None)
    end.

(** The read [x[i]] of an array element. *)
Definition getIndex (x : JsValue) (i : nat) : M JsValue :=
  fun h =>
    match x with
    | Some (VRef l) =>
        match h !! l with
        | Some (OArr elems) => (h, Ok (elems !! i))
        | _ => (h, Ok None)
        end
    | _ => (h, Ok None)
    end.

(** The assignment [x.k = v]: the object [x] refers to is updated in
    place.  As in the value layer, a primitive target throws and an
    array target keeps its content. *)
Definition setProp (x : JsValue) (k : string) (v : Value) : M unit :=
  fun h =>
    match x with
    | None => (h, Throw (ThrowTypeError (CannotSetProperty k)))
    | Some VNull => (h, Throw (ThrowTypeError (CannotSetProperty k)))
    | Some (VRef l) =>
        match h !! l with
        | Some (OObj props) => (<[l := OObj (putProp k v props)]> h, Ok tt)
        | _ => (h, Ok tt)
        end
    | Some _ => (h, Throw (ThrowTypeError (CannotCreateProperty k)))
    end.

Definition truthy (x : JsValue) : bool :=
  match x with
  | None => false
  | Some VNull => false
  | Some (VBool b) => b
  | Some (VNum x) => negb (zeroOrNaN x)
  | Some (VStr s) => negb (String.eqb s EmptyString)
  | Some (VRef _) => true
  end.

Definition isNull (x : JsValue) : bool :=
  match x with Some VNull => true | _ => false end.

Definition isUndefined (x : JsValue) : bool :=
  match x with None => true | _ => false end.

(** [Array.isArray(x)] *)
Definition Array_isArray (x : JsValue) : M bool :=
  fun h =>
    match x with
    | Some (VRef l) =>
        match h !! l with
        | Some (OArr _) => (h, Ok true)
        | _ => (h, Ok false)
        end
    | _ => (h, Ok false)
    end.

(** [x.length] of an array. *)
Definition arrayLength (x : JsValue) : M nat :=
  fun h =>
    match x with
    | Some (VRef l) =>
        match h !! l with
        | Some (OArr elems) => (h, Ok (length elems))
        | _ => (h, Ok 0%nat)
        end
    | _ => (h, Ok 0%nat)
    end.

(** The JSON tree a value denotes in a heap, read to a depth of
    [fuel] references; [None] when the depth is exceeded. *)
Fixpoint readBack (fuel : nat) (h : Heap) (v : Value) : option JsonValue :=
  match fuel with
  | O => None
  | S fuel =>
      match v with
      | VNull => Some JNull
      | VBool b => Some (JBool b)
      | VNum x => Some (JNum x)
      | VStr s => Some (JStr s)
      | VRef l =>
          match h !! l with
          | Some (OArr elems) =>
              option_map JArr (mapM (readBack fuel h) elems)
          | Some (OObj props) =>
              option_map JObj
                (mapM (fun kv => option_map (pair (fst kv)) (readBack fuel h (snd kv)))
                      props)
          | None => None
          end
      end
  end.

(** [JSON.stringify(x)], with the serialised text given as the tree
    it describes: the tree [x] denotes, with the numbers as the text
    has them ([JSON_roundtrip]).  A chain of references longer than the
    heap has objects goes through some object twice: the structure is
    circular, and [JSON.stringify] throws. *)
Definition JSON_stringify (x : Value) : M JsonValue :=
  fun h =>
    match readBack (S (length h)) h x with
    | Some tree => (h, Ok (JSON_roundtrip tree))
    | None => (h, Throw (ThrowTypeError CircularStructure))
    end.

(** Building a list of members one after the other, threading the
    heap. *)
Fixpoint buildAll {A B : Type} (f : A -> Heap -> Heap * B) (l : list A) (h : Heap)
  : Heap * list B :=
  match l with
  | [] => (h, [])
  | a :: l' =>
      let '(h1, b) := f a h in
      let '(h2, bs) := buildAll f l' h1 in
      (h2, b :: bs)
  end.

(** Building the value of a property, keeping its name. *)
Definition buildProp (build : JsonValue -> Heap -> Heap * Value)
    (kd : string * JsonValue) (h : Heap) : Heap * (string * Value) :=
  let '(h', v) := build (snd kd) h in (h', (fst kd, v)).

(** [JSON.parse(text)]: the tree is built from fresh objects, the
    members of an object or array before the object itself. *)
Fixpoint build (text : JsonValue) (h : Heap) : Heap * Value :=
  match text with
  | JNull => (h, VNull)
  | JBool b => (h, VBool b)
  | JNum x => (h, VNum x)
  | JStr s => (h, VStr s)
  | JArr elems =>
      let '(h1, vs) := buildAll build elems h in
      (h1 ++ [OArr vs], VRef (length h1))
  | JObj props =>
      let '(h1, ps) := buildAll (buildProp build) props h in
      (h1 ++ [OObj ps], VRef (length h1))
  end.

Definition JSON_parse (text : JsonValue) : M Value :=
  fun h => let '(h', v) := build text h in (h', Ok v).

(** [if (choice.message.k === null) { choice.message.k = <literal> }],
    with the literal given as the object to allocate.
    [choice.message] is read again at each use, as the source does. *)
Definition coerceNull (choice : JsValue) (k : string) (literal : Object) : M unit :=
  m <-- getProp choice "message" ;;
  x <-- getProp m k ;;
  if isNull x then
    m <-- getProp choice "message" ;;
    a <-- alloc literal ;;
    setProp m k a
  else ret tt.

(** [if (choice.message.k === null || choice.message.k === undefined)
    { choice.message.k = <literal> }] *)
Definition coerceNullOrUndefined (choice : JsValue) (k : string) (literal : Object)
  : M unit :=
  m <-- getProp choice "message" ;;
  x <-- getProp m k ;;
  if isNull x then
    m <-- getProp choice "message" ;;
    a <-- alloc literal ;;
    setProp m k a
  else
    m <-- getProp choice "message" ;;
    x <-- getProp m k ;;
    if isUndefined x then
      m <-- getProp choice "message" ;;
      a <-- alloc literal ;;
      setProp m k a
    else ret tt.

(** Lines 169-182, on [choice.message]. *)
Definition coerceMessage (choice : JsValue) : M unit :=
  _ <-- coerceNull choice "tool_calls" (OArr []) ;;
  _ <-- coerceNull choice "function_call" (OObj []) ;;
  coerceNullOrUndefined choice "annotations" (OArr []).

(** Lines 168-189: the test on [choice.message] and what follows. *)
Definition formatChoiceBody (strictMode : bool) (itemIndex : nat) (i : nat)
    (choice : JsValue) : M unit :=
  message <-- getProp choice "message" ;;
  if truthy message then coerceMessage choice
  else if strictMode then
    throw (ThrowNodeOperationError (MissingMessageError i itemIndex))
  else ret tt.

(** Lines 166-189: the body of the loop at index [i]. *)
Definition formatChoice (strictMode : bool) (itemIndex : nat) (i : nat)
    (clonedData : Value) : M unit :=
  choices <-- getProp (Some clonedData) "choices" ;;
  choice <-- getIndex choices i ;;
  formatChoiceBody strictMode itemIndex i choice.

(** Lines 165-190: the iterations from index [i] on, [n] of them. *)
Fixpoint formatChoices (strictMode : bool) (itemIndex : nat) (n i : nat)
    (clonedData : Value) : M unit :=
  match n with
  | O => ret tt
  | S n =>
      _ <-- formatChoice strictMode itemIndex i clonedData ;;
      formatChoices strictMode itemIndex n (S i) clonedData
  end.

(** Lines 163-199: what is done to the clone. *)
Definition formatCloned (clonedData : Value) (strictMode : bool)
    (itemIndex : nat) : M Value :=
  choices <-- getProp (Some clonedData) "choices" ;;
  isArray <-- Array_isArray choices ;;
  if truthy choices && isArray then
    n <-- arrayLength choices ;;
    _ <-- formatChoices strictMode itemIndex n 0 clonedData ;;
    ret clonedData
  else if strictMode then
    throw (ThrowNodeOperationError (InvalidStructureError itemIndex))
  else ret clonedData.

Definition formatLiteLLMResponse (data : Value) (strictMode : bool)
    (itemIndex : nat) : M Value :=
  text <-- JSON_stringify data ;;
  clonedData <-- JSON_parse text ;;
  formatCloned clonedData strictMode itemIndex.

(** A value that is not a reference to an object older than [n]. *)
Definition freshValue (n : nat) (v : Value) : bool :=
  match v with
  | VRef l => (n <=? l)%nat
  | _ => true
  end.

(** An object all of whose members are fresh from [n]. *)
Definition freshObject (n : nat) (o : Object) : bool :=
  match o with
  | OArr elems => forallb (freshValue n) elems
  | OObj props => forallb (fun kv => freshValue n (snd kv)) props
  end.

Definition freshJs (n : nat) (x : JsValue) : bool :=
  match x with
  | Some v => freshValue n v
  | None => true
  end.

(** [h] is the heap [h0] as it was, followed by objects that refer to
    no object of [h0]. *)
Definition extends (h0 h : Heap) : Prop :=
  exists ext, h = h0 ++ ext /\ Forall (fun o => freshObject (length h0) o = true) ext.

(** A computation that, run from an extension of [h0], ends in an
    extension of [h0], whether it returns or throws, and returns a
    value satisfying [Q]. *)
Definition keeps (h0 : Heap) {A : Type} (m : M A) (Q : A -> Prop) : Prop :=
  forall h, extends h0 h ->
    extends h0 (fst (m h)) /\ forall a, snd (m h) = Ok a -> Q a.

(** *** Trees in the heap

    [rep P h t v lo hi]: in the heap [h] the value [v] stands for the
    JSON tree [t], whose objects were laid out by [build] at the
    locations from [lo] to [hi], members first; an empty array or
    object of [t] may instead be one allocated later, at a location in
    [P]. *)

(** Members laid out one after the other from [lo] to [hi]. *)
Fixpoint repAll {A B : Type} (R : A -> B -> nat -> nat -> Prop)
    (ts : list A) (vs : list B) (lo hi : nat) : Prop :=
  match ts, vs with
  | [], [] => lo = hi
  | t :: ts', v :: vs' => exists mid, R t v lo mid /\ repAll R ts' vs' mid hi
  | _, _ => False
  end.

(** A relation that only holds on intervals. *)
Definition ordered {A B : Type} (R : A -> B -> nat -> nat -> Prop) (t : A) : Prop :=
  forall v a b, R t v a b -> (a <= b)%nat.

(** A property and its value, under the same name. *)
Definition keyed (R : JsonValue -> Value -> nat -> nat -> Prop)
    (kt : string * JsonValue) (kv : string * Value) (lo hi : nat) : Prop :=
  fst kt = fst kv /\ R (snd kt) (snd kv) lo hi.

Fixpoint rep (P : loc -> Prop) (h : Heap) (t : JsonValue) (v : Value) (lo hi : nat)
    {struct t} : Prop :=
  match t with
  | JNull => v = VNull /\ lo = hi
  | JBool b => v = VBool b /\ lo = hi
  | JNum x => v = VNum x /\ lo = hi
  | JStr s => v = VStr s /\ lo = hi
  | JArr ts =>
      exists l vs, v = VRef l /\ h !! l = Some (OArr vs) /\
        ((hi = S l /\ repAll (rep P h) ts vs lo l) \/
         (P l /\ ts = [] /\ vs = [] /\ lo = hi))
  | JObj kts =>
      exists l ps, v = VRef l /\ h !! l = Some (OObj ps) /\
        ((hi = S l /\
          repAll (keyed (rep P h)) kts ps lo l) \/
         (P l /\ kts = [] /\ ps = [] /\ lo = hi))
  end.

(** What a property read gives in the tree and in the heap. *)
Definition repOpt (R : JsonValue -> Value -> nat -> nat -> Prop)
    (ot : option JsonValue) (ov : option Value) (lo hi : nat) : Prop :=
  match ot, ov with
  | None, None => True
  | Some t, Some v => exists a b, (lo <= a)%nat /\ (b <= hi)%nat /\ R t v a b
  | _, _ => False
  end.

(** From [h] to [h']: objects were added, and of the objects of [h]
    only those at the locations from [lo] to [hi] may have changed. *)
Definition changes (h h' : Heap) (lo hi : nat) : Prop :=
  (length h <= length h')%nat /\
  forall l, (l < length h)%nat -> ~ (lo <= l < hi)%nat -> h' !! l = h !! l.

(** The locations allocated once the heap had [N] objects. *)
Definition allocatedFrom (N : nat) (l : loc) : Prop := (N <= l)%nat.

(** The tree of the literal [[]] or [{}]. *)
Definition literalTree (o : Object) : JsonValue :=
  match o with
  | OArr _ => JArr []
  | OObj _ => JObj []
  end.

(** While the message object at [lm] of the choice at [lc] is being
    coerced: in the heap [g], reached from [h], the choice is as it
    was, the message has the properties [mp] and stands for the tree
    [m], and nothing else of [h] has changed. *)
Definition msgInv (N : nat) (h : Heap) (lc lm a : loc) (cp : list (string * Value))
    (g : Heap) (mp : list (string * Value)) (m : list (string * JsonValue)) : Prop :=
  g !! lc = Some (OObj cp) /\
  g !! lm = Some (OObj mp) /\
  repAll (keyed (rep (allocatedFrom N) g)) m mp a lm /\
  changes h g lm (S lm) /\
  (N <= length g)%nat.

End Store.

(** ** Vocabulary of the properties *)

(** [d.choices], [undefined] when [d] is not an object. *)
Definition choicesOf (d : JsonValue) : JsValue :=
  match d with
  | JObj props => lookupProp "choices" props
  | _ => None
  end.

(** [c.message], [undefined] when [c] is not an object. *)
Definition messageOf (c : JsonValue) : JsValue :=
  match c with
  | JObj props => lookupProp "message" props
  | _ => None
  end.

(** [d.choices[i]] *)
Definition choiceAt (d : JsonValue) (i : nat) : JsValue :=
  match choicesOf d with
  | Some (JArr choices) => choices !! i
  | _ => None
  end.

(** [d.choices[i].message] *)
Definition messageAt (d : JsonValue) (i : nat) : JsValue :=
  match choiceAt d i with
  | Some c => messageOf c
  | None => None
  end.

(** The property list of a message object after the three coercions. *)
Definition coerceProps (m : list (string * JsonValue)) : list (string * JsonValue) :=
  let m1 := if isNull (lookupProp "tool_calls" m)
            then putProp "tool_calls" (JArr []) m else m in
  let m2 := if isNull (lookupProp "function_call" m1)
            then putProp "function_call" (JObj []) m1 else m1 in
  if isNull (lookupProp "annotations" m2) || isUndefined (lookupProp "annotations" m2)
  then putProp "annotations" (JArr []) m2 else m2.

(** The scenario of the specification: the record, the document the
    specification expects, and the document the node produces. *)
Definition scenarioText : string :=
  Parse.jsonText "{'choices':[{'message':{'tool_calls':null,'annotations':null}}]}".

Definition scenarioItem : INodeExecutionData :=
  {| json := [("data", JStr scenarioText)]; binary := None; pairedItem := None |}.

Definition documentOf (message : list (string * JsonValue)) : JsonValue :=
  JObj [("choices", JArr [JObj [("message", JObj message)]])].

Definition itemOf (data : JsonValue) : INodeExecutionData :=
  {| json := [("data", data)]; binary := None; pairedItem := None |}.

(** A choice whose [message] is an object or an array: the shape on
    which the coercions go through. *)
Definition hasMessageObject (c : JsonValue) : bool :=
  match messageOf c with
  | Some (JObj _) => true
  | Some (JArr _) => true
  | _ => false
  end.

(** A choice that the loop passes without a [TypeError]: it is not
    [null], and its [message] is falsy, an object or an array. *)
Definition passableChoice (c : JsonValue) : bool :=
  match c with
  | JNull => false
  | _ => negb (truthy (messageOf c)) || hasMessageObject c
  end.

(** The document with a [null] among its choices, and its text. *)
Definition nullChoiceDocument : JsonValue :=
  JObj [("choices", JArr [JNull; JObj []])].

Definition nullChoiceText : string := Parse.jsonText "{'choices':[null,{}]}".

(** A record whose lineage is given as the number [0]. *)
Definition pairedZeroItem : INodeExecutionData :=
  {| json := [("data", JObj [("choices", JArr [])])];
     binary := None;
     pairedItem := Some (PairedIndex 0) |}.

(** A heap in which the two choices of a document are one and the
    same object. *)
Definition aliasHeap : list Store.Object :=
  [Store.OObj [("tool_calls", Store.VNull)];
   Store.OObj [("message", Store.VRef 0)];
   Store.OArr [Store.VRef 1; Store.VRef 1];
   Store.OObj [("choices", Store.VRef 2)]].

(** A heap with an object that contains itself. *)
Definition circularHeap : list Store.Object :=
  [Store.OObj [("self", Store.VRef 0)]].

(** The record index a [NodeOperationError] carries in its options. *)
Definition itemIndexOf (e : NodeOperationError) : nat :=
  match e with
  | MissingFieldError _ i => i
  | ParseError _ i => i
  | InvalidStructureError i => i
  | MissingMessageError _ i => i
  | UnexpectedError i _ => i
  end.

(** [x.k], [undefined] when [x] is not an object. *)
Definition propOf (x : JsonValue) (k : string) : JsValue :=
  match x with
  | JObj props => lookupProp k props
  | _ => None
  end.


(** A record on which the lenient node stops before the normaliser:
    what it reads under the input field is falsy (line 86), or is a
    string that does not parse (line 102).  A record that has no such
    own property but inherits a member of that name is not one. *)
Definition nothingToNormalise (parse : string -> option JsonValue) (inputField : string)
    (item : INodeExecutionData) : bool :=
  match lookupProp inputField (json item), Object_prototype inputField with
  | None, Some _ => false
  | inputData, _ =>
      negb (truthy inputData) ||
      (isString inputData &&
       match parse (stringOf inputData) with Some _ => false | None => true end)
  end.

(** The copy of the properties of an object. *)
Definition roundtripProps (m : list (string * JsonValue)) : list (string * JsonValue) :=
  List.map (fun kv => (fst kv, JSON_roundtrip (snd kv))) m.

(** A value that the copy holds as [null]: [null] itself, or a number
    that JSON cannot write. *)
Definition writtenAsNull (v : JsonValue) : bool :=
  match v with
  | JNull => true
  | JNum S754_nan => true
  | JNum (S754_infinity _) => true
  | _ => false
  end.

(** A value that the copy leaves as it is: every number in it is
    finite, and no zero is negative. *)
Fixpoint plain (d : JsonValue) : bool :=
  match d with
  | JNum (S754_finite _ _ _) => true
  | JNum (S754_zero s) => negb s
  | JNum _ => false
  | JArr elems => forallb plain elems
  | JObj props => forallb (fun kv => plain (snd kv)) props
  | _ => true
  end.

(** The numbers [0] and [Infinity]. *)
Definition zero : Number := S754_zero false.
Definition infinity : Number := S754_infinity false.



(** * Properties *)

(** ** Induction on JSON values *)

Section JsonInduction.

Variable P : JsonValue -> Prop.
Hypothesis Hnull : P JNull.
Hypothesis Hbool : forall b, P (JBool b).
Hypothesis Hnum : forall x, P (JNum x).
Hypothesis Hstr : forall s, P (JStr s).
Hypothesis Harr : forall elems, Forall P elems -> P (JArr elems).
Hypothesis Hobj : forall props, Forall (fun kv => P (snd kv)) props -> P (JObj props).

Fixpoint JsonValue_ind (d : JsonValue) : P d :=
  match d with
  | JNull => Hnull
  | JBool b => Hbool b
  | JNum x => Hnum x
  | JStr s => Hstr s
  | JArr elems =>
      Harr elems
        ((fix all (l : list JsonValue) : Forall P l :=
            match l with
            | [] => @List.Forall_nil _ P
            | x :: l' => @List.Forall_cons _ P x l' (JsonValue_ind x) (all l')
            end) elems)
  | JObj props =>
      Hobj props
        ((fix all (l : list (string * JsonValue)) : Forall (fun kv => P (snd kv)) l :=
            match l with
            | [] => @List.Forall_nil _ _
            | kv :: l' => @List.Forall_cons _ _ kv l' (JsonValue_ind (snd kv)) (all l')
            end) props)
  end.

End JsonInduction.

(** ** The copy *)

Lemma JSON_roundtrip_object m : JSON_roundtrip (JObj m) = JObj (roundtripProps m).
Proof. reflexivity. Qed.

(** The copy is exact on plain values. *)
Lemma JSON_roundtrip_plain (d : JsonValue) : plain d = true -> JSON_roundtrip d = d.
Proof.
  induction d as [|b|x|s|elems IH|props IH] using JsonValue_ind; simpl; try reflexivity.
  - destruct x as [[]| | |]; simpl; by try discriminate.
  - intros Hp. f_equal. induction IH as [|y l Hy _ IHl]; simpl in *; [reflexivity|].
    apply andb_prop in Hp as [H1 H2]. by rewrite Hy, IHl.
  - intros Hp. f_equal. induction IH as [|[k v] l Hy _ IHl]; simpl in *; [reflexivity|].
    apply andb_prop in Hp as [H1 H2]. by rewrite Hy, IHl.
Qed.

(** A copy is plain: copying it again changes nothing. *)
Lemma plain_JSON_roundtrip (d : JsonValue) : plain (JSON_roundtrip d) = true.
Proof.
  induction d as [|b|x|s|elems IH|props IH] using JsonValue_ind; simpl; try reflexivity.
  - by destruct x.
  - induction IH as [|y l Hy _ IHl]; simpl; [reflexivity|]. by rewrite Hy, IHl.
  - induction IH as [|[k v] l Hy _ IHl]; simpl in *; [reflexivity|]. by rewrite Hy, IHl.
Qed.

Lemma JSON_roundtrip_idempotent (d : JsonValue) :
  JSON_roundtrip (JSON_roundtrip d) = JSON_roundtrip d.
Proof. apply JSON_roundtrip_plain, plain_JSON_roundtrip. Qed.

(** The copy is [null] for [null] and for the numbers JSON cannot
    write, and for nothing else. *)
Lemma JSON_roundtrip_null (v : JsonValue) :
  JSON_roundtrip v = JNull <-> writtenAsNull v = true.
Proof. destruct v as [|b|[]|s|elems|props]; simpl; split; by try discriminate. Qed.

Lemma writtenAsNull_false (v : JsonValue) :
  writtenAsNull v = false <-> JSON_roundtrip v <> JNull.
Proof.
  rewrite JSON_roundtrip_null. destruct (writtenAsNull v); split; congruence.
Qed.

(** What is an array stays one, and nothing else becomes one; the same
    for objects and for strings. *)
Lemma JSON_roundtrip_array (v : JsonValue) elems :
  JSON_roundtrip v = JArr elems ->
  exists elems0, v = JArr elems0 /\ elems = List.map JSON_roundtrip elems0.
Proof.
  destruct v as [|b|[]|s|elems0|props]; simpl; try discriminate.
  intros [= <-]. by eexists.
Qed.


Lemma Array_isArray_roundtrip (x : JsValue) :
  Array_isArray (option_map JSON_roundtrip x) = Array_isArray x.
Proof. by destruct x as [[|b|[]|s|elems|props]|]. Qed.

Lemma elements_roundtrip (x : JsValue) :
  elements (option_map JSON_roundtrip x) = List.map JSON_roundtrip (elements x).
Proof. by destruct x as [[|b|[]|s|elems|props]|]. Qed.

(** The properties of the copy are the copies of the properties. *)
Lemma lookupProp_roundtripProps k m :
  lookupProp k (roundtripProps m) = option_map JSON_roundtrip (lookupProp k m).
Proof.
  induction m as [|[k' v] m IH]; simpl; [reflexivity|].
  by destruct (String.eqb k k').
Qed.

Lemma propOf_roundtrip (x : JsonValue) k :
  propOf (JSON_roundtrip x) k = option_map JSON_roundtrip (propOf x k).
Proof.
  destruct x as [|b|[]|s|elems|props]; simpl; try reflexivity.
  apply lookupProp_roundtripProps.
Qed.

Lemma choicesOf_roundtrip (d : JsonValue) :
  choicesOf (JSON_roundtrip d) = option_map JSON_roundtrip (choicesOf d).
Proof. apply (propOf_roundtrip d "choices"). Qed.

Lemma messageOf_roundtrip (c : JsonValue) :
  messageOf (JSON_roundtrip c) = option_map JSON_roundtrip (messageOf c).
Proof. apply (propOf_roundtrip c "message"). Qed.

Lemma choiceAt_roundtrip (d : JsonValue) i :
  choiceAt (JSON_roundtrip d) i = option_map JSON_roundtrip (choiceAt d i).
Proof.
  unfold choiceAt. rewrite choicesOf_roundtrip.
  destruct (choicesOf d) as [[|b|[]|s|elems|props]|]; simpl; try reflexivity.
  by rewrite list_lookup_fmap.
Qed.

Lemma messageAt_roundtrip (d : JsonValue) i :
  messageAt (JSON_roundtrip d) i = option_map JSON_roundtrip (messageAt d i).
Proof.
  unfold messageAt. rewrite choiceAt_roundtrip.
  destruct (choiceAt d i) as [c|]; simpl; [apply messageOf_roundtrip | reflexivity].
Qed.

Lemma hasMessageObject_roundtrip (c : JsonValue) :
  hasMessageObject (JSON_roundtrip c) = hasMessageObject c.
Proof.
  unfold hasMessageObject. rewrite messageOf_roundtrip.
  by destruct (messageOf c) as [[|b|[]|s|elems|props]|].
Qed.

Lemma forallb_hasMessageObject_roundtrip (cs : list JsonValue) :
  forallb hasMessageObject (List.map JSON_roundtrip cs) = forallb hasMessageObject cs.
Proof.
  induction cs as [|c cs IH]; simpl; [reflexivity|].
  by rewrite hasMessageObject_roundtrip, IH.
Qed.

(** The test [=== null] on a property of the copy. *)
Lemma isNull_roundtripProps k m :
  isNull (lookupProp k (roundtripProps m)) =
  match lookupProp k m with Some v => writtenAsNull v | None => false end.
Proof.
  rewrite lookupProp_roundtripProps.
  by destruct (lookupProp k m) as [[|b|[]|s|elems|props]|].
Qed.

(** ** Property lists *)

Section PropLists.

Context {V : Type}.
Implicit Types (k : string) (v : V) (m : list (string * V)).

Lemma lookupProp_putProp_eq k v m : lookupProp k (putProp k v m) = Some v.
Proof.
  induction m as [|[k' v'] m IH]; simpl.
  - by rewrite String.eqb_refl.
  - destruct (String.eqb k k') eqn:E; simpl; rewrite E; [reflexivity | exact IH].
Qed.

Lemma lookupProp_putProp_ne k k' v m :
  k <> k' -> lookupProp k' (putProp k v m) = lookupProp k' m.
Proof.
  intros Hne. induction m as [|[k0 v0] m IH]; simpl.
  - destruct (String.eqb k' k) eqn:E; [|reflexivity].
    apply String.eqb_eq in E. congruence.
  - destruct (String.eqb k k0) eqn:E; simpl.
    + apply String.eqb_eq in E. subst k0.
      destruct (String.eqb k' k) eqn:E'; [|reflexivity].
      apply String.eqb_eq in E'. congruence.
    + by rewrite IH.
Qed.

(** Writing back the value a property already has changes nothing. *)
Lemma putProp_same k v m : lookupProp k m = Some v -> putProp k v m = m.
Proof.
  induction m as [|[k' v'] m IH]; simpl; [discriminate|].
  destruct (String.eqb k k') eqn:E.
  - intros [= ->]. reflexivity.
  - intros H. by rewrite IH.
Qed.

Lemma putProp_putProp k v v' m : putProp k v (putProp k v' m) = putProp k v m.
Proof.
  induction m as [|[k0 v0] m IH]; simpl.
  - by rewrite String.eqb_refl.
  - destruct (String.eqb k k0) eqn:E; simpl; rewrite E; [reflexivity|].
    by rewrite IH.
Qed.

Lemma lookupProp_insertIndexed_eq n k v m :
  lookupProp k m = None -> lookupProp k (insertIndexed n (k, v) m) = Some v.
Proof.
  induction m as [|[k' v'] m IH]; simpl.
  - by rewrite String.eqb_refl.
  - destruct (String.eqb k k') eqn:E; [discriminate|]. intros H.
    destruct (arrayIndex k') as [n'|]; [destruct (n' <? n)%N|]; simpl;
      rewrite ?E, ?String.eqb_refl; [by apply IH | reflexivity | reflexivity].
Qed.

Lemma lookupProp_insertIndexed_ne n k k' v m :
  k <> k' -> lookupProp k' (insertIndexed n (k, v) m) = lookupProp k' m.
Proof.
  intros Hne.
  assert (E : String.eqb k' k = false) by (apply String.eqb_neq; congruence).
  induction m as [|[k0 v0] m IH]; simpl.
  - by rewrite E.
  - destruct (arrayIndex k0) as [n'|]; [destruct (n' <? n)%N|]; simpl;
      rewrite ?E; [by rewrite IH | reflexivity | reflexivity].
Qed.

Lemma lookupProp_defineProp_eq k v m : lookupProp k (defineProp k v m) = Some v.
Proof.
  unfold defineProp.
  destruct (arrayIndex k) as [n|]; [|apply lookupProp_putProp_eq].
  destruct (lookupProp k m) eqn:E; [apply lookupProp_putProp_eq|].
  by apply lookupProp_insertIndexed_eq.
Qed.

Lemma lookupProp_defineProp_ne k k' v m :
  k <> k' -> lookupProp k' (defineProp k v m) = lookupProp k' m.
Proof.
  intros Hne. unfold defineProp.
  destruct (arrayIndex k) as [n|]; [|by apply lookupProp_putProp_ne].
  destruct (lookupProp k m); [by apply lookupProp_putProp_ne|].
  by apply lookupProp_insertIndexed_ne.
Qed.

End PropLists.


(** ** The coercions on one message *)

Lemma coerceMessage_object (m : list (string * JsonValue)) :
  coerceMessage (JObj m) = Ok (JObj (coerceProps m)).
Proof.
  unfold coerceMessage, coerceProps. simpl.
  destruct (isNull (lookupProp "tool_calls" m)); simpl;
    match goal with
    | |- context [isNull (lookupProp "function_call" ?x)] =>
        destruct (isNull (lookupProp "function_call" x)); simpl
    end;
    match goal with
    | |- context [isNull (lookupProp "annotations" ?x)] =>
        destruct (isNull (lookupProp "annotations" x) ||
                  isUndefined (lookupProp "annotations" x)); reflexivity
    end.
Qed.

(** A message that is an array keeps its content. *)
Lemma coerceMessage_array (elems : list JsonValue) :
  coerceMessage (JArr elems) = Ok (JArr elems).
Proof. reflexivity. Qed.

(** A truthy message that is not an object or an array makes the
    assignment of [annotations] throw. *)
Lemma coerceMessage_primitive (m : JsonValue) :
  truthy (Some m) = true ->
  (forall props, m <> JObj props) -> (forall elems, m <> JArr elems) ->
  coerceMessage m = Throw (ThrowTypeError (CannotCreateProperty "annotations")).
Proof.
  intros Ht Ho Ha. destruct m; try discriminate; try reflexivity.
  - exfalso. by eapply Ha.
  - exfalso. by eapply Ho.
Qed.

Lemma coerceProps_tool_calls (m : list (string * JsonValue)) :
  lookupProp "tool_calls" (coerceProps m) =
  if isNull (lookupProp "tool_calls" m) then Some (JArr [])
  else lookupProp "tool_calls" m.
Proof.
  unfold coerceProps.
  set (m1 := if isNull (lookupProp "tool_calls" m) then _ else m).
  set (m2 := if isNull (lookupProp "function_call" m1) then _ else m1).
  assert (H1 : lookupProp "tool_calls" m1 =
               if isNull (lookupProp "tool_calls" m) then Some (JArr [])
               else lookupProp "tool_calls" m).
  { subst m1. destruct (isNull (lookupProp "tool_calls" m)); [|reflexivity].
    apply lookupProp_putProp_eq. }
  assert (H2 : lookupProp "tool_calls" m2 = lookupProp "tool_calls" m1).
  { subst m2. destruct (isNull (lookupProp "function_call" m1)); [|reflexivity].
    by apply lookupProp_putProp_ne. }
  destruct (isNull (lookupProp "annotations" m2) || isUndefined (lookupProp "annotations" m2)).
  - rewrite lookupProp_putProp_ne by discriminate. congruence.
  - congruence.
Qed.

Lemma coerceProps_function_call (m : list (string * JsonValue)) :
  lookupProp "function_call" (coerceProps m) =
  if isNull (lookupProp "function_call" m) then Some (JObj [])
  else lookupProp "function_call" m.
Proof.
  unfold coerceProps.
  set (m1 := if isNull (lookupProp "tool_calls" m) then _ else m).
  set (m2 := if isNull (lookupProp "function_call" m1) then _ else m1).
  assert (H1 : lookupProp "function_call" m1 = lookupProp "function_call" m).
  { subst m1. destruct (isNull (lookupProp "tool_calls" m)); [|reflexivity].
    by apply lookupProp_putProp_ne. }
  assert (H2 : lookupProp "function_call" m2 =
               if isNull (lookupProp "function_call" m) then Some (JObj [])
               else lookupProp "function_call" m).
  { subst m2. rewrite H1.
    destruct (isNull (lookupProp "function_call" m)); [|exact H1].
    apply lookupProp_putProp_eq. }
  destruct (isNull (lookupProp "annotations" m2) || isUndefined (lookupProp "annotations" m2)).
  - rewrite lookupProp_putProp_ne by discriminate. exact H2.
  - exact H2.
Qed.

Lemma coerceProps_annotations (m : list (string * JsonValue)) :
  lookupProp "annotations" (coerceProps m) =
  if isNull (lookupProp "annotations" m) || isUndefined (lookupProp "annotations" m)
  then Some (JArr [])
  else lookupProp "annotations" m.
Proof.
  unfold coerceProps.
  set (m1 := if isNull (lookupProp "tool_calls" m) then _ else m).
  set (m2 := if isNull (lookupProp "function_call" m1) then _ else m1).
  assert (H1 : lookupProp "annotations" m1 = lookupProp "annotations" m).
  { subst m1. destruct (isNull (lookupProp "tool_calls" m)); [|reflexivity].
    by apply lookupProp_putProp_ne. }
  assert (H2 : lookupProp "annotations" m2 = lookupProp "annotations" m).
  { subst m2. destruct (isNull (lookupProp "function_call" m1)); [|exact H1].
    by rewrite lookupProp_putProp_ne. }
  rewrite H2.
  destruct (isNull (lookupProp "annotations" m) || isUndefined (lookupProp "annotations" m)).
  - apply lookupProp_putProp_eq.
  - exact H2.
Qed.

(** Every other property of the message is left as it was. *)
Lemma coerceProps_other (k : string) (m : list (string * JsonValue)) :
  k <> "tool_calls" -> k <> "function_call" -> k <> "annotations" ->
  lookupProp k (coerceProps m) = lookupProp k m.
Proof.
  intros N1 N2 N3. unfold coerceProps.
  repeat match goal with
         | |- context [if ?b then _ else _] => destruct b
         end;
    repeat (rewrite lookupProp_putProp_ne by congruence); reflexivity.
Qed.

(** A coerced message needs no further coercion. *)
Lemma coerceProps_idempotent (m : list (string * JsonValue)) :
  coerceProps (coerceProps m) = coerceProps m.
Proof.
  pose proof (coerceProps_tool_calls m) as Ht.
  pose proof (coerceProps_function_call m) as Hf.
  pose proof (coerceProps_annotations m) as Ha.
  set (m' := coerceProps m) in *.
  assert (Et : isNull (lookupProp "tool_calls" m') = false).
  { rewrite Ht. destruct (isNull (lookupProp "tool_calls" m)) eqn:E; [reflexivity | exact E]. }
  assert (Ef : isNull (lookupProp "function_call" m') = false).
  { rewrite Hf. destruct (isNull (lookupProp "function_call" m)) eqn:E; [reflexivity | exact E]. }
  assert (Ea : isNull (lookupProp "annotations" m') || isUndefined (lookupProp "annotations" m') = false).
  { rewrite Ha.
    destruct (isNull (lookupProp "annotations" m) || isUndefined (lookupProp "annotations" m)) eqn:E;
      [reflexivity | exact E]. }
  unfold coerceProps at 1. rewrite Et. simpl. rewrite Ef. simpl. rewrite Ea. reflexivity.
Qed.

(** ** One choice and the loop over choices *)

Lemma formatChoice_object_message strict idx i cm m :
  lookupProp "message" cm = Some (JObj m) ->
  formatChoice strict idx i (JObj cm) =
  Ok (JObj (putProp "message" (JObj (coerceProps m)) cm)).
Proof.
  intros H. unfold formatChoice. simpl. rewrite H. simpl.
  by rewrite coerceMessage_object.
Qed.

(** A choice whose [message] is falsy: an error in strict mode, the
    choice as it is otherwise. *)
Lemma formatChoice_no_message strict idx i c :
  c <> JNull -> truthy (messageOf c) = false ->
  formatChoice strict idx i c =
  if strict then Throw (ThrowNodeOperationError (MissingMessageError i idx))
  else Ok c.
Proof.
  intros Hc Hm. unfold formatChoice.
  destruct c; try congruence; simpl in *; try reflexivity.
  by rewrite Hm.
Qed.

Lemma formatChoices_length strict idx i cs cs' :
  formatChoices strict idx i cs = Ok cs' -> length cs' = length cs.
Proof.
  revert i cs'. induction cs as [|c cs IH]; intros i cs'; simpl.
  - by intros [= <-].
  - destruct (formatChoice strict idx i c) as [c'|]; simpl; [|discriminate].
    destruct (formatChoices strict idx (S i) cs) as [rest|] eqn:E; simpl; [|discriminate].
    intros [= <-]. simpl. f_equal. by eapply IH.
Qed.

(** The [j]-th output choice is the [j]-th input choice, formatted at
    its own index. *)
Lemma formatChoices_lookup strict idx i cs cs' j c :
  formatChoices strict idx i cs = Ok cs' -> cs !! j = Some c ->
  exists c', cs' !! j = Some c' /\ formatChoice strict idx (i + j) c = Ok c'.
Proof.
  revert i cs' j. induction cs as [|c0 cs IH]; intros i cs' j; simpl.
  - intros _ H. discriminate H.
  - destruct (formatChoice strict idx i c0) as [c0'|] eqn:E0; simpl; [|discriminate].
    destruct (formatChoices strict idx (S i) cs) as [rest|] eqn:E; simpl; [|discriminate].
    intros [= <-] Hj. destruct j as [|j]; simpl in *.
    + injection Hj as ->. exists c0'. by rewrite Nat.add_0_r.
    + destruct (IH _ _ _ E Hj) as (c' & H1 & H2). exists c'.
      split; [exact H1|]. by replace (i + S j)%nat with (S i + j)%nat by lia.
Qed.

(** ** The whole document *)

(** First what is done to the clone, whatever it is. *)

Lemma format_with_choices d cs strict idx :
  choicesOf d = Some (JArr cs) ->
  formatCloned d strict idx =
  (cs' <- formatChoices strict idx 0 cs ;; Ok (withProp "choices" (JArr cs') d)).
Proof.
  intros H. unfold formatCloned.
  destruct d; try discriminate. simpl in *. by rewrite H.
Qed.

Lemma format_without_choices d strict idx :
  d <> JNull -> Array_isArray (choicesOf d) = false ->
  formatCloned d strict idx =
  if strict then Throw (ThrowNodeOperationError (InvalidStructureError idx))
  else Ok d.
Proof.
  intros Hd H. unfold formatCloned.
  destruct d; try congruence; simpl in *; try reflexivity.
  rewrite H. by rewrite andb_false_r.
Qed.

(** The message of every choice that has a message object is coerced
    in the result. *)
Lemma format_messageAt d strict idx r i m :
  formatCloned d strict idx = Ok r ->
  messageAt d i = Some (JObj m) ->
  messageAt r i = Some (JObj (coerceProps m)).
Proof.
  intros Hr Hm. unfold messageAt, choiceAt in Hm.
  destruct (choicesOf d) as [[| | | |cs|]|] eqn:Hc; try discriminate.
  destruct (cs !! i) as [c|] eqn:Hi; [|discriminate].
  destruct c as [| | | | |cm]; try discriminate. simpl in Hm.
  rewrite (format_with_choices _ _ _ _ Hc) in Hr.
  destruct (formatChoices strict idx 0 cs) as [cs'|] eqn:E; [|discriminate].
  simpl in Hr. injection Hr as <-.
  destruct (formatChoices_lookup _ _ _ _ _ _ _ E Hi) as (c' & Hi' & Hc').
  rewrite (formatChoice_object_message _ _ _ _ _ Hm) in Hc'. injection Hc' as <-.
  destruct d as [| | | | |dm]; try discriminate. simpl in *.
  unfold messageAt, choiceAt. simpl. rewrite lookupProp_putProp_eq, Hi'. simpl.
  apply lookupProp_putProp_eq.
Qed.

(** ** From the input to the result, through the copy *)

(** The message object of a choice is copied, then coerced. *)
Lemma format_messageAt_input d strict idx r i m :
  formatLiteLLMResponse d strict idx = Ok r ->
  messageAt d i = Some (JObj m) ->
  messageAt r i = Some (JObj (coerceProps (roundtripProps m))).
Proof.
  intros Hr Hm. apply (format_messageAt _ _ _ _ _ _ Hr).
  by rewrite messageAt_roundtrip, Hm.
Qed.


(** ** Null coercion of [tool_calls] and [function_call] *)




(** ** Coercion of [annotations] *)

(** C3.  Whenever the document is normalised, in either mode, every
    choice that has a message object has a message object in the
    result, whose [annotations] is the empty array when the input's
    [annotations] is absent or [null]; so it is when the input's is a
    number that JSON cannot write, and otherwise it is the copy of the
    input's value. *)
Theorem annotations_absent_or_null
    (d : JsonValue) (strict : bool) (idx : nat) (r : JsonValue)
    (i : nat) (m : list (string * JsonValue)) :
  formatLiteLLMResponse d strict idx = Ok r ->
  messageAt d i = Some (JObj m) ->
  exists m',
    messageAt r i = Some (JObj m') /\
    (lookupProp "annotations" m = None ->
     lookupProp "annotations" m' = Some (JArr [])) /\
    (lookupProp "annotations" m = Some JNull ->
     lookupProp "annotations" m' = Some (JArr [])) /\
    (forall v, lookupProp "annotations" m = Some v -> writtenAsNull v = true ->
     lookupProp "annotations" m' = Some (JArr [])) /\
    (forall v, lookupProp "annotations" m = Some v -> writtenAsNull v = false ->
     lookupProp "annotations" m' = Some (JSON_roundtrip v)).
Proof.
  intros Hr Hm. exists (coerceProps (roundtripProps m)).
  split; [by eapply format_messageAt_input|].
  rewrite coerceProps_annotations, isNull_roundtripProps, lookupProp_roundtripProps.
  repeat split.
  - by intros ->.
  - by intros ->.
  - by intros v -> ->.
  - intros v -> Hv. simpl. rewrite Hv. simpl.
    apply writtenAsNull_false in Hv. by destruct (JSON_roundtrip v).
Qed.

Lemma annotations_absent_or_null_witness :
  exists m',
    messageAt (documentOf [("annotations", JArr [])]) 0 = Some (JObj m') /\
    (lookupProp "annotations" (@nil (string * JsonValue)) = None ->
     lookupProp "annotations" m' = Some (JArr [])) /\
    (lookupProp "annotations" (@nil (string * JsonValue)) = Some JNull ->
     lookupProp "annotations" m' = Some (JArr [])) /\
    (forall v, lookupProp "annotations" (@nil (string * JsonValue)) = Some v ->
     writtenAsNull v = true -> lookupProp "annotations" m' = Some (JArr [])) /\
    (forall v, lookupProp "annotations" (@nil (string * JsonValue)) = Some v ->
     writtenAsNull v = false -> lookupProp "annotations" m' = Some (JSON_roundtrip v)).
Proof.
  apply (annotations_absent_or_null (documentOf []) false 0
           (documentOf [("annotations", JArr [])]) 0).
  - reflexivity.
  - reflexivity.
Defined.

(** The two examples of the specification for [annotations]. *)
Example annotations_examples :
  formatLiteLLMResponse (documentOf []) false 0
  = Ok (documentOf [("annotations", JArr [])]) /\
  formatLiteLLMResponse (documentOf [("annotations", JNull)]) false 0
  = Ok (documentOf [("annotations", JArr [])]).
Proof. split; reflexivity. Qed.

(** The examples of the specification for [tool_calls]: [null] becomes
    the empty array, an absent key is not introduced. *)
Example tool_calls_examples :
  formatLiteLLMResponse (documentOf [("tool_calls", JNull)]) false 0
  = Ok (documentOf [("tool_calls", JArr []); ("annotations", JArr [])]) /\
  (exists m', formatLiteLLMResponse (documentOf []) false 0 = Ok (documentOf m') /\
              lookupProp "tool_calls" m' = None).
Proof. split; [reflexivity|]. eexists. split; reflexivity. Qed.

(** The examples of the specification for [function_call]: [null]
    becomes the empty object, an object passes through unchanged. *)
Example function_call_examples :
  formatLiteLLMResponse (documentOf [("function_call", JNull)]) false 0
  = Ok (documentOf [("function_call", JObj []); ("annotations", JArr [])]) /\
  formatLiteLLMResponse
    (documentOf [("function_call", JObj [("name", JStr "f")])]) false 0
  = Ok (documentOf [("function_call", JObj [("name", JStr "f")]);
                    ("annotations", JArr [])]).
Proof. split; reflexivity. Qed.

(** ** Idempotence *)

Lemma coerceMessage_idempotent m m' :
  truthy (Some m) = true -> coerceMessage m = Ok m' ->
  truthy (Some m') = true /\ coerceMessage m' = Ok m'.
Proof.
  intros Ht H. destruct m; try discriminate.
  - (* an array *)
    rewrite coerceMessage_array in H. injection H as <-. by split.
  - (* an object *)
    rewrite coerceMessage_object in H. injection H as <-. split; [reflexivity|].
    by rewrite coerceMessage_object, coerceProps_idempotent.
Qed.

Lemma formatChoice_idempotent strict idx i c c' :
  formatChoice strict idx i c = Ok c' -> formatChoice strict idx i c' = Ok c'.
Proof.
  unfold formatChoice. destruct c as [| | | | |cm]; simpl; try discriminate;
    try (destruct strict; [discriminate|]; intros [= <-]; reflexivity).
  destruct (truthy (lookupProp "message" cm)) eqn:Ht.
  - destruct (lookupProp "message" cm) as [m|] eqn:Hm; [|discriminate].
    destruct (coerceMessage m) as [m'|] eqn:Hc; simpl; [|discriminate].
    intros [= <-]. simpl. rewrite lookupProp_putProp_eq.
    destruct (coerceMessage_idempotent _ _ Ht Hc) as [Ht' Hc'].
    rewrite Ht', Hc'. simpl. by rewrite putProp_putProp.
  - destruct strict; [discriminate|]. intros [= <-]. simpl. by rewrite Ht.
Qed.

Lemma formatChoices_idempotent strict idx i cs cs' :
  formatChoices strict idx i cs = Ok cs' -> formatChoices strict idx i cs' = Ok cs'.
Proof.
  revert i cs'. induction cs as [|c cs IH]; intros i cs'; simpl.
  - by intros [= <-].
  - destruct (formatChoice strict idx i c) as [c'|] eqn:Ec; simpl; [|discriminate].
    destruct (formatChoices strict idx (S i) cs) as [rest|] eqn:E; simpl; [|discriminate].
    intros [= <-]. simpl.
    rewrite (formatChoice_idempotent _ _ _ _ _ Ec). simpl.
    by rewrite (IH _ _ E).
Qed.

Lemma formatCloned_idempotent d strict idx r :
  formatCloned d strict idx = Ok r -> formatCloned r strict idx = Ok r.
Proof.
  intros H.
  destruct (Array_isArray (choicesOf d)) eqn:Ha.
  - destruct (choicesOf d) as [[| | | |cs|]|] eqn:Hc; try discriminate.
    rewrite (format_with_choices _ _ _ _ Hc) in H.
    destruct (formatChoices strict idx 0 cs) as [cs'|] eqn:E; [|discriminate].
    simpl in H. injection H as <-.
    destruct d as [| | | | |dm]; try discriminate. simpl in *.
    rewrite (format_with_choices _ cs').
    + rewrite (formatChoices_idempotent _ _ _ _ _ E). simpl.
      by rewrite putProp_putProp.
    + simpl. apply lookupProp_putProp_eq.
  - assert (Hd : d <> JNull) by (intros ->; discriminate H).
    rewrite (format_without_choices _ _ _ Hd Ha) in H.
    destruct strict; [discriminate|]. injection H as <-.
    by rewrite (format_without_choices _ _ _ Hd Ha).
Qed.

(** What the normaliser puts in a plain document is plain. *)

Lemma plain_lookupProp k (m : list (string * JsonValue)) v :
  forallb (fun kv => plain (snd kv)) m = true -> lookupProp k m = Some v -> plain v = true.
Proof.
  induction m as [|[k' v'] m IH]; simpl; [discriminate|].
  intros [H1 H2]%andb_prop. destruct (String.eqb k k'); [by intros [= <-] | by apply IH].
Qed.

Lemma plain_putProp k v (m : list (string * JsonValue)) :
  plain v = true -> forallb (fun kv => plain (snd kv)) m = true ->
  forallb (fun kv => plain (snd kv)) (putProp k v m) = true.
Proof.
  intros Hv. induction m as [|[k' v'] m IH]; simpl; [by rewrite Hv|].
  intros [H1 H2]%andb_prop. destruct (String.eqb k k'); simpl.
  - by rewrite Hv, H2.
  - by rewrite H1, IH.
Qed.

Lemma plain_coerceProps (m : list (string * JsonValue)) :
  forallb (fun kv => plain (snd kv)) m = true ->
  forallb (fun kv => plain (snd kv)) (coerceProps m) = true.
Proof.
  intros Hm. unfold coerceProps.
  repeat match goal with
         | |- context [if ?b then _ else _] => destruct b
         end;
    repeat (apply plain_putProp; [reflexivity|]); exact Hm.
Qed.

Lemma formatChoice_plain strict idx i c c' :
  plain c = true -> formatChoice strict idx i c = Ok c' -> plain c' = true.
Proof.
  unfold formatChoice.
  destruct c as [| |x| | |cm]; simpl; try discriminate;
    try (intros Hp; destruct strict; [discriminate|]; by intros [= <-]).
  intros Hp. destruct (truthy (lookupProp "message" cm)).
  - destruct (lookupProp "message" cm) as [m|] eqn:Hm; [|by intros [= <-]].
    pose proof (plain_lookupProp _ _ _ Hp Hm) as Hpm.
    destruct m as [| |x| |elems|m]; try (simpl; discriminate).
    + rewrite coerceMessage_array. simpl. intros [= <-]. simpl.
      by apply plain_putProp.
    + rewrite coerceMessage_object. simpl. intros [= <-]. simpl.
      apply plain_putProp; [|exact Hp]. simpl. by apply plain_coerceProps.
  - destruct strict; [discriminate|]. by intros [= <-].
Qed.

Lemma formatChoices_plain strict idx cs :
  forall i cs',
    forallb plain cs = true -> formatChoices strict idx i cs = Ok cs' ->
    forallb plain cs' = true.
Proof.
  induction cs as [|c cs IH]; intros i cs'; simpl; [by intros _ [= <-]|].
  intros [Hc Hcs]%andb_prop.
  destruct (formatChoice strict idx i c) as [c'|] eqn:Ec; simpl; [|discriminate].
  destruct (formatChoices strict idx (S i) cs) as [rest|] eqn:Er; simpl; [|discriminate].
  intros [= <-]. simpl.
  by rewrite (formatChoice_plain _ _ _ _ _ Hc Ec), (IH _ _ Hcs Er).
Qed.

Lemma formatCloned_plain d strict idx r :
  plain d = true -> formatCloned d strict idx = Ok r -> plain r = true.
Proof.
  intros Hp H.
  destruct (Array_isArray (choicesOf d)) eqn:Ha.
  - destruct (choicesOf d) as [[| | | |cs|]|] eqn:Hc; try discriminate.
    rewrite (format_with_choices _ _ _ _ Hc) in H.
    destruct (formatChoices strict idx 0 cs) as [cs'|] eqn:E; [|discriminate].
    simpl in H. injection H as <-.
    destruct d as [| | | | |dm]; try discriminate. simpl in *.
    apply plain_putProp; [|exact Hp]. simpl.
    apply (formatChoices_plain _ _ _ _ _ (plain_lookupProp _ _ _ Hp Hc) E).
  - assert (Hd : d <> JNull) by (intros ->; discriminate H).
    rewrite (format_without_choices _ _ _ Hd Ha) in H.
    destruct strict; [discriminate|]. by injection H as <-.
Qed.

(** A result is plain: copying it gives it back. *)
Lemma format_plain d strict idx r :
  formatLiteLLMResponse d strict idx = Ok r -> JSON_roundtrip r = r.
Proof.
  intros H. apply JSON_roundtrip_plain.
  exact (formatCloned_plain _ _ _ _ (plain_JSON_roundtrip d) H).
Qed.

(** C7.  If normalising a document succeeds, normalising the result
    again, in the same mode, succeeds and returns that same result. *)
Theorem normalize_idempotent
    (d : JsonValue) (strict : bool) (idx : nat) (r : JsonValue) :
  formatLiteLLMResponse d strict idx = Ok r ->
  formatLiteLLMResponse r strict idx = Ok r.
Proof.
  intros H. unfold formatLiteLLMResponse at 1.
  rewrite (format_plain _ _ _ _ H).
  exact (formatCloned_idempotent _ _ _ _ H).
Qed.

Lemma normalize_idempotent_witness :
  formatLiteLLMResponse
    (documentOf [("tool_calls", JArr []); ("annotations", JArr [])]) true 0
  = Ok (documentOf [("tool_calls", JArr []); ("annotations", JArr [])]).
Proof.
  apply (normalize_idempotent
           (documentOf [("tool_calls", JNull)]) true 0
           (documentOf [("tool_calls", JArr []); ("annotations", JArr [])])).
  reflexivity.
Defined.

(** ** Documents without a [choices] array *)

Lemma format_with_choices_input d cs strict idx :
  choicesOf d = Some (JArr cs) ->
  formatLiteLLMResponse d strict idx =
  (cs' <- formatChoices strict idx 0 (List.map JSON_roundtrip cs) ;;
   Ok (withProp "choices" (JArr cs') (JSON_roundtrip d))).
Proof.
  intros H. apply format_with_choices. by rewrite choicesOf_roundtrip, H.
Qed.

Lemma format_without_choices_input d strict idx :
  writtenAsNull d = false -> Array_isArray (choicesOf d) = false ->
  formatLiteLLMResponse d strict idx =
  if strict then Throw (ThrowNodeOperationError (InvalidStructureError idx))
  else Ok (JSON_roundtrip d).
Proof.
  intros Hd H. apply format_without_choices.
  - by apply writtenAsNull_false.
  - by rewrite choicesOf_roundtrip, Array_isArray_roundtrip.
Qed.

(** A document that the copy holds as [null] makes the read of
    [choices] throw, in both modes. *)
Lemma format_writtenAsNull d strict idx :
  writtenAsNull d = true ->
  formatLiteLLMResponse d strict idx = Throw (ThrowTypeError (CannotReadNull "choices")).
Proof.
  intros H%JSON_roundtrip_null. unfold formatLiteLLMResponse. by rewrite H.
Qed.

(** X13.  For every document whose [choices] is missing or not an
    array, and which is neither [null] nor a number that JSON cannot
    write, strict mode fails with [InvalidStructureError] and lenient
    mode returns the copy of the document. *)
Lemma no_choices_array d idx :
  writtenAsNull d = false -> Array_isArray (choicesOf d) = false ->
  formatLiteLLMResponse d true idx
  = Throw (ThrowNodeOperationError (InvalidStructureError idx)) /\
  formatLiteLLMResponse d false idx = Ok (JSON_roundtrip d).
Proof.
  intros Hd Ha. by rewrite !(format_without_choices_input _ _ _ Hd Ha).
Qed.

Example empty_document_examples :
  formatLiteLLMResponse (JObj []) true 0
  = Throw (ThrowNodeOperationError (InvalidStructureError 0)) /\
  formatLiteLLMResponse (JObj []) false 0 = Ok (JObj []).
Proof. split; reflexivity. Qed.

(** C4, at the document [null] (which has no [choices]): the read of
    [clonedData.choices] throws a [TypeError] in both modes, where the
    specification has [InvalidStructureError] in strict mode and the
    document returned in lenient mode.  The node reaches this from the
    text [null] with [strictMode] off and fails on the record, although
    it passes a record through when the field itself is [null]. *)
Theorem null_document_type_error :
  choicesOf JNull = None /\
  (forall strict idx,
     formatLiteLLMResponse JNull strict idx
     = Throw (ThrowTypeError (CannotReadNull "choices"))) /\
  execute Parse.JSON_parse "data" "data" true false [itemOf (JStr "null")]
  = Throw (ThrowNodeOperationError (UnexpectedError 0 (inl (CannotReadNull "choices")))) /\
  execute Parse.JSON_parse "data" "data" true false [itemOf JNull]
  = Ok [[itemOf JNull]].
Proof. repeat split. Qed.

(** ** Choices without a message *)

Lemma formatChoice_hasMessageObject strict idx i c :
  hasMessageObject c = true -> exists c', formatChoice strict idx i c = Ok c'.
Proof.
  unfold hasMessageObject. destruct c as [| | | | |cm]; simpl; try discriminate.
  destruct (lookupProp "message" cm) as [[| | | |elems|m]|] eqn:Hm; try discriminate; intros _.
  - eexists. unfold formatChoice. simpl. rewrite Hm. simpl. reflexivity.
  - eexists. by apply formatChoice_object_message.
Qed.

(** In strict mode the loop stops at the first choice without a
    message, provided the choices before it have a message object. *)
Lemma formatChoices_first_missing idx cs i0 i c :
  cs !! i = Some c -> c <> JNull -> truthy (messageOf c) = false ->
  (forall j c', (j < i)%nat -> cs !! j = Some c' -> hasMessageObject c' = true) ->
  formatChoices true idx i0 cs
  = Throw (ThrowNodeOperationError (MissingMessageError (i0 + i) idx)).
Proof.
  revert i0 i. induction cs as [|c0 cs IH]; intros i0 i Hi Hc Hm Hbefore.
  - discriminate Hi.
  - destruct i as [|i]; simpl in *.
    + injection Hi as ->. rewrite (formatChoice_no_message _ _ _ _ Hc Hm). simpl.
      by rewrite Nat.add_0_r.
    + destruct (formatChoice_hasMessageObject true idx i0 c0) as [c0' ->].
      { apply (Hbefore 0%nat); [lia | reflexivity]. }
      simpl. rewrite (IH (S i0) i Hi Hc Hm).
      * simpl. do 3 f_equal. lia.
      * intros j c' Hj Hl. apply (Hbefore (S j)); [lia | exact Hl].
Qed.

(** X14.  In strict mode the normaliser fails with
    [MissingMessageError] for the first choice whose message is falsy
    in the copy (absent, [null], [false], [0], [NaN], the empty string,
    or a number that JSON cannot write), when that choice is neither
    [null] nor a number that JSON cannot write, and the choices before
    it have a message that is an object or an array. *)
Lemma strict_missing_message d cs idx i c :
  choicesOf d = Some (JArr cs) ->
  cs !! i = Some c -> writtenAsNull c = false ->
  truthy (messageOf (JSON_roundtrip c)) = false ->
  (forall j c', (j < i)%nat -> cs !! j = Some c' -> hasMessageObject c' = true) ->
  formatLiteLLMResponse d true idx
  = Throw (ThrowNodeOperationError (MissingMessageError i idx)).
Proof.
  intros Hc Hi Hn Hm Hb. rewrite (format_with_choices_input _ _ _ _ Hc).
  rewrite (formatChoices_first_missing idx (List.map JSON_roundtrip cs) 0 i
             (JSON_roundtrip c)); [reflexivity| | | |].
  - by rewrite list_lookup_fmap, Hi.
  - by apply writtenAsNull_false.
  - exact Hm.
  - intros j c' Hj Hl. rewrite list_lookup_fmap in Hl.
    destruct (cs !! j) as [c0|] eqn:Hj0; [|discriminate]. injection Hl as <-.
    rewrite hasMessageObject_roundtrip. by eapply Hb.
Qed.

(** X15.  In lenient mode a choice whose message is falsy in the copy
    is in the result as the copy has it, at the same index, whenever
    there is a result. *)
Lemma lenient_missing_message d idx r i c :
  formatLiteLLMResponse d false idx = Ok r ->
  choiceAt d i = Some c -> truthy (messageOf (JSON_roundtrip c)) = false ->
  choiceAt r i = Some (JSON_roundtrip c).
Proof.
  intros Hr Hi Hm. unfold choiceAt in Hi.
  destruct (choicesOf d) as [[| | | |cs|]|] eqn:Hc; try discriminate.
  rewrite (format_with_choices_input _ _ _ _ Hc) in Hr.
  destruct (formatChoices false idx 0 (List.map JSON_roundtrip cs)) as [cs'|] eqn:E;
    [|discriminate].
  simpl in Hr. injection Hr as <-.
  assert (Hi0 : List.map JSON_roundtrip cs !! i = Some (JSON_roundtrip c))
    by (by rewrite list_lookup_fmap, Hi).
  destruct (formatChoices_lookup _ _ _ _ _ _ _ E Hi0) as (c' & Hi' & Hc').
  assert (Hn : JSON_roundtrip c <> JNull) by (intros Heq; rewrite Heq in Hc'; discriminate Hc').
  rewrite (formatChoice_no_message _ _ _ _ Hn Hm) in Hc'. injection Hc' as <-.
  destruct d as [| |[]| | |dm]; try discriminate. simpl in *.
  unfold choiceAt. simpl. by rewrite lookupProp_putProp_eq.
Qed.

(** Lenient mode returns a result when no choice is [null] and every
    truthy message is an object or an array. *)
Lemma formatChoices_lenient_total idx i cs :
  forallb passableChoice cs = true ->
  exists cs', formatChoices false idx i cs = Ok cs'.
Proof.
  revert i. induction cs as [|c cs IH]; intros i; simpl.
  - intros _. by eexists.
  - intros [Hc Hcs]%andb_prop.
    assert (exists c', formatChoice false idx i c = Ok c') as [c' ->].
    { unfold passableChoice in Hc.
      destruct (hasMessageObject c) eqn:Hh.
      - by apply formatChoice_hasMessageObject.
      - rewrite orb_false_r in Hc. exists c.
        rewrite formatChoice_no_message; [reflexivity | | ].
        + by destruct c.
        + destruct c; try discriminate; by apply negb_true_iff in Hc. }
    destruct (IH (S i) Hcs) as [cs' ->]. simpl. by eexists.
Qed.

(** C5, at a document with [null] among its choices: the element at
    index 1 has no message, yet strict mode fails with a [TypeError]
    from the element at index 0 rather than with
    [MissingMessageError], and lenient mode fails with the same
    [TypeError] instead of going on.  The node reaches this from the
    text of the document and reports it as an unexpected error on the
    record, in lenient mode too. *)
Theorem null_choice_type_error :
  choiceAt nullChoiceDocument 1 = Some (JObj []) /\
  messageOf (JObj []) = None /\
  (forall strict idx,
     formatLiteLLMResponse nullChoiceDocument strict idx
     = Throw (ThrowTypeError (CannotReadNull "message"))) /\
  Parse.JSON_parse nullChoiceText = Some nullChoiceDocument /\
  execute Parse.JSON_parse "data" "data" true false [itemOf (JStr nullChoiceText)]
  = Throw (ThrowNodeOperationError (UnexpectedError 0 (inl (CannotReadNull "message")))).
Proof. repeat split; vm_compute; reflexivity. Qed.

(** The examples of the specification for a choice without a message. *)
Example missing_message_examples :
  formatLiteLLMResponse (JObj [("choices", JArr [JObj []])]) true 0
  = Throw (ThrowNodeOperationError (MissingMessageError 0 0)) /\
  formatLiteLLMResponse (JObj [("choices", JArr [JObj []])]) false 0
  = Ok (JObj [("choices", JArr [JObj []])]).
Proof. split; reflexivity. Qed.

(** ** The batch layer *)

Arguments tryBlock : simpl never.
Arguments catchBlock : simpl never.

(** The loop over all records, with what was pushed before it. *)
Lemma processLoop_all parse inF outF strict (items : list INodeExecutionData) :
  forall i acc res,
    processLoop parse inF outF strict i (List.map Some items) acc = Ok res <->
    exists outs,
      res = acc ++ outs /\ length outs = length items /\
      forall j item, items !! j = Some item ->
        exists out, outs !! j = Some out /\
          catchBlock (i + j) (tryBlock parse inF outF strict (i + j) (Some item)) = Ok out.
Proof.
  induction items as [|x xs IH]; intros i acc res; simpl.
  - split.
    + intros [= <-]. exists []. rewrite app_nil_r. repeat split. intros j it H. discriminate H.
    + intros (outs & -> & Hl & _). destruct outs; [|discriminate]. by rewrite app_nil_r.
  - destruct (catchBlock i (tryBlock parse inF outF strict i (Some x))) as [out|e] eqn:E; simpl.
    + rewrite IH. split.
      * intros (outs & -> & Hl & Hall). exists (out :: outs).
        split; [by rewrite <- app_assoc|]. split; [simpl; lia|].
        intros [|j] it Hj; simpl in *.
        -- injection Hj as <-. exists out. by rewrite Nat.add_0_r.
        -- destruct (Hall j it Hj) as (o & H1 & H2). exists o. split; [exact H1|].
           by replace (i + S j)%nat with (S i + j)%nat by lia.
      * intros (outs & -> & Hl & Hall). destruct outs as [|o outs]; [discriminate|].
        destruct (Hall 0%nat x eq_refl) as (o' & Ho & Hp). simpl in Ho. injection Ho as <-.
        rewrite Nat.add_0_r in Hp. rewrite E in Hp. injection Hp as <-.
        exists outs. split; [by rewrite <- app_assoc|]. split; [simpl in Hl; lia|].
        intros j it Hj. destruct (Hall (S j) it Hj) as (o' & H1 & H2).
        exists o'. split; [exact H1|].
        by replace (S i + j)%nat with (i + S j)%nat by lia.
    + split; [discriminate|].
      intros (outs & _ & _ & Hall).
      destruct (Hall 0%nat x eq_refl) as (o' & _ & Hp).
      rewrite Nat.add_0_r, E in Hp. discriminate Hp.
Qed.

(** C8.  With [processAllItems] off and a non-empty input, the node
    processes the first record alone, at index 0, and its output is
    that one processed record followed by the remaining records as
    they are and in their order (it fails when the first record
    fails).  With [processAllItems] on, the output has one record per
    input record, the one at each index being what processing the
    input record at that index gives, whatever the other records
    are. *)
Theorem batch_policy
    (parse : string -> option JsonValue) (inF outF : string) (strict : bool) :
  (forall x xs,
     execute parse inF outF false strict (x :: xs)
     = (out <- catchBlock 0 (tryBlock parse inF outF strict 0 (Some x)) ;;
        Ok [out :: xs])) /\
  (forall items outs,
     execute parse inF outF true strict items = Ok [outs] <->
     length outs = length items /\
     forall i item, items !! i = Some item ->
       exists out, outs !! i = Some out /\
         catchBlock i (tryBlock parse inF outF strict i (Some item)) = Ok out).
Proof.
  split.
  - intros x xs. unfold execute. simpl.
    destruct (catchBlock 0 (tryBlock parse inF outF strict 0 (Some x))) as [out|e]; simpl;
      [|reflexivity].
    unfold pushRemaining. simpl. rewrite drop_0.
    destruct xs as [|y ys]; reflexivity.
  - intros items outs. unfold execute. simpl.
    destruct (processLoop parse inF outF strict 0 (List.map Some items) []) as [res|e] eqn:E;
      simpl.
    + apply processLoop_all in E. destruct E as (outs' & -> & Hl & Hall). simpl.
      split.
      * intros [= <-]. by split.
      * intros [Hl' Hall']. do 2 f_equal.
        apply list_eq. intros j.
        destruct (items !! j) as [it|] eqn:Hj.
        -- destruct (Hall j it Hj) as (o & -> & Ho).
           destruct (Hall' j it Hj) as (o' & -> & Ho').
           simpl in *. congruence.
        -- apply lookup_ge_None in Hj.
           rewrite !(proj2 (lookup_ge_None _ _)) by lia. reflexivity.
    + split; [discriminate|].
      intros [Hl Hall].
      assert (H : processLoop parse inF outF strict 0 (List.map Some items) [] = Ok ([] ++ outs)).
      { apply processLoop_all. exists outs. by repeat split. }
      rewrite H in E. discriminate E.
Qed.

(** C10.  With [processAllItems] off and no input record, the node
    selects [items[0]], which is [undefined], and fails with the error
    wrapped for item 0; with [processAllItems] on, no input record
    gives no output record and no error. *)
Theorem empty_input
    (parse : string -> option JsonValue) (inF outF : string) (strict : bool) :
  execute parse inF outF false strict []
  = Throw (ThrowNodeOperationError (UnexpectedError 0 (inl (CannotReadUndefined "json")))) /\
  execute parse inF outF true strict [] = Ok [[]].
Proof. split; reflexivity. Qed.

(** ** The output record *)

(** What the node keeps of a record it normalises: the other [json]
    fields, the binary attachments, and a truthy [pairedItem]. *)
Lemma newItem_frame outF (it : INodeExecutionData) (formatted : JsonValue) :
  lookupProp outF (json (newItem outF it formatted)) = Some formatted /\
  (forall k, k <> outF ->
     lookupProp k (json (newItem outF it formatted)) = lookupProp k (json it)) /\
  binary (newItem outF it formatted) = binary it /\
  (truthyPairedItem (pairedItem it) = true \/ pairedItem it = None ->
   pairedItem (newItem outF it formatted) = pairedItem it).
Proof.
  unfold newItem. simpl. repeat split.
  - apply lookupProp_defineProp_eq.
  - intros k Hk. apply lookupProp_defineProp_ne. congruence.
  - by destruct (binary it).
  - intros [->| ->]; reflexivity.
Qed.

(** The record pushed for an input that is normalised. *)
Lemma tryBlock_formatted parse inF outF strict idx (it : INodeExecutionData) data r :
  lookupProp inF (json it) = Some data -> truthy (Some data) = true ->
  isString (Some data) = false ->
  formatLiteLLMResponse data strict idx = Ok r ->
  tryBlock parse inF outF strict idx (Some it) = Ok (newItem outF it r).
Proof.
  intros Hl Ht Hs Hr. unfold tryBlock. rewrite Hl, Ht, Hs. simpl. by rewrite Hr.
Qed.

(** C9, at a record whose [pairedItem] is the number [0]: the record is
    normalised, and the output record has no [pairedItem], where the
    specification has the lineage preserved.  The test
    [if (item.pairedItem)] takes the index [0] for an absent member. *)
Theorem paired_item_zero_dropped :
  pairedItem pairedZeroItem = Some (PairedIndex 0) /\
  formatLiteLLMResponse (JObj [("choices", JArr [])]) false 0
  = Ok (JObj [("choices", JArr [])]) /\
  execute Parse.JSON_parse "data" "data" true false [pairedZeroItem]
  = Ok [[ {| json := json pairedZeroItem; binary := None; pairedItem := None |} ]].
Proof. repeat split. Qed.

(** ** The end-to-end scenario *)

(** C1, as the specification has it, fails: the record the node returns
    for the scenario has no [function_call] in its message. *)
Lemma scenario_has_no_function_call :
  ~ exists out d m,
      execute Parse.JSON_parse "data" "data" true false [scenarioItem] = Ok [[out]] /\
      lookupProp "data" (json out) = Some d /\
      messageAt d 0 = Some (JObj m) /\
      lookupProp "function_call" m = Some (JObj []).
Proof.
  intros (out & d & m & He & Hd & Hm & Hf).
  vm_compute in He. injection He as <-.
  vm_compute in Hd. injection Hd as <-.
  vm_compute in Hm. injection Hm as <-.
  vm_compute in Hf. discriminate Hf.
Qed.

(** C1, amended.  For the scenario the node returns exactly one record,
    whose [data] is the parsed document with the message
    [{tool_calls: [], annotations: []}]: the two [null]s are replaced,
    and [function_call], absent from the input, is absent from the
    output. *)
Theorem scenario_end_to_end :
  execute Parse.JSON_parse "data" "data" true false [scenarioItem]
  = Ok [[itemOf (documentOf [("tool_calls", JArr []); ("annotations", JArr [])])]].
Proof. vm_compute. reflexivity. Qed.

(** ** What the node reads *)

(** [JSON.parse] on numerals and on the members of an object: a
    numeral beyond the range of doubles is [Infinity], one below it is
    [0], [-0] keeps its sign, [0.1] is the double nearest to it; the
    members named by an array index come first, and a member given
    twice has the place of the first and the value of the last. *)
Example JSON_parse_examples :
  Parse.JSON_parse "1e400" = Some (JNum infinity) /\
  Parse.JSON_parse "-1e400" = Some (JNum (S754_infinity true)) /\
  Parse.JSON_parse "1e-400" = Some (JNum zero) /\
  Parse.JSON_parse "-0" = Some (JNum (S754_zero true)) /\
  Parse.JSON_parse "0.1" = Some (JNum (S754_finite false 7205759403792794 (-56))) /\
  Parse.JSON_parse "9007199254740993" = Some (JNum (S754_finite false 4503599627370496 1)) /\
  Parse.JSON_parse (Parse.jsonText "{'b':null,'10':true,'2':false,'b':'x','01':[]}")
  = Some (JObj [("2", JBool false); ("10", JBool true); ("b", JStr "x"); ("01", JArr [])]).
Proof. repeat split; vm_compute; reflexivity. Qed.

(** A record that has no property of the name given as input field
    inherits what [Object.prototype] has under that name.  A method is
    a function, which line 161 cannot copy: the record fails, in
    lenient mode too.  Under [__proto__] it is the prototype itself,
    which is copied as the empty object. *)
Example inherited_member_examples :
  execute Parse.JSON_parse "toString" "out" true false [itemOf JNull]
  = Throw (ThrowNodeOperationError (UnexpectedError 0 (inr (NotValidJSON "undefined")))) /\
  execute Parse.JSON_parse "__proto__" "out" true false [itemOf JNull]
  = Ok [[ {| json := [("data", JNull); ("out", JObj [])];
             binary := None; pairedItem := None |} ]] /\
  execute Parse.JSON_parse "__proto__" "out" true true [itemOf JNull]
  = Throw (ThrowNodeOperationError (InvalidStructureError 0)) /\
  execute Parse.JSON_parse "toString" "out" true false
    [ {| json := [("toString", JNull)]; binary := None; pairedItem := None |} ]
  = Ok [[ {| json := [("toString", JNull)]; binary := None; pairedItem := None |} ]].
Proof. repeat split. Qed.

(** The output field takes its place among the properties of the
    record's data: first when its name is an array index and the data
    has none. *)
Example output_field_examples :
  execute Parse.JSON_parse "data" "0" true false [itemOf (JObj [])]
  = Ok [[ {| json := [("0", JObj []); ("data", JObj [])];
             binary := None; pairedItem := None |} ]] /\
  execute Parse.JSON_parse "data" "out" true false [itemOf (JObj [])]
  = Ok [[ {| json := [("data", JObj []); ("out", JObj [])];
             binary := None; pairedItem := None |} ]].
Proof. repeat split. Qed.

(** ** The store layer: the input is not mutated *)

Module StoreFacts.
Import Store.

Lemma extends_refl h0 : extends h0 h0.
Proof. exists []. by rewrite app_nil_r. Qed.

Lemma extends_length h0 h : extends h0 h -> (length h0 <= length h)%nat.
Proof. intros (ext & -> & _). rewrite length_app. lia. Qed.

(** An object at a new location refers to new objects only. *)
Lemma extends_lookup h0 h l o :
  extends h0 h -> (length h0 <= l)%nat -> h !! l = Some o ->
  freshObject (length h0) o = true.
Proof.
  intros (ext & -> & Hf) Hl Ho. rewrite lookup_app_r in Ho by exact Hl.
  exact (Forall_lookup_1 _ _ _ _ Hf Ho).
Qed.

Lemma extends_alloc h0 h o :
  extends h0 h -> freshObject (length h0) o = true -> extends h0 (h ++ [o]).
Proof.
  intros (ext & -> & Hf) Ho. exists (ext ++ [o]). split; [by rewrite app_assoc|].
  apply Forall_app. split; [exact Hf|]. by constructor.
Qed.

(** A write at a new location leaves the old heap in place. *)
Lemma extends_insert h0 h l o :
  extends h0 h -> (length h0 <= l)%nat -> freshObject (length h0) o = true ->
  extends h0 (<[l := o]> h).
Proof.
  intros (ext & -> & Hf) Hl Ho. exists (<[(l - length h0)%nat := o]> ext).
  split; [by apply insert_app_r_alt|]. by apply Forall_insert.
Qed.

Lemma extends_app h0 h ext :
  extends h0 h -> Forall (fun o => freshObject (length h0) o = true) ext ->
  extends h0 (h ++ ext).
Proof.
  intros (e & -> & Hf) He. exists (e ++ ext). split; [by rewrite app_assoc|].
  apply Forall_app. by split.
Qed.

Lemma freshValue_mono n n' v :
  (n <= n')%nat -> freshValue n' v = true -> freshValue n v = true.
Proof.
  intros Hn. destruct v; simpl; try done.
  intros H%Nat.leb_le. apply Nat.leb_le. lia.
Qed.

Lemma freshObject_mono n n' o :
  (n <= n')%nat -> freshObject n' o = true -> freshObject n o = true.
Proof.
  intros Hn. destruct o as [elems|props]; simpl; rewrite !forallb_forall;
    intros H x Hx; eapply freshValue_mono; eauto.
Qed.

Lemma lookupProp_fresh n k (props : list (string * Value)) :
  forallb (fun kv => freshValue n (snd kv)) props = true ->
  freshJs n (lookupProp k props) = true.
Proof.
  induction props as [|[k' v] props IH]; simpl; [done|].
  intros [Hv Hp]%andb_prop. destruct (String.eqb k k'); [exact Hv | by apply IH].
Qed.

Lemma putProp_fresh n k v (props : list (string * Value)) :
  freshValue n v = true ->
  forallb (fun kv => freshValue n (snd kv)) props = true ->
  forallb (fun kv => freshValue n (snd kv)) (putProp k v props) = true.
Proof.
  intros Hv. induction props as [|[k' v'] props IH]; simpl.
  - intros _. by rewrite Hv.
  - intros [Hv' Hp]%andb_prop. destruct (String.eqb k k'); simpl.
    + by rewrite Hv, Hp.
    + by rewrite Hv', IH.
Qed.

(** *** The rules of the little logic *)

Section Keeps.

Variable h0 : Heap.
Abbreviation n := (length h0).

Lemma keeps_ret {A} (a : A) (Q : A -> Prop) : Q a -> keeps h0 (ret a) Q.
Proof. intros HQ h Hh. split; [exact Hh|]. by intros ? [= <-]. Qed.

Lemma keeps_throw {A} e (Q : A -> Prop) : keeps h0 (throw e) Q.
Proof. intros h Hh. split; [exact Hh|]. intros ? H. discriminate H. Qed.

Lemma keeps_bind {A B} (m : M A) (k : A -> M B) (Q : A -> Prop) (R : B -> Prop) :
  keeps h0 m Q -> (forall a, Q a -> keeps h0 (k a) R) -> keeps h0 (bindM m k) R.
Proof.
  intros Hm Hk h Hh. destruct (Hm h Hh) as [H1 H2]. unfold bindM.
  destruct (m h) as [h' [a|e]]; simpl in *.
  - apply Hk; [by apply H2 | exact H1].
  - split; [exact H1|]. intros ? H. discriminate H.
Qed.

Lemma keeps_getProp x k :
  freshJs n x = true -> keeps h0 (getProp x k) (fun y => freshJs n y = true).
Proof.
  intros Hx h Hh. unfold getProp.
  destruct x as [[| | | |l]|]; simpl; try (split; [exact Hh|]; intros ? [= <-]; done).
  destruct (h !! l) as [[elems|props]|] eqn:Hl; simpl;
    try (split; [exact Hh|]; intros ? [= <-]; done).
  split; [exact Hh|]. intros ? [= <-]. apply lookupProp_fresh.
  simpl in Hx. apply Nat.leb_le in Hx. exact (extends_lookup _ _ _ _ Hh Hx Hl).
Qed.

Lemma keeps_getIndex x i :
  freshJs n x = true -> keeps h0 (getIndex x i) (fun y => freshJs n y = true).
Proof.
  intros Hx h Hh. unfold getIndex.
  destruct x as [[| | | |l]|]; simpl; try (split; [exact Hh|]; intros ? [= <-]; done).
  destruct (h !! l) as [[elems|props]|] eqn:Hl; simpl;
    try (split; [exact Hh|]; intros ? [= <-]; done).
  split; [exact Hh|]. intros ? [= <-].
  simpl in Hx. apply Nat.leb_le in Hx.
  pose proof (extends_lookup _ _ _ _ Hh Hx Hl) as Hf. simpl in Hf.
  destruct (elems !! i) as [v|] eqn:Hi; [|done]. simpl.
  rewrite forallb_forall in Hf. apply Hf. apply list_elem_of_In.
  by eapply list_elem_of_lookup_2.
Qed.

Lemma keeps_isArray x : keeps h0 (Array_isArray x) (fun _ => True).
Proof.
  intros h Hh. unfold Array_isArray.
  destruct x as [[| | | |l]|]; simpl; try done.
  by destruct (h !! l) as [[|]|].
Qed.

Lemma keeps_arrayLength x : keeps h0 (arrayLength x) (fun _ => True).
Proof.
  intros h Hh. unfold arrayLength.
  destruct x as [[| | | |l]|]; simpl; try done.
  by destruct (h !! l) as [[|]|].
Qed.

Lemma keeps_alloc o :
  freshObject n o = true -> keeps h0 (alloc o) (fun v => freshValue n v = true).
Proof.
  intros Ho h Hh. unfold alloc. simpl. split; [by apply extends_alloc|].
  intros ? [= <-]. simpl. apply Nat.leb_le. by apply extends_length.
Qed.

Lemma keeps_setProp x k v :
  freshJs n x = true -> freshValue n v = true ->
  keeps h0 (setProp x k v) (fun _ => True).
Proof.
  intros Hx Hv h Hh. unfold setProp.
  destruct x as [[| | | |l]|]; simpl; try done.
  destruct (h !! l) as [[elems|props]|] eqn:Hl; simpl; try done.
  split; [|done]. simpl in Hx. apply Nat.leb_le in Hx.
  apply extends_insert; [exact Hh | exact Hx |].
  simpl. apply putProp_fresh; [exact Hv|].
  exact (extends_lookup _ _ _ _ Hh Hx Hl).
Qed.

Lemma keeps_stringify x : keeps h0 (JSON_stringify x) (fun _ => True).
Proof.
  intros h Hh. unfold JSON_stringify.
  by destruct (readBack (S (length h)) h x).
Qed.

End Keeps.

(** *** Parsing allocates, and refers to what it allocates *)

Lemma buildProp_eq kd h :
  buildProp build kd h = (fst (build (snd kd) h), (fst kd, snd (build (snd kd) h))).
Proof. unfold buildProp. by destruct (build (snd kd) h). Qed.

Lemma build_fresh (text : JsonValue) :
  forall h, exists ext,
    fst (build text h) = h ++ ext /\
    Forall (fun o => freshObject (length h) o = true) ext /\
    freshValue (length h) (snd (build text h)) = true.
Proof.
  induction text as [| | | |elems IH|props IH] using JsonValue_ind; intros h;
    try (exists []; simpl; rewrite app_nil_r; by repeat split).
  - (* an array *)
    assert (Hall : forall h, exists ext,
               fst (buildAll build elems h) = h ++ ext /\
               Forall (fun o => freshObject (length h) o = true) ext /\
               forallb (freshValue (length h)) (snd (buildAll build elems h)) = true).
    { clear h. induction IH as [|t elems Ht _ IHelems]; intros h; simpl.
      - exists []. by rewrite app_nil_r.
      - destruct (Ht h) as (e1 & H1 & F1 & V1).
        destruct (build t h) as [h1 v]. simpl in *. subst h1.
        destruct (IHelems (h ++ e1)) as (e2 & H2 & F2 & V2).
        destruct (buildAll build elems (h ++ e1)) as [h2 vs]. simpl in *. subst h2.
        exists (e1 ++ e2). split; [by rewrite app_assoc|].
        assert (Hle : (length h <= length (h ++ e1))%nat) by (rewrite length_app; lia).
        split.
        + apply Forall_app. split; [exact F1|].
          eapply Forall_impl; [exact F2|]. intros o. by apply freshObject_mono.
        + rewrite V1. simpl. rewrite forallb_forall in V2. apply forallb_forall.
          intros x Hx. eapply freshValue_mono; [exact Hle | by apply V2]. }
    simpl. destruct (Hall h) as (e & H1 & F1 & V1).
    destruct (buildAll build elems h) as [h1 vs]. simpl in *. subst h1.
    exists (e ++ [OArr vs]). split; [by rewrite app_assoc|]. split.
    + apply Forall_app. split; [exact F1|]. by constructor.
    + apply Nat.leb_le. rewrite length_app. lia.
  - (* an object *)
    assert (Hall : forall h, exists ext,
               fst (buildAll (buildProp build) props h) = h ++ ext /\
               Forall (fun o => freshObject (length h) o = true) ext /\
               forallb (fun kv => freshValue (length h) (snd kv))
                       (snd (buildAll (buildProp build) props h)) = true).
    { clear h. induction IH as [|[k t] props Ht _ IHprops]; intros h; simpl.
      - exists []. by rewrite app_nil_r.
      - simpl in Ht. destruct (Ht h) as (e1 & H1 & F1 & V1).
        rewrite buildProp_eq. simpl.
        destruct (build t h) as [h1 v]. simpl in *. subst h1.
        destruct (IHprops (h ++ e1)) as (e2 & H2 & F2 & V2).
        destruct (buildAll (buildProp build) props (h ++ e1)) as [h2 ps]. simpl in *. subst h2.
        exists (e1 ++ e2). split; [by rewrite app_assoc|].
        assert (Hle : (length h <= length (h ++ e1))%nat) by (rewrite length_app; lia).
        split.
        + apply Forall_app. split; [exact F1|].
          eapply Forall_impl; [exact F2|]. intros o. by apply freshObject_mono.
        + rewrite V1. simpl. rewrite forallb_forall in V2. apply forallb_forall.
          intros x Hx. eapply freshValue_mono; [exact Hle | by apply V2]. }
    simpl. destruct (Hall h) as (e & H1 & F1 & V1).
    destruct (buildAll (buildProp build) props h) as [h1 ps]. simpl in *. subst h1.
    exists (e ++ [OObj ps]). split; [by rewrite app_assoc|]. split.
    + apply Forall_app. split; [exact F1|]. by constructor.
    + apply Nat.leb_le. rewrite length_app. lia.
Qed.

Lemma keeps_parse h0 text :
  keeps h0 (JSON_parse text) (fun v => freshValue (length h0) v = true).
Proof.
  intros h Hh. unfold JSON_parse.
  destruct (build_fresh text h) as (ext & H1 & F1 & V1).
  destruct (build text h) as [h' v]. simpl in *. subst h'.
  pose proof (extends_length _ _ Hh) as Hle.
  split.
  - apply extends_app; [exact Hh|].
    eapply Forall_impl; [exact F1|]. intros o. by apply freshObject_mono.
  - intros ? [= <-]. by eapply freshValue_mono.
Qed.

(** *** The program keeps to what it allocated *)

Ltac keeps_step :=
  match goal with
  | |- keeps _ (bindM (getProp _ _) _) _ =>
      eapply keeps_bind; [apply keeps_getProp; eassumption | intros ? ?]
  | |- keeps _ (bindM (getIndex _ _) _) _ =>
      eapply keeps_bind; [apply keeps_getIndex; eassumption | intros ? ?]
  | |- keeps _ (bindM (alloc _) _) _ =>
      eapply keeps_bind; [apply keeps_alloc; reflexivity | intros ? ?]
  | |- keeps _ (bindM (Array_isArray _) _) _ =>
      eapply keeps_bind; [apply keeps_isArray | intros ? _]
  | |- keeps _ (bindM (arrayLength _) _) _ =>
      eapply keeps_bind; [apply keeps_arrayLength | intros ? _]
  | |- keeps _ (bindM (if ?b then _ else _) _) _ =>
      eapply (keeps_bind _ _ _ (fun _ => True)); [destruct b | intros ? _]
  | |- keeps _ (setProp _ _ _) _ => apply keeps_setProp; assumption
  | |- keeps _ (ret tt) _ => by apply keeps_ret
  | |- keeps _ (throw _) _ => apply keeps_throw
  | |- keeps _ (if ?b then _ else _) _ => destruct b
  end.

Lemma keeps_coerceMessage h0 choice :
  freshJs (length h0) choice = true ->
  keeps h0 (coerceMessage choice) (fun _ => True).
Proof.
  intros Hc. unfold coerceMessage, coerceNull, coerceNullOrUndefined.
  eapply (keeps_bind _ _ _ (fun _ => True)); [repeat keeps_step | intros _ _].
  eapply (keeps_bind _ _ _ (fun _ => True)); [repeat keeps_step | intros _ _].
  repeat keeps_step.
Qed.

Lemma keeps_formatChoice h0 strict idx i clonedData :
  freshValue (length h0) clonedData = true ->
  keeps h0 (formatChoice strict idx i clonedData) (fun _ => True).
Proof.
  intros Hc. unfold formatChoice, formatChoiceBody.
  assert (Hc' : freshJs (length h0) (Some clonedData) = true) by exact Hc.
  do 3 keeps_step.
  destruct (truthy _); [by apply keeps_coerceMessage|].
  repeat keeps_step.
Qed.

Lemma keeps_formatChoices h0 strict idx k i clonedData :
  freshValue (length h0) clonedData = true ->
  keeps h0 (formatChoices strict idx k i clonedData) (fun _ => True).
Proof.
  intros Hc. revert i. induction k as [|k IH]; intros i; simpl.
  - by apply keeps_ret.
  - eapply keeps_bind; [by apply keeps_formatChoice | intros _ _; apply IH].
Qed.

Lemma keeps_formatLiteLLMResponse h0 data strict idx :
  keeps h0 (formatLiteLLMResponse data strict idx)
        (fun v => freshValue (length h0) v = true).
Proof.
  unfold formatLiteLLMResponse, formatCloned.
  eapply keeps_bind; [apply keeps_stringify | intros text _].
  eapply keeps_bind; [apply keeps_parse | intros clonedData Hc].
  assert (Hc' : freshJs (length h0) (Some clonedData) = true) by exact Hc.
  do 2 keeps_step.
  destruct (truthy _ && _).
  - keeps_step.
    eapply keeps_bind; [by apply keeps_formatChoices | intros _ _].
    by apply keeps_ret.
  - destruct strict; [apply keeps_throw | by apply keeps_ret].
Qed.

(** *** Reading back from a larger heap *)

Lemma readBack_extend fuel :
  forall fuel' h ext v t,
    (fuel <= fuel')%nat ->
    readBack fuel h v = Some t -> readBack fuel' (h ++ ext) v = Some t.
Proof.
  induction fuel as [|fuel IH]; intros fuel' h ext v t Hle; simpl; [discriminate|].
  destruct fuel' as [|fuel']; [lia|]. simpl.
  destruct v as [| | | |l]; try done.
  destruct (h !! l) as [o|] eqn:Hl; [|discriminate].
  rewrite (lookup_app_l_Some _ _ _ _ Hl).
  destruct o as [elems|props].
  - destruct (mapM (readBack fuel h) elems) as [ts|] eqn:E; [|discriminate].
    simpl. intros [= <-].
    apply mapM_Some in E.
    rewrite (mapM_Some_2 (readBack fuel' (h ++ ext)) elems ts); [reflexivity|].
    eapply Forall2_impl; [exact E|]. intros x y Hxy. apply IH; [lia | exact Hxy].
  - set (g' := fun kv : string * Value =>
                 option_map (pair (fst kv)) (readBack fuel' (h ++ ext) (snd kv))).
    destruct (mapM (fun kv : string * Value =>
                      option_map (pair (fst kv)) (readBack fuel h (snd kv))) props)
      as [ts|] eqn:E; [|discriminate].
    simpl. intros [= <-].
    apply mapM_Some in E.
    rewrite (mapM_Some_2 g' props ts); [reflexivity|].
    eapply Forall2_impl; [exact E|]. intros [k x] y Hxy. unfold g'. simpl in *.
    destruct (readBack fuel h x) as [tx|] eqn:Ex; [|discriminate].
    by rewrite (IH fuel' h ext x tx ltac:(lia) Ex).
Qed.

(** C6.  Run from any heap, on any value and in either mode, whether it
    returns or throws, the function leaves every object of that heap as
    it was: the heap it ends in is the initial heap followed by new
    objects.  The new objects refer to new objects only, and the value
    returned is a primitive or a reference to a new object, so the
    result shares no object with the input.  In particular whatever
    could be serialised before the call, the input document included,
    serialises to the same JSON afterwards. *)
Theorem input_not_mutated (data : Value) (strict : bool) (idx : nat) (h : Heap) :
  exists ext,
    fst (formatLiteLLMResponse data strict idx h) = h ++ ext /\
    Forall (fun o => freshObject (length h) o = true) ext /\
    (forall v, snd (formatLiteLLMResponse data strict idx h) = Ok v ->
               freshValue (length h) v = true) /\
    (forall x text,
       snd (JSON_stringify x h) = Ok text ->
       snd (JSON_stringify x (fst (formatLiteLLMResponse data strict idx h))) = Ok text).
Proof.
  destruct (keeps_formatLiteLLMResponse h data strict idx h (extends_refl h))
    as [(ext & Hext & Hfresh) Hv].
  exists ext. split; [exact Hext|]. split; [exact Hfresh|]. split; [exact Hv|].
  intros x text. rewrite Hext. unfold JSON_stringify.
  destruct (readBack (S (length h)) h x) as [t|] eqn:E; cbn [snd];
    [|intros H; discriminate H].
  intros [= <-].
  rewrite (readBack_extend (S (length h)) (S (length (h ++ ext))) h ext x t); [reflexivity | | exact E].
  rewrite length_app. lia.
Qed.

(** On a document whose two choices are one shared object: the four
    objects of the input are as they were, the result is a new object,
    and in it each choice has a message of its own. *)
Example aliased_input :
  take 4 (fst (formatLiteLLMResponse (VRef 3) false 0 aliasHeap)) = aliasHeap /\
  snd (formatLiteLLMResponse (VRef 3) false 0 aliasHeap) = Ok (VRef 9) /\
  snd (JSON_stringify (VRef 3) (fst (formatLiteLLMResponse (VRef 3) false 0 aliasHeap)))
  = Ok (JObj [("choices",
               JArr [JObj [("message", JObj [("tool_calls", JNull)])];
                     JObj [("message", JObj [("tool_calls", JNull)])]])]) /\
  snd (JSON_stringify (VRef 9) (fst (formatLiteLLMResponse (VRef 3) false 0 aliasHeap)))
  = Ok (JObj [("choices",
               JArr [JObj [("message", JObj [("tool_calls", JArr []);
                                             ("annotations", JArr [])])];
                     JObj [("message", JObj [("tool_calls", JArr []);
                                             ("annotations", JArr [])])]])]).
Proof. repeat split. Qed.

(** A circular input cannot be serialised: the function throws and the
    heap is as it was. *)
Example circular_input :
  formatLiteLLMResponse (VRef 0) false 0 circularHeap
  = (circularHeap, Throw (ThrowTypeError CircularStructure)).
Proof. reflexivity. Qed.

(** ** The store layer agrees with the value layer *)

(** *** Members laid out in a row *)

Section RepAll.

Context {A B : Type}.
Implicit Types (R : A -> B -> nat -> nat -> Prop) (ts : list A) (vs : list B).

Lemma repAll_le R ts :
  Forall (ordered R) ts -> forall vs lo hi, repAll R ts vs lo hi -> (lo <= hi)%nat.
Proof.
  induction 1 as [|t ts Ht _ IH]; intros [|v vs] lo hi; simpl; try done.
  - intros ->. lia.
  - intros (mid & H1 & H2). apply Ht in H1. apply IH in H2. lia.
Qed.

Lemma repAll_length R ts vs lo hi : repAll R ts vs lo hi -> length ts = length vs.
Proof.
  revert vs lo. induction ts as [|t ts IH]; intros [|v vs] lo; simpl; try done.
  intros (mid & _ & H). f_equal. by eapply IH.
Qed.

(** What holds of each member within the row holds of the row. *)
Lemma repAll_impl R R' ts :
  Forall (ordered R) ts ->
  forall vs lo hi,
    Forall (fun t => forall v a b, (lo <= a)%nat -> (b <= hi)%nat ->
                                   R t v a b -> R' t v a b) ts ->
    repAll R ts vs lo hi -> repAll R' ts vs lo hi.
Proof.
  induction 1 as [|t ts Ht Hts IH]; intros [|v vs] lo hi Himp; simpl; try done.
  intros (mid & H1 & H2). inversion_clear Himp as [|? ? Hi1 Hi2].
  pose proof (Ht _ _ _ H1) as Hle1. pose proof (repAll_le _ _ Hts _ _ _ H2) as Hle2.
  exists mid. split.
  - apply Hi1; [lia | exact Hle2 | exact H1].
  - apply IH; [|exact H2]. eapply Forall_impl; [exact Hi2|].
    intros t' Ht' v' a b Ha Hb. apply Ht'; [lia | exact Hb].
Qed.

Lemma repAll_Forall2 R (Q : B -> A -> Prop) ts :
  Forall (ordered R) ts ->
  forall vs lo hi,
    Forall (fun t => forall v a b, (lo <= a)%nat -> (b <= hi)%nat ->
                                   R t v a b -> Q v t) ts ->
    repAll R ts vs lo hi -> Forall2 Q vs ts.
Proof.
  induction 1 as [|t ts Ht Hts IH]; intros [|v vs] lo hi Himp; simpl; try done.
  intros (mid & H1 & H2). inversion_clear Himp as [|? ? Hi1 Hi2].
  pose proof (Ht _ _ _ H1) as Hle1. pose proof (repAll_le _ _ Hts _ _ _ H2) as Hle2.
  constructor.
  - eapply Hi1; [| |exact H1]; lia.
  - eapply IH; [|exact H2]. eapply Forall_impl; [exact Hi2|].
    intros t' Ht' v' a b Ha Hb. apply Ht'; [lia | exact Hb].
Qed.

End RepAll.

Lemma ordered_keyed R (kt : string * JsonValue) :
  ordered R (snd kt) -> ordered (keyed R) kt.
Proof. intros H kv a b [_ Hr]. by eapply H. Qed.

Lemma Forall_ordered_keyed R (kts : list (string * JsonValue)) :
  Forall (fun kt => ordered R (snd kt)) kts -> Forall (ordered (keyed R)) kts.
Proof. intros H. eapply Forall_impl; [exact H|]. intros kt. apply ordered_keyed. Qed.

(** *** Trees *)

Lemma rep_le P h t : ordered (rep P h) t.
Proof.
  induction t as [| | | |ts IH|kts IH] using JsonValue_ind; intros v lo hi; simpl;
    try (intros [_ ->]; lia).
  - intros (l & vs & _ & _ & [[-> H]|(_ & _ & _ & ->)]); [|lia].
    apply (repAll_le _ _ IH) in H. lia.
  - intros (l & ps & _ & _ & [[-> H]|(_ & _ & _ & ->)]); [|lia].
    apply (repAll_le _ _ (Forall_ordered_keyed _ _ IH)) in H. lia.
Qed.

Lemma Forall_rep_le P h (ts : list JsonValue) : Forall (ordered (rep P h)) ts.
Proof. apply Forall_forall. intros t _. apply rep_le. Qed.

Lemma Forall_keyed_rep_le P h (kts : list (string * JsonValue)) :
  Forall (ordered (keyed (rep P h))) kts.
Proof. apply Forall_forall. intros t _. apply ordered_keyed, rep_le. Qed.

(** A tree stays what it is when its own objects stay what they are. *)
Lemma rep_transfer (P P' : loc -> Prop) h h' t :
  forall v lo hi,
    (forall l, P l -> P' l) ->
    (forall l o, (lo <= l < hi)%nat \/ P l -> h !! l = Some o -> h' !! l = Some o) ->
    rep P h t v lo hi -> rep P' h' t v lo hi.
Proof.
  induction t as [| | | |ts IH|kts IH] using JsonValue_ind; intros v lo hi HP Hf; simpl;
    try done.
  - intros (l & vs & -> & Hl & [[-> H]|(Hn & -> & -> & ->)]).
    + pose proof (repAll_le _ _ (Forall_rep_le P h ts) _ _ _ H) as Hle.
      exists l, vs. split; [done|]. split; [apply Hf; [left; lia | exact Hl]|].
      left. split; [done|].
      eapply (repAll_impl _ _ _ (Forall_rep_le P h ts)); [|exact H].
      eapply Forall_impl; [exact IH|]. intros t Ht v a b Ha Hb.
      apply Ht; [exact HP|]. intros l' o [Hl'|Hl']; apply Hf; [left; lia | by right].
    + exists l, []. split; [done|]. split; [apply Hf; [by right | exact Hl]|].
      right. by repeat split; [apply HP|..].
  - intros (l & ps & -> & Hl & [[-> H]|(Hn & -> & -> & ->)]).
    + pose proof (repAll_le _ _ (Forall_keyed_rep_le P h kts) _ _ _ H) as Hle.
      exists l, ps. split; [done|]. split; [apply Hf; [left; lia | exact Hl]|].
      left. split; [done|].
      eapply (repAll_impl _ _ _ (Forall_keyed_rep_le P h kts)); [|exact H].
      eapply Forall_impl; [exact IH|]. intros kt Ht kv a b Ha Hb [Hk Hr].
      split; [exact Hk|].
      revert Hr. apply Ht; [exact HP|].
      intros l' o [Hl'|Hl']; apply Hf; [left; lia | by right].
    + exists l, []. split; [done|]. split; [apply Hf; [by right | exact Hl]|].
      right. by repeat split; [apply HP|..].
Qed.

Lemma repAll_transfer (P P' : loc -> Prop) h h' (ts : list JsonValue) vs lo hi :
  (forall l, P l -> P' l) ->
  (forall l o, (lo <= l < hi)%nat \/ P l -> h !! l = Some o -> h' !! l = Some o) ->
  repAll (rep P h) ts vs lo hi -> repAll (rep P' h') ts vs lo hi.
Proof.
  intros HP Hf. apply (repAll_impl _ _ _ (Forall_rep_le P h ts)).
  apply Forall_forall. intros t _ v a b Ha Hb. apply rep_transfer; [exact HP|].
  intros l o [Hl|Hl]; apply Hf; [left; lia | by right].
Qed.

Lemma repAll_keyed_transfer (P P' : loc -> Prop) h h'
    (kts : list (string * JsonValue)) ps lo hi :
  (forall l, P l -> P' l) ->
  (forall l o, (lo <= l < hi)%nat \/ P l -> h !! l = Some o -> h' !! l = Some o) ->
  repAll (keyed (rep P h)) kts ps lo hi -> repAll (keyed (rep P' h')) kts ps lo hi.
Proof.
  intros HP Hf. apply (repAll_impl _ _ _ (Forall_keyed_rep_le P h kts)).
  apply Forall_forall. intros t _ v a b Ha Hb [Hk Hr]. split; [exact Hk|].
  revert Hr. apply rep_transfer; [exact HP|].
  intros l o [Hl|Hl]; apply Hf; [left; lia | by right].
Qed.

(** A tree that has objects of its own ends within the heap. *)
Lemma rep_bound P h t v lo hi :
  rep P h t v lo hi -> lo = hi \/ (hi <= length h)%nat.
Proof.
  destruct t; simpl; try (intros [_ ->]; by left).
  - intros (l & vs & _ & Hl & [[-> _]|(_ & _ & _ & ->)]); [right | by left].
    apply lookup_lt_Some in Hl. lia.
  - intros (l & ps & _ & Hl & [[-> _]|(_ & _ & _ & ->)]); [right | by left].
    apply lookup_lt_Some in Hl. lia.
Qed.

(** *** Reading a tree back *)

Lemma rep_readBack P h t :
  forall v lo hi fuel,
    rep P h t v lo hi -> (hi - lo < fuel)%nat -> readBack fuel h v = Some t.
Proof.
  induction t as [| | | |ts IH|kts IH] using JsonValue_ind; intros v lo hi fuel; simpl;
    try (intros [-> _] Hf; destruct fuel; [lia | reflexivity]).
  - intros (l & vs & -> & Hl & Hcase) Hf. destruct fuel as [|fuel]; [lia|].
    simpl. rewrite Hl.
    destruct Hcase as [[-> H]|(_ & -> & -> & _)]; [|reflexivity].
    pose proof (repAll_le _ _ (Forall_rep_le P h ts) _ _ _ H) as Hle.
    rewrite (mapM_Some_2 (readBack fuel h) vs ts); [reflexivity|].
    eapply (repAll_Forall2 _ _ _ (Forall_rep_le P h ts)); [|exact H].
    eapply Forall_impl; [exact IH|]. intros t Ht v a b Ha Hb Hr.
    eapply Ht; [exact Hr | lia].
  - intros (l & ps & -> & Hl & Hcase) Hf. destruct fuel as [|fuel]; [lia|].
    simpl. rewrite Hl.
    destruct Hcase as [[-> H]|(_ & -> & -> & _)]; [|reflexivity].
    pose proof (repAll_le _ _ (Forall_keyed_rep_le P h kts) _ _ _ H) as Hle.
    rewrite (mapM_Some_2
               (fun kv : string * Value =>
                  option_map (pair (fst kv)) (readBack fuel h (snd kv))) ps kts);
      [reflexivity|].
    eapply (repAll_Forall2 _ _ _ (Forall_keyed_rep_le P h kts)); [|exact H].
    eapply Forall_impl; [exact IH|]. intros [k t] Ht [k' v] a b Ha Hb [Hk Hr].
    simpl in *. subst k'. by rewrite (Ht v a b fuel Hr ltac:(lia)).
Qed.

(** [JSON.stringify] of a value that stands for a tree gives the text
    of the tree. *)
Lemma rep_stringify P h t v lo hi :
  rep P h t v lo hi -> snd (JSON_stringify v h) = Ok (JSON_roundtrip t).
Proof.
  intros H. unfold JSON_stringify.
  rewrite (rep_readBack P h t v lo hi (S (length h)) H); [reflexivity|].
  destruct (rep_bound _ _ _ _ _ _ H) as [->|Hb]; lia.
Qed.

(** *** What [JSON.parse] builds is the tree *)

Lemma buildAll_extends {A B : Type} (f : A -> Heap -> Heap * B) (l : list A) :
  (forall a h, exists ext, fst (f a h) = h ++ ext) ->
  forall h, exists ext, fst (buildAll f l h) = h ++ ext.
Proof.
  intros Hf. induction l as [|a l IH]; intros h; simpl.
  - exists []. by rewrite app_nil_r.
  - destruct (Hf a h) as (e1 & H1). destruct (f a h) as [h1 b]. simpl in H1. subst h1.
    destruct (IH (h ++ e1)) as (e2 & H2).
    destruct (buildAll f l (h ++ e1)) as [h2 bs]. simpl in *. subst h2.
    exists (e1 ++ e2). by rewrite app_assoc.
Qed.

Lemma build_extends text h : exists ext, fst (build text h) = h ++ ext.
Proof. destruct (build_fresh text h) as (ext & H & _). by exists ext. Qed.

Lemma build_rep (text : JsonValue) :
  forall h,
    rep (fun _ => False) (fst (build text h)) text (snd (build text h))
        (length h) (length (fst (build text h))).
Proof.
  induction text as [| | | |ts IH|kts IH] using JsonValue_ind; intros h; try done.
  - assert (Hall : forall h,
               repAll (rep (fun _ => False) (fst (buildAll build ts h))) ts
                      (snd (buildAll build ts h))
                      (length h) (length (fst (buildAll build ts h)))).
    { clear h. induction IH as [|t ts Ht _ IHts]; intros h; simpl; [done|].
      specialize (Ht h). destruct (build t h) as [h1 v]. simpl in Ht.
      specialize (IHts h1).
      destruct (buildAll_extends build ts build_extends h1) as (ext & Hext).
      destruct (buildAll build ts h1) as [h2 vs]. simpl in *. subst h2.
      exists (length h1). split; [|exact IHts].
      revert Ht. apply rep_transfer; [done|].
      intros l o _ Hl. by apply lookup_app_l_Some. }
    simpl. specialize (Hall h). destruct (buildAll build ts h) as [h1 vs]. simpl in *.
    exists (length h1), vs. split; [done|]. split; [by apply list_lookup_middle|].
    left. split; [rewrite length_app; simpl; lia|].
    revert Hall. apply repAll_transfer; [done|].
    intros l o _ Hl. by apply lookup_app_l_Some.
  - assert (Hfe : forall kd h, exists ext, fst (buildProp build kd h) = h ++ ext).
    { intros kd h0. unfold buildProp.
      destruct (build_extends (snd kd) h0) as (ext & He).
      destruct (build (snd kd) h0). by exists ext. }
    assert (Hall : forall h,
               repAll (keyed (rep (fun _ => False)
                                  (fst (buildAll (buildProp build) kts h)))) kts
                      (snd (buildAll (buildProp build) kts h))
                      (length h) (length (fst (buildAll (buildProp build) kts h)))).
    { clear h. induction IH as [|[k t] kts Ht _ IHkts]; intros h; simpl; [done|].
      simpl in Ht. specialize (Ht h). rewrite buildProp_eq. simpl.
      destruct (build t h) as [h1 v]. cbn [fst snd] in *.
      specialize (IHkts h1).
      destruct (buildAll_extends (buildProp build) kts Hfe h1) as (ext & Hext).
      destruct (buildAll (buildProp build) kts h1) as [h2 ps]. simpl in *. subst h2.
      exists (length h1). split; [|exact IHkts].
      split; [done|]. simpl. revert Ht. apply rep_transfer; [done|].
      intros l o _ Hl. by apply lookup_app_l_Some. }
    simpl. specialize (Hall h).
    destruct (buildAll (buildProp build) kts h) as [h1 ps]. simpl in *.
    exists (length h1), ps. split; [done|]. split; [by apply list_lookup_middle|].
    left. split; [rewrite length_app; simpl; lia|].
    revert Hall. apply repAll_keyed_transfer; [done|].
    intros l o _ Hl. by apply lookup_app_l_Some.
Qed.

(** *** Properties of an object, in the tree and in the heap *)

Lemma repAll_lookup R (kts : list (string * JsonValue)) k :
  Forall (ordered (keyed R)) kts ->
  forall ps lo hi,
    repAll (keyed R) kts ps lo hi ->
    repOpt R (lookupProp k kts) (lookupProp k ps) lo hi.
Proof.
  induction 1 as [|[k0 t0] kts Ht Hts IH]; intros [|[k0' v0] ps] lo hi; simpl; try done.
  intros (mid & [Hk Hr] & Hrest). simpl in *. subst k0'.
  pose proof (Ht _ _ _ (conj eq_refl Hr : keyed R (k0, t0) (k0, v0) lo mid)) as Hle1.
  pose proof (repAll_le _ _ Hts _ _ _ Hrest) as Hle2.
  destruct (String.eqb k k0).
  - exists lo, mid. by repeat split.
  - specialize (IH _ _ _ Hrest). unfold repOpt in *.
    destruct (lookupProp k kts), (lookupProp k ps); try done.
    destruct IH as (a & b & Ha & Hb & H). exists a, b. repeat split; [lia | lia | exact H].
Qed.

(** Replacing, in the tree, the value of a property whose object was
    changed in the heap. *)
Lemma repAll_update R (kts : list (string * JsonValue)) k t :
  Forall (ordered (keyed R)) kts ->
  forall ps lo hi,
    repAll (keyed R) kts ps lo hi ->
    lookupProp k kts = Some t ->
    exists v a b,
      lookupProp k ps = Some v /\ (lo <= a)%nat /\ (b <= hi)%nat /\ R t v a b /\
      forall (R' : JsonValue -> Value -> nat -> nat -> Prop) t',
        R' t' v a b ->
        (forall t0 v0 x y, (lo <= x)%nat -> (y <= hi)%nat -> (y <= a \/ b <= x)%nat ->
                           R t0 v0 x y -> R' t0 v0 x y) ->
        repAll (keyed R') (putProp k t' kts) ps lo hi.
Proof.
  induction 1 as [|[k0 t0] kts Ht Hts IH]; intros [|[k0' v0] ps] lo hi; simpl; try done.
  intros (mid & [Hk Hr] & Hrest). simpl in *. subst k0'.
  pose proof (Ht _ _ _ (conj eq_refl Hr : keyed R (k0, t0) (k0, v0) lo mid)) as Hle1.
  pose proof (repAll_le _ _ Hts _ _ _ Hrest) as Hle2.
  destruct (String.eqb k k0) eqn:E.
  - intros [= ->]. exists v0, lo, mid. repeat split; try done.
    intros R' t' Ht' Hother. simpl. exists mid. split; [by split|].
    eapply (repAll_impl _ _ _ Hts); [|exact Hrest].
    apply Forall_forall. intros [k1 t1] _ [k1' v1] x y Hx Hy [Hk1 Hr1].
    split; [exact Hk1|]. simpl in *. apply Hother; [lia | lia | right; lia | exact Hr1].
  - intros Hl. destruct (IH _ _ _ Hrest Hl) as (v & a & b & Hv & Ha & Hb & Hrv & Hclose).
    exists v, a, b. repeat split; [exact Hv | lia | lia | exact Hrv |].
    intros R' t' Ht' Hother. simpl. exists mid. split.
    + split; [done|]. simpl. apply Hother; [lia | lia | left; lia | exact Hr].
    + apply Hclose; [exact Ht'|].
      intros t1 v1 x y Hx Hy Hd. apply Hother; [lia | lia | exact Hd].
Qed.

(** Assigning an empty array or object to a property that is [null] or
    absent, in the tree and in the heap at once. *)
Lemma repAll_put_leaf (P P' : loc -> Prop) g g' (m : list (string * JsonValue)) k tn vn :
  forall mp lo hi,
    repAll (keyed (rep P g)) m mp lo hi ->
    lookupProp k m = Some JNull \/ lookupProp k m = None ->
    (forall x, rep P' g' tn vn x x) ->
    (forall t v x y, (lo <= x)%nat -> (y <= hi)%nat ->
                     rep P g t v x y -> rep P' g' t v x y) ->
    repAll (keyed (rep P' g')) (putProp k tn m) (putProp k vn mp) lo hi.
Proof.
  induction m as [|[k0 t0] m IH]; intros [|[k0' v0] mp] lo hi; simpl; try done.
  - intros -> _ Hleaf _. exists hi. split; [by split|done].
  - intros (mid & [Hk Hr] & Hrest) Hnull Hleaf Hother. simpl in *. subst k0'.
    pose proof (rep_le _ _ _ _ _ _ Hr) as Hle1.
    pose proof (repAll_le _ _ (Forall_keyed_rep_le P g m) _ _ _ Hrest) as Hle2.
    destruct (String.eqb k k0) eqn:E; simpl.
    + destruct Hnull as [[= ->]|]; [|done]. simpl in Hr. destruct Hr as [_ <-].
      exists lo. split; [by split|].
      eapply (repAll_impl _ _ _ (Forall_keyed_rep_le P g m)); [|exact Hrest].
      apply Forall_forall. intros [k1 t1] _ [k1' v1] x y Hx Hy [Hk1 Hr1].
      split; [exact Hk1|]. simpl in *. apply Hother; [lia | lia | exact Hr1].
    + exists mid. split.
      * split; [done|]. simpl. apply Hother; [lia | lia | exact Hr].
      * apply IH; [exact Hrest | exact Hnull | exact Hleaf |].
        intros t v x y Hx Hy. apply Hother; lia.
Qed.

(** *** Running the coercions on a message in the heap *)

Section CoerceRuns.

Variables (g : Heap) (lc : loc) (cp : list (string * Value)).
Hypothesis Hchoice : g !! lc = Some (OObj cp).

(** The message is an object. *)
Lemma coerceNull_object lm mp k o :
  lookupProp "message" cp = Some (VRef lm) -> g !! lm = Some (OObj mp) ->
  coerceNull (Some (VRef lc)) k o g =
  if isNull (lookupProp k mp)
  then (<[lm := OObj (putProp k (VRef (length g)) mp)]> (g ++ [o]), Ok tt)
  else (g, Ok tt).
Proof.
  intros Hm Hl. unfold coerceNull, bindM, getProp, alloc, setProp, ret.
  rewrite Hchoice, Hm, Hl.
  destruct (isNull (lookupProp k mp)); [|reflexivity].
  rewrite Hchoice, Hm. by rewrite (lookup_app_l_Some _ _ _ _ Hl).
Qed.

Lemma coerceNullOrUndefined_object lm mp k o :
  lookupProp "message" cp = Some (VRef lm) -> g !! lm = Some (OObj mp) ->
  coerceNullOrUndefined (Some (VRef lc)) k o g =
  if isNull (lookupProp k mp) || isUndefined (lookupProp k mp)
  then (<[lm := OObj (putProp k (VRef (length g)) mp)]> (g ++ [o]), Ok tt)
  else (g, Ok tt).
Proof.
  intros Hm Hl. unfold coerceNullOrUndefined, bindM, getProp, alloc, setProp, ret.
  rewrite Hchoice, Hm, Hl.
  destruct (isNull (lookupProp k mp)); simpl.
  - rewrite Hchoice, Hm. by rewrite (lookup_app_l_Some _ _ _ _ Hl).
  - rewrite Hchoice, Hm, Hl.
    destruct (isUndefined (lookupProp k mp)); [|reflexivity].
    rewrite Hchoice, Hm. by rewrite (lookup_app_l_Some _ _ _ _ Hl).
Qed.

(** The message is an array: nothing is null, [annotations] is
    undefined, and the assignment leaves the array as it is. *)
Lemma coerceNull_array lm elems k o :
  lookupProp "message" cp = Some (VRef lm) -> g !! lm = Some (OArr elems) ->
  coerceNull (Some (VRef lc)) k o g = (g, Ok tt).
Proof.
  intros Hm Hl. unfold coerceNull, bindM, getProp, ret.
  by rewrite Hchoice, Hm, Hl.
Qed.

Lemma coerceNullOrUndefined_array lm elems k o :
  lookupProp "message" cp = Some (VRef lm) -> g !! lm = Some (OArr elems) ->
  coerceNullOrUndefined (Some (VRef lc)) k o g = (g ++ [o], Ok tt).
Proof.
  intros Hm Hl. unfold coerceNullOrUndefined, bindM, getProp, alloc, setProp, ret.
  rewrite Hchoice, Hm, Hl. simpl. rewrite Hchoice, Hm, Hl. simpl.
  rewrite Hchoice, Hm. by rewrite (lookup_app_l_Some _ _ _ _ Hl).
Qed.

(** The message is a primitive other than [null]: the assignment of
    [annotations] throws. *)
Lemma coerceNull_primitive mv k o :
  lookupProp "message" cp = Some mv ->
  mv <> VNull -> (forall l, mv <> VRef l) ->
  coerceNull (Some (VRef lc)) k o g = (g, Ok tt).
Proof.
  intros Hm Hn Hr. unfold coerceNull, bindM, getProp, ret.
  rewrite Hchoice, Hm. destruct mv; try done. by specialize (Hr l).
Qed.

Lemma coerceNullOrUndefined_primitive mv k o :
  lookupProp "message" cp = Some mv ->
  mv <> VNull -> (forall l, mv <> VRef l) ->
  coerceNullOrUndefined (Some (VRef lc)) k o g
  = (g ++ [o], Throw (ThrowTypeError (CannotCreateProperty k))).
Proof.
  intros Hm Hn Hr.
  unfold coerceNullOrUndefined, bindM, getProp, alloc, setProp, ret.
  rewrite Hchoice, Hm.
  destruct mv; try done; simpl; rewrite ?Hchoice, ?Hm; simpl;
    rewrite ?Hchoice, ?Hm; try reflexivity.
  by specialize (Hr l).
Qed.

End CoerceRuns.

End StoreFacts.

Module Agreement.
Import StoreFacts.
Module S := Store.

(** *** The tests agree *)

Lemma repOpt_truthy P h ot ov lo hi :
  S.repOpt (S.rep P h) ot ov lo hi -> S.truthy ov = truthy ot.
Proof.
  destruct ot as [t|], ov as [v|]; simpl; try done.
  intros (a & b & _ & _ & H).
  destruct t; simpl in H; try (by destruct H as [-> _]).
  - by destruct H as (l & vs & -> & _).
  - by destruct H as (l & ps & -> & _).
Qed.

Lemma repOpt_isNull P h ot ov lo hi :
  S.repOpt (S.rep P h) ot ov lo hi -> S.isNull ov = isNull ot.
Proof.
  destruct ot as [t|], ov as [v|]; simpl; try done.
  intros (a & b & _ & _ & H).
  destruct t; simpl in H; try (by destruct H as [-> _]).
  - by destruct H as (l & vs & -> & _).
  - by destruct H as (l & ps & -> & _).
Qed.

Lemma repOpt_isUndefined R ot ov lo hi :
  S.repOpt R ot ov lo hi -> S.isUndefined ov = isUndefined ot.
Proof. by destruct ot, ov. Qed.

(** *** What changed *)

Lemma changes_refl h lo hi : S.changes h h lo hi.
Proof. split; [lia | done]. Qed.

Lemma changes_weaken h h' lo hi lo' hi' :
  (lo' <= lo)%nat -> (hi <= hi')%nat ->
  S.changes h h' lo hi -> S.changes h h' lo' hi'.
Proof.
  intros Hlo Hhi [Hlen Hsame]. split; [exact Hlen|].
  intros l Hl Hout. apply Hsame; [exact Hl | lia].
Qed.

Lemma changes_trans h h1 h2 lo hi :
  S.changes h h1 lo hi -> S.changes h1 h2 lo hi -> S.changes h h2 lo hi.
Proof.
  intros [Hlen1 H1] [Hlen2 H2]. split; [lia|].
  intros l Hl Hout. rewrite H2; [by apply H1 | lia | exact Hout].
Qed.

Lemma changes_app h o lo hi : S.changes h (h ++ [o]) lo hi.
Proof.
  split; [rewrite length_app; lia|].
  intros l Hl _. by apply lookup_app_l.
Qed.

(** An object that was there and is outside the interval is still there. *)
Lemma changes_lookup h h' lo hi l o :
  S.changes h h' lo hi -> ~ (lo <= l < hi)%nat -> h !! l = Some o -> h' !! l = Some o.
Proof.
  intros [_ Hsame] Hout Hl. rewrite Hsame; [exact Hl | | exact Hout].
  by eapply lookup_lt_Some.
Qed.

(** *** The coercions on a message object *)

Section MessageObject.

Variables (N : nat) (h : S.Heap) (lc lm a : S.loc) (cp : list (string * S.Value)).
Hypothesis Hmessage : lookupProp "message" cp = Some (S.VRef lm).
Hypothesis Hne : lm <> lc.
Hypothesis Hold : (S lm <= N)%nat.

Lemma msgInv_put g mp m k o :
  o = S.OArr [] \/ o = S.OObj [] ->
  lookupProp k m = Some JNull \/ lookupProp k m = None ->
  S.msgInv N h lc lm a cp g mp m ->
  S.msgInv N h lc lm a cp
    (<[lm := S.OObj (putProp k (S.VRef (length g)) mp)]> (g ++ [o]))
    (putProp k (S.VRef (length g)) mp)
    (putProp k (S.literalTree o) m).
Proof.
  intros Ho Hnull (Hc & Hm & Hrep & [Hlen Hsame] & HN).
  pose proof (lookup_lt_Some _ _ _ Hm) as Hlm.
  assert (Hkeep : forall l x, l <> lm -> g !! l = Some x ->
            (<[lm := S.OObj (putProp k (S.VRef (length g)) mp)]> (g ++ [o])) !! l = Some x).
  { intros l x Hl Hx. rewrite list_lookup_insert_ne by congruence.
    by apply lookup_app_l_Some. }
  repeat split.
  - by apply Hkeep.
  - apply list_lookup_insert_eq. rewrite length_app. lia.
  - eapply repAll_put_leaf; [exact Hrep | exact Hnull | |].
    + intros x.
      assert (Hnew : (<[lm := S.OObj (putProp k (S.VRef (length g)) mp)]> (g ++ [o]))
                       !! length g = Some o).
      { rewrite list_lookup_insert_ne by lia. by apply list_lookup_middle. }
      destruct Ho as [-> | ->]; simpl.
      * exists (length g), []. split; [done|]. split; [exact Hnew|]. right. by repeat split.
      * exists (length g), []. split; [done|]. split; [exact Hnew|]. right. by repeat split.
    + intros t v x y Hx Hy. apply rep_transfer; [done|].
      intros l o' [Hl|Hl] Hlo; apply Hkeep; try exact Hlo; [lia|].
      unfold S.allocatedFrom in Hl. lia.
  - rewrite length_insert, length_app. lia.
  - intros l Hl Hout. rewrite list_lookup_insert_ne by lia.
    rewrite lookup_app_l by lia. by apply Hsame.
  - rewrite length_insert, length_app. lia.
Qed.

Lemma coerceNull_stage g mp m k o :
  o = S.OArr [] \/ o = S.OObj [] ->
  S.msgInv N h lc lm a cp g mp m ->
  exists g' mp',
    S.coerceNull (Some (S.VRef lc)) k o g = (g', Ok tt) /\
    S.msgInv N h lc lm a cp g' mp'
      (if isNull (lookupProp k m) then putProp k (S.literalTree o) m else m).
Proof.
  intros Ho Hinv. pose proof Hinv as (Hc & Hm & Hrep & _).
  rewrite (coerceNull_object g lc cp Hc lm mp k o Hmessage Hm).
  pose proof (repAll_lookup _ _ k (Forall_keyed_rep_le _ _ m) _ _ _ Hrep) as Hopt.
  rewrite (repOpt_isNull _ _ _ _ _ _ Hopt).
  destruct (isNull (lookupProp k m)) eqn:E.
  - eexists _, _. split; [reflexivity|]. apply msgInv_put; [exact Ho | | exact Hinv].
    left. by destruct (lookupProp k m) as [[]|].
  - by exists g, mp.
Qed.

Lemma coerceNullOrUndefined_stage g mp m k o :
  o = S.OArr [] \/ o = S.OObj [] ->
  S.msgInv N h lc lm a cp g mp m ->
  exists g' mp',
    S.coerceNullOrUndefined (Some (S.VRef lc)) k o g = (g', Ok tt) /\
    S.msgInv N h lc lm a cp g' mp'
      (if isNull (lookupProp k m) || isUndefined (lookupProp k m)
       then putProp k (S.literalTree o) m else m).
Proof.
  intros Ho Hinv. pose proof Hinv as (Hc & Hm & Hrep & _).
  rewrite (coerceNullOrUndefined_object g lc cp Hc lm mp k o Hmessage Hm).
  pose proof (repAll_lookup _ _ k (Forall_keyed_rep_le _ _ m) _ _ _ Hrep) as Hopt.
  rewrite (repOpt_isNull _ _ _ _ _ _ Hopt), (repOpt_isUndefined _ _ _ _ _ Hopt).
  destruct (isNull (lookupProp k m) || isUndefined (lookupProp k m)) eqn:E.
  - eexists _, _. split; [reflexivity|]. apply msgInv_put; [exact Ho | | exact Hinv].
    destruct (lookupProp k m) as [[]|]; try done; first [by left | by right].
  - by exists g, mp.
Qed.

(** The three coercions turn the message into [coerceProps] of it. *)
Lemma coerceMessage_object_run mp m :
  S.msgInv N h lc lm a cp h mp m ->
  exists g' mp',
    S.coerceMessage (Some (S.VRef lc)) h = (g', Ok tt) /\
    S.msgInv N h lc lm a cp g' mp' (coerceProps m).
Proof.
  intros I0. unfold S.coerceMessage, S.bindM.
  destruct (coerceNull_stage h mp m "tool_calls" (S.OArr []) (or_introl eq_refl) I0)
    as (g1 & mp1 & -> & I1).
  destruct (coerceNull_stage g1 mp1 _ "function_call" (S.OObj []) (or_intror eq_refl) I1)
    as (g2 & mp2 & -> & I2).
  destruct (coerceNullOrUndefined_stage g2 mp2 _ "annotations" (S.OArr [])
              (or_introl eq_refl) I2)
    as (g3 & mp3 & -> & I3).
  exists g3, mp3. split; [reflexivity | exact I3].
Qed.

End MessageObject.

(** *** One choice *)

Lemma rep_pure_allocated N h h' t v lo hi :
  (forall l o, (lo <= l < hi)%nat -> h !! l = Some o -> h' !! l = Some o) ->
  S.rep (fun _ => False) h t v lo hi -> S.rep (S.allocatedFrom N) h' t v lo hi.
Proof.
  intros Hf. apply rep_transfer; [done|]. intros l o [Hl|[]]. by apply Hf.
Qed.

Lemma formatChoiceBody_sim N h strict idx i ct cv lo mid :
  S.rep (fun _ => False) h ct cv lo mid -> (mid <= N)%nat -> (N <= length h)%nat ->
  S.changes h (fst (S.formatChoiceBody strict idx i (Some cv) h)) lo mid /\
  match formatChoice strict idx i ct with
  | Ok ct' =>
      snd (S.formatChoiceBody strict idx i (Some cv) h) = Ok tt /\
      S.rep (S.allocatedFrom N) (fst (S.formatChoiceBody strict idx i (Some cv) h))
            ct' cv lo mid
  | Throw e => snd (S.formatChoiceBody strict idx i (Some cv) h) = Throw e
  end.
Proof.
  intros Hrep Hmid HN.
  pose proof (rep_pure_allocated N h h ct cv lo mid (fun _ _ _ H => H) Hrep) as Hsame.
  pose proof (rep_pure_allocated N h (h ++ [S.OArr []]) ct cv lo mid
                (fun l o _ H => lookup_app_l_Some _ _ _ _ H) Hrep) as Happ.
  unfold S.formatChoiceBody, S.bindM, S.getProp, formatChoice.
  destruct ct as [|b|q|s|ts|cm]; simpl in Hrep.
  - destruct Hrep as [-> _]. simpl. split; [apply changes_refl | reflexivity].
  - destruct Hrep as [-> _]. simpl.
    destruct strict; simpl;
      (split; [apply changes_refl | first [reflexivity | split; [reflexivity | exact Hsame]]]).
  - destruct Hrep as [-> _]. simpl.
    destruct strict; simpl;
      (split; [apply changes_refl | first [reflexivity | split; [reflexivity | exact Hsame]]]).
  - destruct Hrep as [-> _]. simpl.
    destruct strict; simpl;
      (split; [apply changes_refl | first [reflexivity | split; [reflexivity | exact Hsame]]]).
  - destruct Hrep as (l & vs & -> & Hl & _). rewrite Hl. simpl.
    destruct strict; simpl;
      (split; [apply changes_refl | first [reflexivity | split; [reflexivity | exact Hsame]]]).
  - destruct Hrep as (lc & cp & -> & Hl & [[-> Hall]|([] & _)]).
    rewrite Hl. cbn [bind getProp fst snd].
    pose proof (repAll_lookup _ _ "message" (Forall_keyed_rep_le _ _ cm) _ _ _ Hall) as Hopt.
    rewrite (repOpt_truthy _ _ _ _ _ _ Hopt).
    destruct (truthy (lookupProp "message" cm)) eqn:Ht.
    + destruct (lookupProp "message" cm) as [mt|] eqn:Hmt; [|discriminate].
      destruct (repAll_update _ cm "message" mt (Forall_keyed_rep_le _ _ cm) _ _ _ Hall Hmt)
        as (mv & a & b & Hmv & Ha & Hb & Hrmv & Hclose).
      unfold S.coerceMessage, S.bindM.
      destruct mt as [|b0|q|s|elems|m]; simpl in Hrmv.
      * discriminate Ht.
      * destruct Hrmv as [-> _].
        rewrite !(coerceNull_primitive h lc cp Hl (S.VBool b0)) by done.
        rewrite (coerceNullOrUndefined_primitive h lc cp Hl (S.VBool b0)) by done.
        simpl in Ht. subst b0. simpl. split; [apply changes_app | reflexivity].
      * destruct Hrmv as [-> _].
        rewrite !(coerceNull_primitive h lc cp Hl (S.VNum q)) by done.
        rewrite (coerceNullOrUndefined_primitive h lc cp Hl (S.VNum q)) by done.
        simpl. split; [apply changes_app | reflexivity].
      * destruct Hrmv as [-> _].
        rewrite !(coerceNull_primitive h lc cp Hl (S.VStr s)) by done.
        rewrite (coerceNullOrUndefined_primitive h lc cp Hl (S.VStr s)) by done.
        simpl. split; [apply changes_app | reflexivity].
      * destruct Hrmv as (lm & vs & -> & Hlm & _).
        rewrite !(coerceNull_array h lc cp Hl lm vs) by done.
        rewrite (coerceNullOrUndefined_array h lc cp Hl lm vs) by done.
        simpl. rewrite (putProp_same _ _ _ Hmt).
        split; [apply changes_app|]. split; [reflexivity | exact Happ].
      * destruct Hrmv as (lm & mp & -> & Hlm & [[-> Hm]|([] & _)]).
        pose proof (repAll_le _ _ (Forall_keyed_rep_le _ _ m) _ _ _ Hm) as Hle.
        assert (I0 : S.msgInv N h lc lm a cp h mp m).
        { repeat split; try done.
          revert Hm. apply repAll_keyed_transfer; [done|]. by intros l o [H|[]]. }
        destruct (coerceMessage_object_run N h lc lm a cp Hmv ltac:(lia) ltac:(lia) mp m I0)
          as (g' & mp' & Hrun & (Hc' & Hm' & Hrep' & Hch' & HN')).
        unfold S.coerceMessage, S.bindM in Hrun. rewrite Hrun. clear Hrun.
        rewrite coerceMessage_object. simpl.
        split; [eapply changes_weaken; [| |exact Hch']; lia|].
        split; [reflexivity|].
        exists lc, cp. split; [done|]. split; [exact Hc'|]. left. split; [done|].
        apply Hclose.
        -- simpl. exists lm, mp'. split; [done|]. split; [exact Hm'|]. left. by split.
        -- intros t0 v0 x y Hx Hy Hd. apply rep_transfer; [done|].
           intros l o [Hlxy|[]] Hlo. eapply changes_lookup; [exact Hch' | lia | exact Hlo].
    + destruct strict; simpl;
      (split; [apply changes_refl | first [reflexivity | split; [reflexivity | exact Hsame]]]).
Qed.

(** *** The loop *)

Section Loop.

Variables (N : nat) (lr la : S.loc).
Variables (rp : list (string * S.Value)) (cvs : list S.Value).
Variables (strict : bool) (idx : nat).
Hypothesis Hchoices : lookupProp "choices" rp = Some (S.VRef la).
Hypothesis Hbelow : (la < lr)%nat.
Hypothesis Hold : (la <= N)%nat.

(** Reading [clonedData.choices[i]]. *)
Lemma formatChoice_read h i :
  h !! lr = Some (S.OObj rp) -> h !! la = Some (S.OArr cvs) ->
  S.formatChoice strict idx i (S.VRef lr) h
  = S.formatChoiceBody strict idx i (cvs !! i) h.
Proof.
  intros Hr Ha. unfold S.formatChoice, S.bindM, S.getProp, S.getIndex.
  by rewrite Hr, Hchoices, Ha.
Qed.

Lemma formatChoices_sim (todo : list JsonValue) :
  forall todoValues lo i h,
    S.repAll (S.rep (fun _ => False) h) todo todoValues lo la ->
    h !! lr = Some (S.OObj rp) -> h !! la = Some (S.OArr cvs) ->
    drop i cvs = todoValues -> (N <= length h)%nat ->
    S.changes h (fst (S.formatChoices strict idx (length todo) i (S.VRef lr) h)) lo la /\
    match formatChoices strict idx i todo with
    | Ok todo' =>
        snd (S.formatChoices strict idx (length todo) i (S.VRef lr) h) = Ok tt /\
        S.repAll (S.rep (S.allocatedFrom N)
                        (fst (S.formatChoices strict idx (length todo) i (S.VRef lr) h)))
                 todo' todoValues lo la
    | Throw e =>
        snd (S.formatChoices strict idx (length todo) i (S.VRef lr) h) = Throw e
    end.
Proof.
  induction todo as [|ct rest IH]; intros [|cv restValues] lo i h; simpl; try done.
  intros (mid & Hct & Hrest) Hr Ha Hdrop HN.
  pose proof (rep_le _ _ _ _ _ _ Hct) as Hle1.
  pose proof (repAll_le _ _ (Forall_rep_le _ _ rest) _ _ _ Hrest) as Hle2.
  assert (Hi : cvs !! i = Some cv).
  { rewrite <- (Nat.add_0_r i), <- lookup_drop, Hdrop. reflexivity. }
  assert (Hstep :
    S.bindM (S.formatChoice strict idx i (S.VRef lr))
            (fun _ : unit => S.formatChoices strict idx (length rest) (S i) (S.VRef lr)) h
    = match S.formatChoiceBody strict idx i (Some cv) h with
      | (h', Ok _) => S.formatChoices strict idx (length rest) (S i) (S.VRef lr) h'
      | (h', Throw e) => (h', Throw e)
      end).
  { unfold S.bindM. by rewrite (formatChoice_read h i Hr Ha), Hi. }
  rewrite Hstep. clear Hstep.
  destruct (formatChoiceBody_sim N h strict idx i ct cv lo mid Hct ltac:(lia) HN)
    as [Hch1 Hres1].
  destruct (S.formatChoiceBody strict idx i (Some cv) h) as [h1 r1]. simpl in *.
  destruct (formatChoice strict idx i ct) as [ct'|e]; simpl.
  + destruct Hres1 as [-> Hct'].
    assert (Hrest1 : S.repAll (S.rep (fun _ => False) h1) rest restValues mid la).
    { revert Hrest. apply repAll_transfer; [done|].
      intros l o [Hl|[]] Hlo. eapply changes_lookup; [exact Hch1 | lia | exact Hlo]. }
    assert (Hdrop1 : drop (S i) cvs = restValues).
    { rewrite (drop_S _ _ _ Hi) in Hdrop. by injection Hdrop. }
    assert (Hr1 : h1 !! lr = Some (S.OObj rp))
      by (eapply changes_lookup; [exact Hch1 | lia | exact Hr]).
    assert (Ha1 : h1 !! la = Some (S.OArr cvs))
      by (eapply changes_lookup; [exact Hch1 | lia | exact Ha]).
    assert (HN1 : (N <= length h1)%nat) by (destruct Hch1; lia).
    destruct (IH restValues mid (S i) h1 Hrest1 Hr1 Ha1 Hdrop1 HN1) as [Hch2 Hres2].
    destruct (S.formatChoices strict idx (length rest) (S i) (S.VRef lr) h1) as [h2 r2].
    simpl in *.
    split.
    { eapply changes_trans; eapply changes_weaken; [| |exact Hch1| | |exact Hch2]; lia. }
    destruct (formatChoices strict idx (S i) rest) as [rest'|e]; simpl; [|exact Hres2].
    destruct Hres2 as [-> Hrest']. split; [reflexivity|].
    exists mid. split; [|exact Hrest'].
    revert Hct'. apply rep_transfer; [done|].
    intros l o Hl Hlo. eapply changes_lookup; [exact Hch2 | | exact Hlo].
    unfold S.allocatedFrom in Hl. lia.
  + rewrite Hres1. split; [|reflexivity].
    eapply changes_weaken; [| |exact Hch1]; lia.
Qed.

End Loop.

(** *** The whole function *)

(** Without a [choices] array both layers fail in strict mode and
    return the copy otherwise. *)
Lemma no_array_agree P h1 text root lo hi (strict : bool) (idx : nat) :
  S.rep P h1 text root lo hi ->
  match (if strict
         then @Throw JsonValue (ThrowNodeOperationError (InvalidStructureError idx))
         else Ok text) with
  | Ok r =>
      exists v,
        snd ((if strict
              then @S.throw S.Value (ThrowNodeOperationError (InvalidStructureError idx))
              else S.ret root) h1) = Ok v /\
        snd (S.JSON_stringify v
               (fst ((if strict
                      then @S.throw S.Value (ThrowNodeOperationError (InvalidStructureError idx))
                      else S.ret root) h1))) = Ok (JSON_roundtrip r)
  | Throw e =>
      snd ((if strict
            then @S.throw S.Value (ThrowNodeOperationError (InvalidStructureError idx))
            else S.ret root) h1) = Throw e
  end.
Proof.
  intros Hrep. destruct strict; simpl; [reflexivity|].
  exists root. split; [reflexivity|]. by eapply rep_stringify.
Qed.

(** On the clone, laid out by [JSON.parse] at the end of the heap, the
    rest of the function does in the heap what the function on trees
    does. *)
Lemma formatCloned_sim (text : JsonValue) (root : S.Value) (strict : bool) (idx : nat)
    (h1 : S.Heap) (lo : nat) :
  S.rep (fun _ => False) h1 text root lo (length h1) ->
  match formatCloned text strict idx with
  | Ok r =>
      exists v,
        snd (S.formatCloned root strict idx h1) = Ok v /\
        snd (S.JSON_stringify v (fst (S.formatCloned root strict idx h1)))
        = Ok (JSON_roundtrip r)
  | Throw e => snd (S.formatCloned root strict idx h1) = Throw e
  end.
Proof.
  intros Hrep. unfold formatCloned.
  assert (Hnone : forall (choices : option S.Value),
             S.getProp (Some root) "choices" h1 = (h1, Ok choices) ->
             S.Array_isArray choices h1 = (h1, Ok false) ->
             S.formatCloned root strict idx h1
             = (if strict
                then @S.throw S.Value (ThrowNodeOperationError (InvalidStructureError idx))
                else S.ret root) h1).
  { intros choices Hg Ha. unfold S.formatCloned, S.bindM. rewrite Hg, Ha.
    by rewrite andb_false_r. }
  pose proof Hrep as Hrep0.
  destruct text as [|b|q|s|ts|dm]; simpl in Hrep.
  - destruct Hrep as [-> _]. reflexivity.
  - destruct Hrep as [-> _]. rewrite (Hnone None) by done. by eapply no_array_agree.
  - destruct Hrep as [-> _]. rewrite (Hnone None) by done. by eapply no_array_agree.
  - destruct Hrep as [-> _]. rewrite (Hnone None) by done. by eapply no_array_agree.
  - destruct Hrep as (l & vs & -> & Hl & _).
    rewrite (Hnone None) by (unfold S.getProp; by rewrite ?Hl).
    by eapply no_array_agree.
  - destruct Hrep as (lr & rp & -> & Hlr & [[Hhi Hall]|([] & _)]).
    assert (Hget : S.getProp (Some (S.VRef lr)) "choices" h1
                   = (h1, Ok (lookupProp "choices" rp)))
      by (unfold S.getProp; by rewrite Hlr).
    cbn [bind getProp].
    destruct (lookupProp "choices" dm) as [ct|] eqn:Hct.
    + destruct (repAll_update _ dm "choices" ct (Forall_keyed_rep_le _ _ dm) _ _ _ Hall Hct)
        as (v & a & b & Hv & Ha & Hb & Hrv & Hclose).
      rewrite Hv in Hget.
      destruct ct as [|b0|q|s|cs|cm]; simpl in Hrv.
      * destruct Hrv as [-> _]. rewrite (Hnone _ Hget) by done. by eapply no_array_agree.
      * destruct Hrv as [-> _]. rewrite (Hnone _ Hget) by done.
        simpl. rewrite andb_false_r. by eapply no_array_agree.
      * destruct Hrv as [-> _]. rewrite (Hnone _ Hget) by done.
        simpl. rewrite andb_false_r. by eapply no_array_agree.
      * destruct Hrv as [-> _]. rewrite (Hnone _ Hget) by done.
        simpl. rewrite andb_false_r. by eapply no_array_agree.
      * destruct Hrv as (la & cvs & -> & Hla & [[-> Hcs]|([] & _)]).
        pose proof (lookup_lt_Some _ _ _ Hla) as Hlt.
        assert (Hrun : S.formatCloned (S.VRef lr) strict idx h1
                       = match S.formatChoices strict idx (length cs) 0 (S.VRef lr) h1 with
                         | (h', Ok _) => (h', Ok (S.VRef lr))
                         | (h', Throw e) => (h', Throw e)
                         end).
        { unfold S.formatCloned, S.bindM, S.Array_isArray, S.arrayLength.
          rewrite Hget, Hla. simpl. rewrite Hla.
          by rewrite (repAll_length _ _ _ _ _ Hcs). }
        rewrite Hrun. clear Hrun. simpl.
        destruct (formatChoices_sim (length h1) lr la rp cvs strict idx Hv
                    ltac:(lia) ltac:(lia) cs cvs a 0 h1 Hcs Hlr Hla (drop_0 cvs)
                    ltac:(lia)) as [Hch Hres].
        destruct (S.formatChoices strict idx (length cs) 0 (S.VRef lr) h1) as [h' r'].
        simpl in *.
        destruct (formatChoices strict idx 0 cs) as [cs'|e]; simpl.
        -- destruct Hres as [-> Hcs']. simpl. exists (S.VRef lr). split; [reflexivity|].
           eapply (rep_stringify (S.allocatedFrom (length h1)) h'
                     (JObj (putProp "choices" (JArr cs') dm)) (S.VRef lr) lo (S lr)).
           simpl. exists lr, rp. split; [done|].
           split; [eapply changes_lookup; [exact Hch | lia | exact Hlr]|].
           left. split; [done|]. apply Hclose.
           ++ simpl. exists la, cvs. split; [done|].
              split; [eapply changes_lookup; [exact Hch | lia | exact Hla]|].
              left. by split.
           ++ intros t0 v0 x y Hx Hy Hd. apply rep_transfer; [done|].
              intros l o [Hlxy|[]] Hlo.
              eapply changes_lookup; [exact Hch | lia | exact Hlo].
        -- by rewrite Hres.
      * destruct Hrv as (l & ps & -> & Hl & _).
        rewrite (Hnone _ Hget) by (unfold S.Array_isArray; by rewrite Hl).
        simpl. by eapply no_array_agree.
    + pose proof (repAll_lookup _ _ "choices" (Forall_keyed_rep_le _ _ dm) _ _ _ Hall) as Hopt.
      rewrite Hct in Hopt. destruct (lookupProp "choices" rp); [done|].
      rewrite (Hnone _ Hget) by done. by eapply no_array_agree.
Qed.

(** X16.  The store layer refines the value layer: run on a value that
    serialises to [text], the function in the heap throws what the
    function on trees throws on [text], and otherwise returns a value
    that serialises, in the final heap, to the tree the function on
    trees returns. *)
Theorem store_agrees_with_value (data : S.Value) (strict : bool) (idx : nat)
    (h : S.Heap) (text : JsonValue) :
  snd (S.JSON_stringify data h) = Ok text ->
  match formatLiteLLMResponse text strict idx with
  | Ok r =>
      exists v,
        snd (S.formatLiteLLMResponse data strict idx h) = Ok v /\
        snd (S.JSON_stringify v (fst (S.formatLiteLLMResponse data strict idx h))) = Ok r
  | Throw e => snd (S.formatLiteLLMResponse data strict idx h) = Throw e
  end.
Proof.
  intros Hs.
  assert (Hrun : S.formatLiteLLMResponse data strict idx h
                 = S.formatCloned (snd (S.build text h)) strict idx (fst (S.build text h))).
  { unfold S.formatLiteLLMResponse, S.bindM, S.JSON_stringify, S.JSON_parse in *.
    destruct (S.readBack (S (length h)) h data) as [tree|]; simpl in Hs; [|discriminate].
    injection Hs as <-. simpl. by destruct (S.build (JSON_roundtrip tree) h). }
  assert (Hplain : JSON_roundtrip text = text).
  { unfold S.JSON_stringify in Hs.
    destruct (S.readBack (S (length h)) h data); simpl in Hs; [|discriminate].
    injection Hs as <-. apply JSON_roundtrip_idempotent. }
  rewrite Hrun.
  pose proof (formatCloned_sim text _ strict idx _ (length h) (build_rep text h)) as Hsim.
  pose proof (format_plain text strict idx) as Hres.
  unfold formatLiteLLMResponse in *. rewrite Hplain in *.
  destruct (formatCloned text strict idx) as [r|e]; [|exact Hsim].
  by rewrite (Hres r eq_refl) in Hsim.
Qed.

(** What the store layer does when the input cannot be serialised. *)
Lemma store_circular (data : S.Value) (strict : bool) (idx : nat) (h : S.Heap) e :
  snd (S.JSON_stringify data h) = Throw e ->
  S.formatLiteLLMResponse data strict idx h = (h, Throw e).
Proof.
  unfold S.formatLiteLLMResponse, S.bindM, S.JSON_stringify.
  destruct (S.readBack (S (length h)) h data); simpl; [discriminate|].
  by intros [= <-].
Qed.

End Agreement.

(** * Further properties of the node *)

(** ** What the normaliser throws *)

Lemma coerceMessage_throws m e :
  coerceMessage m = Throw e -> exists te, e = ThrowTypeError te.
Proof.
  destruct m; try (simpl; intros [= <-]; by eexists).
  by rewrite coerceMessage_object.
Qed.

(** A [NodeOperationError] of the loop carries the record index it was
    given, and in lenient mode the loop raises none. *)
Lemma formatChoice_throws strict idx i c e :
  formatChoice strict idx i c = Throw e ->
  (exists te, e = ThrowTypeError te) \/
  (strict = true /\ e = ThrowNodeOperationError (MissingMessageError i idx)).
Proof.
  unfold formatChoice. destruct (getProp c "message") as [message|e0] eqn:Hg; simpl.
  - destruct (truthy message).
    + destruct message as [m|]; [|discriminate].
      destruct (coerceMessage m) as [m'|e1] eqn:Hc; simpl; [discriminate|].
      intros [= <-]. left. by eapply coerceMessage_throws.
    + destruct strict; [|discriminate]. intros [= <-]. by right.
  - intros [= <-]. left. destruct c; try discriminate. injection Hg as <-. by eexists.
Qed.

Lemma formatChoices_throws strict idx i cs e :
  formatChoices strict idx i cs = Throw e ->
  (exists te, e = ThrowTypeError te) \/
  (strict = true /\ exists j, e = ThrowNodeOperationError (MissingMessageError j idx)).
Proof.
  revert i. induction cs as [|c cs IH]; intros i; simpl; [discriminate|].
  destruct (formatChoice strict idx i c) as [c'|e0] eqn:Hc; simpl.
  - destruct (formatChoices strict idx (S i) cs) as [rest|e1] eqn:Hr; simpl; [discriminate|].
    intros [= <-]. by apply (IH (S i)).
  - intros [= <-]. destruct (formatChoice_throws _ _ _ _ _ Hc) as [H|[Hs He]];
      [by left | right; split; [exact Hs | by exists i]].
Qed.

Lemma formatCloned_throws d strict idx e :
  formatCloned d strict idx = Throw e ->
  (exists te, e = ThrowTypeError te) \/
  (strict = true /\ exists noe, e = ThrowNodeOperationError noe /\ itemIndexOf noe = idx).
Proof.
  destruct (Array_isArray (choicesOf d)) eqn:Ha.
  - destruct (choicesOf d) as [[| | | |cs|]|] eqn:Hc; try discriminate.
    rewrite (format_with_choices _ _ _ _ Hc).
    destruct (formatChoices strict idx 0 cs) as [cs'|e0] eqn:E; simpl; [discriminate|].
    intros [= <-]. destruct (formatChoices_throws _ _ _ _ _ E) as [H|[Hs [j ->]]];
      [by left | right; split; [exact Hs | by eexists]].
  - destruct d; [simpl; intros [= <-]; left; by eexists | ..];
      (rewrite format_without_choices; [|discriminate|exact Ha];
       destruct strict; [|discriminate];
       intros [= <-]; right; split; [done | by eexists]).
Qed.

Lemma format_throws d strict idx e :
  formatLiteLLMResponse d strict idx = Throw e ->
  (exists te, e = ThrowTypeError te) \/
  (strict = true /\ exists noe, e = ThrowNodeOperationError noe /\ itemIndexOf noe = idx).
Proof. apply formatCloned_throws. Qed.

(** ** One record *)

(** The cases of the read [item.json[inputField]]. *)
Ltac read_field inF item :=
  destruct (lookupProp inF (json item)) as [?data|] eqn:?Hown;
    [|destruct (Object_prototype inF) as [[|]|] eqn:?Hproto];
    cbv beta iota.

(** A record that is pushed is the input record itself or the output
    record built from a normalised document. *)
Lemma tryBlock_cases parse inF outF strict i (item out : INodeExecutionData) :
  tryBlock parse inF outF strict i (Some item) = Ok out ->
  out = item \/
  exists data r, formatLiteLLMResponse data strict i = Ok r /\ out = newItem outF item r.
Proof.
  unfold tryBlock. read_field inF item.
  - destruct (truthy (Some data)); cbn [negb].
    + destruct (isString (Some data)).
      * destruct (parse (stringOf (Some data))) as [data'|].
        -- destruct (formatLiteLLMResponse data' strict i) as [r|] eqn:E; simpl;
             [|discriminate].
           intros [= <-]. right. by exists data', r.
        -- destruct strict; [discriminate|]. intros [= <-]. by left.
      * destruct (formatLiteLLMResponse data strict i) as [r|] eqn:E; simpl; [|discriminate].
        intros [= <-]. right. by exists data, r.
    + destruct strict; [discriminate|]. intros [= <-]. by left.
  - discriminate.
  - simpl. destruct (formatLiteLLMResponse (JObj []) strict i) as [r|] eqn:E; simpl;
      [|discriminate].
    intros [= <-]. right. by exists (JObj []), r.
  - simpl. destruct strict; [discriminate|]. intros [= <-]. by left.
Qed.

(** A [NodeOperationError] leaves the [try] block in strict mode only,
    and carries the index of the record. *)
Lemma tryBlock_node_error parse inF outF strict i o noe :
  tryBlock parse inF outF strict i o = Throw (ThrowNodeOperationError noe) ->
  strict = true /\ itemIndexOf noe = i.
Proof.
  assert (Hf : forall data (it : INodeExecutionData),
             (formattedData <- formatLiteLLMResponse data strict i ;;
              Ok (newItem outF it formattedData))
             = Throw (ThrowNodeOperationError noe) ->
             strict = true /\ itemIndexOf noe = i).
  { intros data it.
    destruct (formatLiteLLMResponse data strict i) as [r|e] eqn:E; simpl; [discriminate|].
    intros [= ->]. destruct (format_throws _ _ _ _ E) as [[te [=]]|[Hs (n & [= <-] & Hn)]].
    by split. }
  unfold tryBlock. destruct o as [item|]; [|discriminate].
  read_field inF item.
  - destruct (truthy (Some data)); cbn [negb].
    + destruct (isString (Some data)); [|by apply Hf].
      destruct (parse (stringOf (Some data))) as [data'|]; [by apply Hf|].
      destruct strict; [|discriminate]. by intros [= <-].
    + destruct strict; [|discriminate]. by intros [= <-].
  - discriminate.
  - apply (Hf (JObj [])).
  - simpl. destruct strict; [|discriminate]. by intros [= <-].
Qed.

Lemma catchBlock_throws parse inF outF strict i o e :
  catchBlock i (tryBlock parse inF outF strict i o) = Throw e ->
  exists noe, e = ThrowNodeOperationError noe /\ itemIndexOf noe = i /\
              (strict = false -> exists te, noe = UnexpectedError i te).
Proof.
  unfold catchBlock.
  destruct (tryBlock parse inF outF strict i o) as [a|[te|se|noe]] eqn:E; [discriminate| | |].
  - intros [= <-]. eexists. split; [reflexivity|]. split; [reflexivity|]. by eexists.
  - intros [= <-]. eexists. split; [reflexivity|]. split; [reflexivity|]. by eexists.
  - intros [= <-]. destruct (tryBlock_node_error _ _ _ _ _ _ _ E) as [-> Hi].
    exists noe. by repeat split.
Qed.

Lemma tryBlock_nothingToNormalise parse inF outF i (item : INodeExecutionData) :
  nothingToNormalise parse inF item = true ->
  tryBlock parse inF outF false i (Some item) = Ok item.
Proof.
  unfold nothingToNormalise, tryBlock. read_field inF item; try done.
  - destruct (truthy (Some data)); cbn [negb orb]; [|done].
    destruct (isString (Some data)); cbn [andb]; [|done].
    by destruct (parse (stringOf (Some data))).
Qed.

Lemma formatChoices_strict_lenient idx cs :
  forall i cs', formatChoices true idx i cs = Ok cs' -> formatChoices false idx i cs = Ok cs'.
Proof.
  induction cs as [|c cs IH]; intros i cs'; simpl; [done|].
  destruct (formatChoice true idx i c) as [c'|] eqn:Ec; simpl; [|discriminate].
  destruct (formatChoices true idx (S i) cs) as [rest|] eqn:Er; simpl; [|discriminate].
  intros [= <-]. rewrite (IH _ _ Er).
  assert (Hc : formatChoice false idx i c = Ok c'); [|by rewrite Hc].
  revert Ec. unfold formatChoice.
  destruct (getProp c "message") as [message|]; simpl; [|done].
  by destruct (truthy message).
Qed.

Lemma formatCloned_strict_lenient d idx r :
  formatCloned d true idx = Ok r -> formatCloned d false idx = Ok r.
Proof.
  intros E. destruct (Array_isArray (choicesOf d)) eqn:Ha.
  - destruct (choicesOf d) as [[| | | |cs|]|] eqn:Hc; try discriminate.
    rewrite (format_with_choices _ _ true _ Hc) in E.
    rewrite (format_with_choices _ _ false _ Hc).
    destruct (formatChoices true idx 0 cs) as [cs'|] eqn:Ecs; [|discriminate].
    by rewrite (formatChoices_strict_lenient _ _ _ _ Ecs).
  - destruct d; [discriminate E|..];
      (rewrite format_without_choices in E; [discriminate E | discriminate | exact Ha]).
Qed.

Lemma format_strict_lenient d idx r :
  formatLiteLLMResponse d true idx = Ok r -> formatLiteLLMResponse d false idx = Ok r.
Proof. apply formatCloned_strict_lenient. Qed.

Lemma tryBlock_strict_lenient parse inF outF i o (out : INodeExecutionData) :
  tryBlock parse inF outF true i o = Ok out ->
  tryBlock parse inF outF false i o = Ok out.
Proof.
  assert (Hf : forall data (it : INodeExecutionData),
             (formattedData <- formatLiteLLMResponse data true i ;;
              Ok (newItem outF it formattedData)) = Ok out ->
             (formattedData <- formatLiteLLMResponse data false i ;;
              Ok (newItem outF it formattedData)) = Ok out).
  { intros data it.
    destruct (formatLiteLLMResponse data true i) as [r|e] eqn:E; simpl; [|discriminate].
    intros [= <-]. by rewrite (format_strict_lenient _ _ _ E). }
  unfold tryBlock. destruct o as [item|]; [|done].
  read_field inF item.
  - destruct (truthy (Some data)); cbn [negb]; [|discriminate].
    destruct (isString (Some data)); [|by apply Hf].
    destruct (parse (stringOf (Some data))) as [data'|]; [by apply Hf | discriminate].
  - discriminate.
  - apply (Hf (JObj [])).
  - discriminate.
Qed.

(** ** The batch *)

(** The loop over all records throws what its first failing record
    throws. *)
Lemma processLoop_all_throw parse inF outF strict (items : list INodeExecutionData) :
  forall i acc e,
    processLoop parse inF outF strict i (List.map Some items) acc = Throw e <->
    exists j item,
      items !! j = Some item /\
      catchBlock (i + j) (tryBlock parse inF outF strict (i + j) (Some item)) = Throw e /\
      forall k it, (k < j)%nat -> items !! k = Some it ->
        exists out,
          catchBlock (i + k) (tryBlock parse inF outF strict (i + k) (Some it)) = Ok out.
Proof.
  induction items as [|x xs IH]; intros i acc e; simpl.
  - split; [discriminate|]. intros (j & it & H & _). discriminate H.
  - destruct (catchBlock i (tryBlock parse inF outF strict i (Some x))) as [out|e0] eqn:E; simpl.
    + rewrite IH. split.
      * intros (j & it & Hj & He & Hb). exists (S j), it. split; [exact Hj|].
        split; [by replace (i + S j)%nat with (S i + j)%nat by lia|].
        intros [|k] it' Hk Hl; simpl in Hl.
        -- injection Hl as <-. exists out. by rewrite Nat.add_0_r.
        -- replace (i + S k)%nat with (S i + k)%nat by lia. apply Hb; [lia | exact Hl].
      * intros ([|j] & it & Hj & He & Hb); simpl in Hj.
        -- injection Hj as <-. rewrite Nat.add_0_r, E in He. discriminate He.
        -- exists j, it. split; [exact Hj|].
           split; [by replace (S i + j)%nat with (i + S j)%nat by lia|].
           intros k it' Hk Hl. replace (S i + k)%nat with (i + S k)%nat by lia.
           apply (Hb (S k)); [lia | exact Hl].
    + split.
      * intros [= <-]. exists 0%nat, x. split; [done|]. rewrite Nat.add_0_r.
        split; [exact E|]. intros k it Hk. lia.
      * intros ([|j] & it & Hj & He & Hb); simpl in Hj.
        -- injection Hj as <-. rewrite Nat.add_0_r, E in He. by injection He as ->.
        -- destruct (Hb 0%nat x ltac:(lia) eq_refl) as (out & Ho).
           rewrite Nat.add_0_r, E in Ho. discriminate Ho.
Qed.

(** X1.  With [strictMode] off, a batch in which what every record
    gives under the input field is falsy, or a string that does not
    parse, comes out exactly as it went in, when all records are
    processed; and when only the first is, so does any batch whose
    first record is such a record.  What a record gives under the
    input field is its own property of that name or, when it has
    none, the member it inherits from [Object.prototype]: under such a
    name a record without the property is not passed through. *)
Theorem lenient_passthrough_batch
    (parse : string -> option JsonValue) (inF outF : string) :
  (forall items,
     forallb (nothingToNormalise parse inF) items = true ->
     execute parse inF outF true false items = Ok [items]) /\
  (forall x xs,
     nothingToNormalise parse inF x = true ->
     execute parse inF outF false false (x :: xs) = Ok [x :: xs]).
Proof.
  split.
  - intros items Hall. unfold execute. simpl.
    assert (H : forall i acc,
               processLoop parse inF outF false i (List.map Some items) acc
               = Ok (acc ++ items)).
    { induction items as [|x xs IH]; intros i acc; simpl; [by rewrite app_nil_r|].
      simpl in Hall. apply andb_prop in Hall as [Hx Hxs].
      rewrite (tryBlock_nothingToNormalise _ _ _ _ _ Hx). unfold catchBlock at 1. simpl.
      rewrite (IH Hxs). by rewrite <- app_assoc. }
    by rewrite H.
  - intros x xs Hx. unfold execute. simpl.
    rewrite (tryBlock_nothingToNormalise _ _ _ _ _ Hx). unfold catchBlock. simpl.
    unfold pushRemaining. simpl. rewrite drop_0. by destruct xs.
Qed.

Lemma lenient_passthrough_batch_witness :
  execute Parse.JSON_parse "data" "out" true false
    [itemOf (JNum zero); itemOf (JStr "not json"); itemOf JNull]
  = Ok [[itemOf (JNum zero); itemOf (JStr "not json"); itemOf JNull]].
Proof.
  apply (proj1 (lenient_passthrough_batch Parse.JSON_parse "data" "out")).
  reflexivity.
Defined.

(** X2.  When all records are processed, the node fails exactly when
    some record fails, and then with the error of the first record
    that fails: the records before it were processed without error. *)
Theorem first_failure_surfaces
    (parse : string -> option JsonValue) (inF outF : string) (strict : bool)
    (items : list INodeExecutionData) (e : exn) :
  execute parse inF outF true strict items = Throw e <->
  exists i item,
    items !! i = Some item /\
    catchBlock i (tryBlock parse inF outF strict i (Some item)) = Throw e /\
    forall k it, (k < i)%nat -> items !! k = Some it ->
      exists out, catchBlock k (tryBlock parse inF outF strict k (Some it)) = Ok out.
Proof.
  rewrite <- (processLoop_all_throw parse inF outF strict items 0 [] e).
  unfold execute. simpl.
  destruct (processLoop parse inF outF strict 0 (List.map Some items) []) as [res|e0];
    simpl; [split; discriminate | split; by intros [= <-]].
Qed.

(** X3.  Whatever makes the node fail, in either mode and with either
    batch policy, what it throws is a [NodeOperationError], never a
    bare run-time error; the index it carries is that of a record of
    the batch when all records are processed, and 0 when only the
    first is. *)
Theorem execute_throws_node_errors
    (parse : string -> option JsonValue) (inF outF : string)
    (processAll strict : bool) (items : list INodeExecutionData) (e : exn) :
  execute parse inF outF processAll strict items = Throw e ->
  exists noe,
    e = ThrowNodeOperationError noe /\
    (processAll = true -> (itemIndexOf noe < length items)%nat) /\
    (processAll = false -> itemIndexOf noe = 0%nat).
Proof.
  unfold execute. destruct processAll; simpl.
  - destruct (processLoop parse inF outF strict 0 (List.map Some items) []) as [res|e0] eqn:E;
      simpl; [discriminate|].
    intros [= <-]. apply processLoop_all_throw in E as (j & it & Hj & He & _).
    destruct (catchBlock_throws _ _ _ _ _ _ _ He) as (noe & -> & Hi & _).
    exists noe. split; [done|]. split; [|done].
    intros _. rewrite Hi. simpl. by eapply lookup_lt_Some.
  - destruct (catchBlock 0 (tryBlock parse inF outF strict 0 (items !! 0%nat))) as [out|e0] eqn:E;
      simpl; [discriminate|].
    intros [= <-]. destruct (catchBlock_throws _ _ _ _ _ _ _ E) as (noe & -> & Hi & _).
    exists noe. by repeat split.
Qed.

Lemma execute_throws_node_errors_witness :
  exists noe,
    ThrowNodeOperationError (MissingMessageError 0 1) = ThrowNodeOperationError noe /\
    (true = true -> (itemIndexOf noe < 2)%nat) /\
    (true = false -> itemIndexOf noe = 0%nat).
Proof.
  apply (execute_throws_node_errors Parse.JSON_parse "data" "data" true true
           [itemOf (documentOf []); itemOf (JObj [("choices", JArr [JObj []])])]).
  reflexivity.
Defined.

(** X4.  When the node returns, it returns one output list with exactly
    as many records as it was given, under either batch policy. *)
Theorem output_has_every_record
    (parse : string -> option JsonValue) (inF outF : string)
    (processAll strict : bool) (items : list INodeExecutionData)
    (out : list (list INodeExecutionData)) :
  execute parse inF outF processAll strict items = Ok out ->
  exists outs, out = [outs] /\ length outs = length items.
Proof.
  unfold execute. destruct processAll; simpl.
  - destruct (processLoop parse inF outF strict 0 (List.map Some items) []) as [res|e0] eqn:E;
      simpl; [|discriminate].
    intros [= <-]. apply processLoop_all in E as (outs & -> & Hl & _).
    by exists outs.
  - destruct (catchBlock 0 (tryBlock parse inF outF strict 0 (items !! 0%nat))) as [o|e0] eqn:E;
      simpl; [|discriminate].
    intros [= <-]. eexists. split; [reflexivity|].
    destruct items as [|x [|y ys]]; simpl.
    + unfold catchBlock, tryBlock in E. discriminate E.
    + reflexivity.
    + unfold pushRemaining. simpl. by rewrite ?drop_0.
Qed.

Lemma output_has_every_record_witness :
  exists outs,
    [[itemOf (JObj []); itemOf JNull]] = [outs] /\
    length outs = length [itemOf (JObj []); itemOf JNull].
Proof.
  apply (output_has_every_record Parse.JSON_parse "data" "data" false false
           [itemOf (JObj []); itemOf JNull]).
  reflexivity.
Defined.

(** X5.  With [strictMode] off, the only error the node can raise is
    the wrapped unexpected error: it raises none of the errors for a
    missing field, an unparseable field, a missing [choices] array or
    a missing message. *)
Theorem lenient_only_unexpected_error
    (parse : string -> option JsonValue) (inF outF : string)
    (processAll : bool) (items : list INodeExecutionData) (e : exn) :
  execute parse inF outF processAll false items = Throw e ->
  exists i te, e = ThrowNodeOperationError (UnexpectedError i te).
Proof.
  unfold execute. destruct processAll; simpl.
  - destruct (processLoop parse inF outF false 0 (List.map Some items) []) as [res|e0] eqn:E;
      simpl; [discriminate|].
    intros [= <-]. apply processLoop_all_throw in E as (j & it & Hj & He & _).
    destruct (catchBlock_throws _ _ _ _ _ _ _ He) as (noe & -> & _ & Hl).
    destruct (Hl eq_refl) as (te & ->). by eexists _, _.
  - destruct (catchBlock 0 (tryBlock parse inF outF false 0 (items !! 0%nat))) as [out|e0] eqn:E;
      simpl; [discriminate|].
    intros [= <-]. destruct (catchBlock_throws _ _ _ _ _ _ _ E) as (noe & -> & _ & Hl).
    destruct (Hl eq_refl) as (te & ->). by eexists _, _.
Qed.

Lemma lenient_only_unexpected_error_witness :
  exists i te,
    ThrowNodeOperationError (UnexpectedError 0 (inl (CannotReadNull "message")))
    = ThrowNodeOperationError (UnexpectedError i te).
Proof.
  apply (lenient_only_unexpected_error Parse.JSON_parse "data" "data" true
           [itemOf nullChoiceDocument]).
  reflexivity.
Defined.

(** X6.  Strict mode only adds failures: whenever the normaliser, or
    the node on a batch, succeeds with [strictMode] on, it gives the
    same result with [strictMode] off. *)
Theorem strict_success_is_lenient_success
    (parse : string -> option JsonValue) (inF outF : string) (processAll : bool) :
  (forall d idx r,
     formatLiteLLMResponse d true idx = Ok r -> formatLiteLLMResponse d false idx = Ok r) /\
  (forall items out,
     execute parse inF outF processAll true items = Ok out ->
     execute parse inF outF processAll false items = Ok out).
Proof.
  split; [apply format_strict_lenient|].
  assert (Hc : forall i o (out : INodeExecutionData),
             catchBlock i (tryBlock parse inF outF true i o) = Ok out ->
             catchBlock i (tryBlock parse inF outF false i o) = Ok out).
  { intros i o out. unfold catchBlock at 1.
    destruct (tryBlock parse inF outF true i o) as [a|[| |]] eqn:E; try discriminate.
    intros [= <-]. by rewrite (tryBlock_strict_lenient _ _ _ _ _ _ E). }
  assert (Hl : forall l i acc res,
             processLoop parse inF outF true i l acc = Ok res ->
             processLoop parse inF outF false i l acc = Ok res).
  { induction l as [|o l IH]; intros i acc res; simpl; [done|].
    destruct (catchBlock i (tryBlock parse inF outF true i o)) as [out|] eqn:E; simpl;
      [|discriminate].
    rewrite (Hc _ _ _ E). simpl. apply IH. }
  intros items out. unfold execute.
  destruct (processLoop parse inF outF true 0
              (if processAll then List.map Some items else [items !! 0%nat]) [])
    as [res|] eqn:E; simpl; [|discriminate].
  by rewrite (Hl _ _ _ _ E).
Qed.

Lemma strict_success_is_lenient_success_witness :
  formatLiteLLMResponse (documentOf [("tool_calls", JNull)]) false 0
  = Ok (documentOf [("tool_calls", JArr []); ("annotations", JArr [])]).
Proof.
  apply (proj1 (strict_success_is_lenient_success Parse.JSON_parse "data" "data" true)).
  reflexivity.
Defined.

(** ** When the normaliser succeeds *)

Lemma formatChoice_lenient_passable idx i c c' :
  formatChoice false idx i c = Ok c' -> passableChoice c = true.
Proof.
  unfold formatChoice, passableChoice, hasMessageObject.
  destruct c as [| | | | |cm]; simpl; try done.
  destruct (truthy (lookupProp "message" cm)) eqn:Ht; [|done].
  destruct (lookupProp "message" cm) as [m|]; [|discriminate].
  destruct m; try done; simpl; discriminate.
Qed.

Lemma formatChoice_strict_hasMessage idx i c c' :
  formatChoice true idx i c = Ok c' -> hasMessageObject c = true.
Proof.
  unfold formatChoice, hasMessageObject.
  destruct c as [| | | | |cm]; simpl; try done.
  destruct (truthy (lookupProp "message" cm)) eqn:Ht; [|done].
  destruct (lookupProp "message" cm) as [m|]; [|discriminate].
  destruct m; try done; simpl; discriminate.
Qed.

Lemma formatChoices_strict_total idx i cs :
  forallb hasMessageObject cs = true ->
  exists cs', formatChoices true idx i cs = Ok cs'.
Proof.
  revert i. induction cs as [|c cs IH]; intros i; simpl; [by eexists|].
  intros [Hc Hcs]%andb_prop.
  destruct (formatChoice_hasMessageObject true idx i c Hc) as [c' ->].
  destruct (IH (S i) Hcs) as [cs' ->]. simpl. by eexists.
Qed.

Lemma formatCloned_lenient_iff (d : JsonValue) (idx : nat) :
  (exists r, formatCloned d false idx = Ok r) <->
  d <> JNull /\ forallb passableChoice (elements (choicesOf d)) = true.
Proof.
  destruct (Array_isArray (choicesOf d)) eqn:Ha.
  - destruct (choicesOf d) as [[| | | |cs|]|] eqn:Hc; try discriminate.
    rewrite (format_with_choices _ _ _ _ Hc). simpl. split.
    + intros [r Hr]. split; [by intros ->|].
      destruct (formatChoices false idx 0 cs) as [cs'|] eqn:E; [|discriminate].
      clear Hr Hc. revert E. generalize 0%nat. revert cs'.
      induction cs as [|c cs IH]; intros cs' i; simpl; [done|].
      destruct (formatChoice false idx i c) as [c'|] eqn:Ec; simpl; [|discriminate].
      destruct (formatChoices false idx (S i) cs) as [rest|] eqn:Er; simpl; [|discriminate].
      intros _. rewrite (formatChoice_lenient_passable _ _ _ _ Ec). simpl. by eapply IH.
    + intros [_ Hp]. destruct (formatChoices_lenient_total idx 0 cs Hp) as [cs' ->].
      by eexists.
  - split.
    + intros [r Hr]. split; [by intros ->|].
      by destruct (choicesOf d) as [[]|].
    + intros [Hd _]. rewrite (format_without_choices _ _ _ Hd Ha). by eexists.
Qed.

Lemma forallb_fmap {A B : Type} (f : B -> bool) (g : A -> B) (l : list A) :
  forallb f (List.map g l) = forallb (fun a => f (g a)) l.
Proof. induction l as [|a l IH]; simpl; [reflexivity | by rewrite IH]. Qed.

(** X7.  With [strictMode] off the normaliser returns a result exactly
    on the documents that are neither [null] nor a number that JSON
    cannot write, and in whose [choices] array, if there is one, the
    copy of no choice is [null] and every message that is truthy in the
    copy is an object or an array. *)
Theorem lenient_succeeds_iff (d : JsonValue) (idx : nat) :
  (exists r, formatLiteLLMResponse d false idx = Ok r) <->
  writtenAsNull d = false /\
  forallb (fun c => passableChoice (JSON_roundtrip c)) (elements (choicesOf d)) = true.
Proof.
  unfold formatLiteLLMResponse. rewrite formatCloned_lenient_iff.
  rewrite choicesOf_roundtrip, elements_roundtrip, forallb_fmap.
  by rewrite writtenAsNull_false.
Qed.

Lemma formatCloned_strict_iff (d : JsonValue) (idx : nat) :
  (exists r, formatCloned d true idx = Ok r) <->
  exists cs, choicesOf d = Some (JArr cs) /\ forallb hasMessageObject cs = true.
Proof.
  destruct (Array_isArray (choicesOf d)) eqn:Ha.
  - destruct (choicesOf d) as [[| | | |cs|]|] eqn:Hc; try discriminate.
    rewrite (format_with_choices _ _ _ _ Hc). split.
    + intros [r Hr]. exists cs. split; [done|].
      destruct (formatChoices true idx 0 cs) as [cs'|] eqn:E; [|discriminate].
      clear Hr Hc. revert E. generalize 0%nat. revert cs'.
      induction cs as [|c cs IH]; intros cs' i; simpl; [done|].
      destruct (formatChoice true idx i c) as [c'|] eqn:Ec; simpl; [|discriminate].
      destruct (formatChoices true idx (S i) cs) as [rest|] eqn:Er; simpl; [|discriminate].
      intros _. rewrite (formatChoice_strict_hasMessage _ _ _ _ Ec). simpl. by eapply IH.
    + intros (cs0 & [= <-] & Hp). destruct (formatChoices_strict_total idx 0 cs Hp) as [cs' ->].
      by eexists.
  - split.
    + intros [r Hr]. destruct d; [discriminate Hr|..];
        (rewrite format_without_choices in Hr; [discriminate Hr | discriminate | exact Ha]).
    + intros (cs & Hc & _). rewrite Hc in Ha. discriminate Ha.
Qed.

(** X8.  With [strictMode] on the normaliser returns a result exactly
    on the documents that have a [choices] array in which every choice
    has a message that is an object or an array. *)
Theorem strict_succeeds_iff (d : JsonValue) (idx : nat) :
  (exists r, formatLiteLLMResponse d true idx = Ok r) <->
  exists cs, choicesOf d = Some (JArr cs) /\ forallb hasMessageObject cs = true.
Proof.
  unfold formatLiteLLMResponse. rewrite formatCloned_strict_iff, choicesOf_roundtrip.
  split.
  - intros (cs' & Hc & Hall).
    destruct (choicesOf d) as [v|]; [|discriminate]. injection Hc as Hc.
    apply JSON_roundtrip_array in Hc as (cs & -> & ->). exists cs. split; [done|].
    by rewrite forallb_hasMessageObject_roundtrip in Hall.
  - intros (cs & -> & Hall). exists (List.map JSON_roundtrip cs). split; [done|].
    by rewrite forallb_hasMessageObject_roundtrip.
Qed.

(** ** What the normaliser leaves alone *)

Lemma formatChoice_frame strict idx i c c' k :
  formatChoice strict idx i c = Ok c' -> k <> "message" -> propOf c' k = propOf c k.
Proof.
  unfold formatChoice.
  destruct c as [| | | | |cm]; simpl; try discriminate;
    try (destruct strict; [discriminate|]; by intros [= <-]).
  destruct (truthy (lookupProp "message" cm)).
  - destruct (lookupProp "message" cm) as [m|]; [|by intros [= <-]].
    destruct (coerceMessage m) as [m'|]; simpl; [|discriminate].
    intros [= <-] Hk. simpl. apply lookupProp_putProp_ne. congruence.
  - destruct strict; [discriminate|]. by intros [= <-].
Qed.

(** The message object of a choice of the result is the coerced message
    object of that choice of the input. *)
Lemma formatChoice_message_inv strict idx i c c' m' :
  formatChoice strict idx i c = Ok c' -> messageOf c' = Some (JObj m') ->
  exists m, messageOf c = Some (JObj m) /\ m' = coerceProps m.
Proof.
  unfold formatChoice.
  destruct c as [| | | | |cm]; simpl; try discriminate;
    try (destruct strict; [discriminate|]; intros [= <-]; discriminate).
  destruct (truthy (lookupProp "message" cm)) eqn:Ht.
  - destruct (lookupProp "message" cm) as [m|] eqn:Hm; [|discriminate].
    destruct m as [| | | |elems|m]; try (simpl; discriminate).
    + rewrite coerceMessage_array. simpl. intros [= <-]. simpl.
      rewrite lookupProp_putProp_eq. discriminate.
    + rewrite coerceMessage_object. simpl. intros [= <-]. simpl.
      rewrite lookupProp_putProp_eq. intros [= <-]. by exists m.
  - destruct strict; [discriminate|]. intros [= <-]. simpl. intros H.
    rewrite H in Ht. discriminate Ht.
Qed.

Lemma format_messageAt_inv d strict idx r i m' :
  formatCloned d strict idx = Ok r ->
  messageAt r i = Some (JObj m') ->
  exists m, messageAt d i = Some (JObj m) /\ m' = coerceProps m.
Proof.
  intros Hr Hm. destruct (Array_isArray (choicesOf d)) eqn:Ha.
  - destruct (choicesOf d) as [[| | | |cs|]|] eqn:Hc; try discriminate.
    rewrite (format_with_choices _ _ _ _ Hc) in Hr.
    destruct (formatChoices strict idx 0 cs) as [cs'|] eqn:E; [|discriminate].
    simpl in Hr. injection Hr as <-.
    destruct d as [| | | | |dm]; try discriminate. simpl in Hc.
    unfold messageAt, choiceAt in *. simpl in *.
    rewrite lookupProp_putProp_eq in Hm. rewrite Hc.
    destruct (cs' !! i) as [c'|] eqn:Hi'; [|discriminate].
    assert (Hlt : (i < length cs)%nat).
    { rewrite <- (formatChoices_length _ _ _ _ _ E). by eapply lookup_lt_Some. }
    destruct (lookup_lt_is_Some_2 _ _ Hlt) as [c Hi]. rewrite Hi.
    destruct (formatChoices_lookup _ _ _ _ _ _ _ E Hi) as (c'' & Hi'' & Hc'').
    rewrite Hi' in Hi''. injection Hi'' as <-.
    by eapply formatChoice_message_inv.
  - assert (Hd : d <> JNull) by (intros ->; discriminate Hr).
    rewrite (format_without_choices _ _ _ Hd Ha) in Hr.
    destruct strict; [discriminate|]. injection Hr as <-.
    unfold messageAt, choiceAt in Hm.
    by destruct (choicesOf d) as [[]|].
Qed.

(** X9.  In a normalised document no message object is left with a
    [null] in [tool_calls], [function_call] or [annotations], and every
    message object has [annotations]. *)
Theorem no_null_left
    (d : JsonValue) (strict : bool) (idx : nat) (r : JsonValue)
    (i : nat) (m' : list (string * JsonValue)) :
  formatLiteLLMResponse d strict idx = Ok r ->
  messageAt r i = Some (JObj m') ->
  lookupProp "tool_calls" m' <> Some JNull /\
  lookupProp "function_call" m' <> Some JNull /\
  exists v, lookupProp "annotations" m' = Some v /\ v <> JNull.
Proof.
  intros Hr Hm. destruct (format_messageAt_inv _ _ _ _ _ _ Hr Hm) as (m & _ & ->).
  rewrite coerceProps_tool_calls, coerceProps_function_call, coerceProps_annotations.
  repeat split.
  - by destruct (lookupProp "tool_calls" m) as [[]|].
  - by destruct (lookupProp "function_call" m) as [[]|].
  - destruct (lookupProp "annotations" m) as [[]|]; simpl; by eexists.
Qed.

Lemma no_null_left_witness :
  lookupProp "tool_calls" [("tool_calls", JArr []); ("function_call", JObj []);
                           ("annotations", JArr [])] <> Some JNull /\
  lookupProp "function_call" [("tool_calls", JArr []); ("function_call", JObj []);
                              ("annotations", JArr [])] <> Some JNull /\
  exists v, lookupProp "annotations" [("tool_calls", JArr []); ("function_call", JObj []);
                                      ("annotations", JArr [])] = Some v /\ v <> JNull.
Proof.
  apply (no_null_left
           (documentOf [("tool_calls", JNull); ("function_call", JNull)]) true 0
           (documentOf [("tool_calls", JArr []); ("function_call", JObj []);
                        ("annotations", JArr [])]) 0).
  - reflexivity.
  - reflexivity.
Defined.

(** A result is the document itself, or the document with its choices
    replaced by the formatted choices. *)
Lemma format_result d strict idx r :
  formatCloned d strict idx = Ok r ->
  (Array_isArray (choicesOf d) = false /\ r = d) \/
  (exists dm cs cs',
     d = JObj dm /\ lookupProp "choices" dm = Some (JArr cs) /\
     formatChoices strict idx 0 cs = Ok cs' /\
     r = JObj (putProp "choices" (JArr cs') dm)).
Proof.
  intros Hr. destruct (Array_isArray (choicesOf d)) eqn:Ha.
  - right. destruct (choicesOf d) as [[| | | |cs|]|] eqn:Hc; try discriminate.
    rewrite (format_with_choices _ _ _ _ Hc) in Hr.
    destruct (formatChoices strict idx 0 cs) as [cs'|] eqn:E; [|discriminate].
    injection Hr as <-. destruct d as [| | | | |dm]; try discriminate.
    by exists dm, cs, cs'.
  - left. assert (Hd : d <> JNull) by (intros ->; discriminate Hr).
    rewrite (format_without_choices _ _ _ Hd Ha) in Hr.
    destruct strict; [discriminate|]. by injection Hr as <-.
Qed.

Lemma formatCloned_frame
    (d : JsonValue) (strict : bool) (idx : nat) (r : JsonValue) :
  formatCloned d strict idx = Ok r ->
  (forall k, k <> "choices" -> propOf r k = propOf d k) /\
  (forall i, is_Some (choiceAt r i) <-> is_Some (choiceAt d i)) /\
  (forall i c c' k,
     choiceAt d i = Some c -> choiceAt r i = Some c' -> k <> "message" ->
     propOf c' k = propOf c k) /\
  (forall i m m' k,
     messageAt d i = Some (JObj m) -> messageAt r i = Some (JObj m') ->
     k <> "tool_calls" -> k <> "function_call" -> k <> "annotations" ->
     lookupProp k m' = lookupProp k m).
Proof.
  intros Hr. split; [|split; [|split]].
  - intros k Hk.
    destruct (format_result _ _ _ _ Hr) as [[_ ->]|(dm & cs & cs' & -> & Hc & E & ->)];
      [done|].
    simpl. apply lookupProp_putProp_ne. congruence.
  - intros i.
    destruct (format_result _ _ _ _ Hr) as [[_ ->]|(dm & cs & cs' & -> & Hc & E & ->)];
      [done|].
    unfold choiceAt. simpl. rewrite lookupProp_putProp_eq, Hc.
    rewrite !lookup_lt_is_Some. by rewrite (formatChoices_length _ _ _ _ _ E).
  - intros i c c' k Hi Hi' Hk.
    destruct (format_result _ _ _ _ Hr) as [[_ ->]|(dm & cs & cs' & -> & Hc & E & ->)];
      [congruence|].
    unfold choiceAt in Hi, Hi'. simpl in Hi, Hi'.
    rewrite lookupProp_putProp_eq in Hi'. rewrite Hc in Hi.
    destruct (formatChoices_lookup _ _ _ _ _ _ _ E Hi) as (c'' & Hi'' & Hc'').
    rewrite Hi'' in Hi'. injection Hi' as <-. by eapply formatChoice_frame.
  - intros i m m' k Hm Hm' H1 H2 H3.
    rewrite (format_messageAt _ _ _ _ _ _ Hr Hm) in Hm'. injection Hm' as <-.
    by apply coerceProps_other.
Qed.

(** X10.  Normalisation changes nothing of the copy but the three
    fields of the message objects: the result has the other properties
    of the document as the copy has them, it has as many choices as
    the input, every choice has its properties other than [message] as
    the copy has them, and every message object has its properties
    other than [tool_calls], [function_call] and [annotations] as the
    copy has them. *)
Theorem normalize_frame
    (d : JsonValue) (strict : bool) (idx : nat) (r : JsonValue) :
  formatLiteLLMResponse d strict idx = Ok r ->
  (forall k, k <> "choices" -> propOf r k = option_map JSON_roundtrip (propOf d k)) /\
  (forall i, is_Some (choiceAt r i) <-> is_Some (choiceAt d i)) /\
  (forall i c c' k,
     choiceAt d i = Some c -> choiceAt r i = Some c' -> k <> "message" ->
     propOf c' k = option_map JSON_roundtrip (propOf c k)) /\
  (forall i m m' k,
     messageAt d i = Some (JObj m) -> messageAt r i = Some (JObj m') ->
     k <> "tool_calls" -> k <> "function_call" -> k <> "annotations" ->
     lookupProp k m' = option_map JSON_roundtrip (lookupProp k m)).
Proof.
  intros Hr. destruct (formatCloned_frame _ _ _ _ Hr) as (H1 & H2 & H3 & H4).
  split; [|split; [|split]].
  - intros k Hk. by rewrite (H1 k Hk), propOf_roundtrip.
  - intros i. rewrite (H2 i), choiceAt_roundtrip.
    destruct (choiceAt d i); simpl; split; intros [x Hx]; by try discriminate.
  - intros i c c' k Hi Hi' Hk. rewrite <- propOf_roundtrip.
    apply (H3 i); [|exact Hi'|exact Hk]. by rewrite choiceAt_roundtrip, Hi.
  - intros i m m' k Hm Hm' N1 N2 N3. rewrite <- lookupProp_roundtripProps.
    apply (H4 i); [|exact Hm'|exact N1|exact N2|exact N3].
    by rewrite messageAt_roundtrip, Hm.
Qed.

Lemma normalize_frame_witness :
  (forall k, k <> "choices" ->
     propOf (JObj [("id", JNull);
                   ("choices", JArr [JObj [("message", JObj [("annotations", JArr [])])]])]) k
     = option_map JSON_roundtrip
         (propOf (JObj [("id", JNum infinity);
                        ("choices", JArr [JObj [("message", JObj [])]])]) k)) /\
  (forall i,
     is_Some (choiceAt (JObj [("id", JNull);
                              ("choices",
                               JArr [JObj [("message", JObj [("annotations", JArr [])])]])]) i)
     <-> is_Some (choiceAt (JObj [("id", JNum infinity);
                                  ("choices", JArr [JObj [("message", JObj [])]])]) i)) /\
  (forall i c c' k,
     choiceAt (JObj [("id", JNum infinity);
                     ("choices", JArr [JObj [("message", JObj [])]])]) i = Some c ->
     choiceAt (JObj [("id", JNull);
                     ("choices",
                      JArr [JObj [("message", JObj [("annotations", JArr [])])]])]) i
     = Some c' ->
     k <> "message" -> propOf c' k = option_map JSON_roundtrip (propOf c k)) /\
  (forall i m m' k,
     messageAt (JObj [("id", JNum infinity);
                      ("choices", JArr [JObj [("message", JObj [])]])]) i = Some (JObj m) ->
     messageAt (JObj [("id", JNull);
                      ("choices",
                       JArr [JObj [("message", JObj [("annotations", JArr [])])]])]) i
     = Some (JObj m') ->
     k <> "tool_calls" -> k <> "function_call" -> k <> "annotations" ->
     lookupProp k m' = option_map JSON_roundtrip (lookupProp k m)).
Proof.
  apply (normalize_frame
           (JObj [("id", JNum infinity);
                  ("choices", JArr [JObj [("message", JObj [])]])]) false 0).
  reflexivity.
Defined.

(** ** Documents that are already normal *)









(** ** The records of the output *)

(** X12.  When all records are processed and the node returns, every
    output record has the binary attachments of the input record at the
    same index, its [json] fields other than the output field, and its
    [pairedItem] when that is truthy; a record without [pairedItem]
    gives a record without. *)
Theorem output_record_frame
    (parse : string -> option JsonValue) (inF outF : string) (strict : bool)
    (items outs : list INodeExecutionData) :
  execute parse inF outF true strict items = Ok [outs] ->
  forall i (item out : INodeExecutionData),
    items !! i = Some item -> outs !! i = Some out ->
    binary out = binary item /\
    (forall k, k <> outF -> lookupProp k (json out) = lookupProp k (json item)) /\
    (truthyPairedItem (pairedItem item) = true -> pairedItem out = pairedItem item) /\
    (pairedItem item = None -> pairedItem out = None).
Proof.
  unfold execute. simpl.
  destruct (processLoop parse inF outF strict 0 (List.map Some items) []) as [res|] eqn:E;
    simpl; [|discriminate].
  intros [= ->]. apply processLoop_all in E as (outs' & Heq & _ & Hall).
  simpl in Heq. subst outs'.
  intros i item out Hi Ho. destruct (Hall i item Hi) as (out' & Ho' & Hp).
  rewrite Ho in Ho'. injection Ho' as <-. simpl in Hp.
  unfold catchBlock in Hp.
  destruct (tryBlock parse inF outF strict i (Some item)) as [a|[| |]] eqn:Et; try discriminate.
  injection Hp as ->.
  destruct (tryBlock_cases _ _ _ _ _ _ _ Et) as [->|(data & r & _ & ->)]; [done|].
  unfold newItem. simpl. repeat split.
  - by destruct (binary item).
  - intros k Hk. apply lookupProp_defineProp_ne. congruence.
  - by intros ->.
  - by intros ->.
Qed.

Lemma output_record_frame_witness :
  binary {| json := [("data", JObj []); ("out", JObj [])];
            binary := None; pairedItem := None |}
  = binary (itemOf (JObj [])) /\
  (forall k, k <> "out" ->
     lookupProp k (json {| json := [("data", JObj []); ("out", JObj [])];
                           binary := None; pairedItem := None |})
     = lookupProp k (json (itemOf (JObj [])))) /\
  (truthyPairedItem (pairedItem (itemOf (JObj []))) = true ->
   pairedItem {| json := [("data", JObj []); ("out", JObj [])];
                 binary := None; pairedItem := None |}
   = pairedItem (itemOf (JObj []))) /\
  (pairedItem (itemOf (JObj [])) = None ->
   pairedItem {| json := [("data", JObj []); ("out", JObj [])];
                 binary := None; pairedItem := None |} = None).
Proof.
  apply (output_record_frame Parse.JSON_parse "data" "out" false
           [itemOf (JObj [])]
           [{| json := [("data", JObj []); ("out", JObj [])];
               binary := None; pairedItem := None |}]) with (i := 0%nat).
  - reflexivity.
  - reflexivity.
  - reflexivity.
Defined.

(** ** Instances of the conditional properties above *)

Lemma no_choices_array_witness :
  formatLiteLLMResponse (JObj [("choices", JStr "none"); ("usage", JNum infinity)]) true 3
  = Throw (ThrowNodeOperationError (InvalidStructureError 3)) /\
  formatLiteLLMResponse (JObj [("choices", JStr "none"); ("usage", JNum infinity)]) false 3
  = Ok (JObj [("choices", JStr "none"); ("usage", JNull)]).
Proof.
  apply (no_choices_array (JObj [("choices", JStr "none"); ("usage", JNum infinity)]) 3).
  - reflexivity.
  - reflexivity.
Defined.

Lemma strict_missing_message_witness :
  formatLiteLLMResponse
    (JObj [("choices", JArr [JObj [("message", JObj [])];
                             JObj [("message", JNum infinity)];
                             JObj []])]) true 2
  = Throw (ThrowNodeOperationError (MissingMessageError 1 2)).
Proof.
  apply (strict_missing_message
           (JObj [("choices", JArr [JObj [("message", JObj [])];
                                    JObj [("message", JNum infinity)];
                                    JObj []])])
           [JObj [("message", JObj [])]; JObj [("message", JNum infinity)]; JObj []]
           2 1 (JObj [("message", JNum infinity)])).
  - reflexivity.
  - reflexivity.
  - reflexivity.
  - reflexivity.
  - intros j c' Hj Hl. destruct j as [|j]; [|lia].
    injection Hl as <-. reflexivity.
Defined.

Lemma lenient_missing_message_witness :
  choiceAt (JObj [("choices", JArr [JObj [("message", JObj [("annotations", JArr [])])];
                                    JObj [("message", JNull); ("index", JNum zero)]])]) 1
  = Some (JObj [("message", JNull); ("index", JNum zero)]).
Proof.
  apply (lenient_missing_message
           (JObj [("choices",
                   JArr [JObj [("message", JObj [])];
                         JObj [("message", JNum infinity);
                               ("index", JNum (S754_zero true))]])]) 0
           (JObj [("choices",
                   JArr [JObj [("message", JObj [("annotations", JArr [])])];
                         JObj [("message", JNull); ("index", JNum zero)]])])
           1
           (JObj [("message", JNum infinity); ("index", JNum (S754_zero true))])).
  - reflexivity.
  - reflexivity.
  - reflexivity.
Defined.

Lemma store_agrees_with_value_witness :
  match formatLiteLLMResponse
          (JObj [("choices",
                  JArr [JObj [("message", JObj [("tool_calls", JNull)])];
                        JObj [("message", JObj [("tool_calls", JNull)])]])]) false 0 with
  | Ok r =>
      exists v,
        snd (Store.formatLiteLLMResponse (Store.VRef 3) false 0 aliasHeap) = Ok v /\
        snd (Store.JSON_stringify v
               (fst (Store.formatLiteLLMResponse (Store.VRef 3) false 0 aliasHeap))) = Ok r
  | Throw e => snd (Store.formatLiteLLMResponse (Store.VRef 3) false 0 aliasHeap) = Throw e
  end.
Proof.
  apply (Agreement.store_agrees_with_value (Store.VRef 3) false 0 aliasHeap).
  reflexivity.
Defined.
